(** * playlivechess-manager: the game-server scaling manager

    A shallow embedding of [manager/scaling_manager/server_classes.py]
    (classes [Server] and [ServerManagerThread]) and the properties of its
    control cycle and of its allocation path.

    Python objects are shared by reference: the same [Server] object sits in
    one of the manager's lists and, while it is unresponsive, in the local
    list [unresponsive_servers] of [run] as well.  The embedding therefore
    keeps the [Server] objects in a store ([heap]) and the lists hold
    references ([loc]).

    The functions of [aws_utils] that [server_classes.py] calls, the HTTP
    request of [Server.update_state] and [time.sleep] are the environment.
    Every call to it is recorded in [calls], and what the environment answers
    is a function of the calls made so far ([Env]). *)

From stdpp Require Import gmap strings list fin_maps.
From Stdlib Require Import ZArith Lia.

Open Scope string_scope.
Open Scope list_scope.
Open Scope Z_scope.

(** ** Data model *)

(** A reference to a [Server] object. *)
Abbreviation loc := nat (only parsing).

(** The attributes of a [Server] object. *)
Record Server := mkServer {
  task_arn : string;
  status : string;
  ec2_id : string;
  address : string;
  available_capacity : Z;
  ready_to_close : bool
}.

#[global] Instance Server_inhabited : Inhabited Server :=
  populate (mkServer "" "" "" "" 0 false).

Definition with_available_capacity (c : Z) (s : Server) : Server :=
  mkServer (task_arn s) (status s) (ec2_id s) (address s) c (ready_to_close s).

Definition with_ready_to_close (b : bool) (s : Server) : Server :=
  mkServer (task_arn s) (status s) (ec2_id s) (address s)
           (available_capacity s) b.

(** The attributes of the [ServerManagerThread] object. *)
Record ServerManagerThread := mkManager {
  task_family : string;
  available_servers : list loc;
  standby_servers : list loc;
  total_available_capacity : Z;
  upscale_margin : Z;
  downscale_margin : Z;
  thread_sleep_time : Z
}.

(** A Python exception, by the name of its class. *)
Definition exn := string.

Inductive result (A : Type) : Type :=
| Ok (a : A)
| Raise (e : exn).
Arguments Ok {A} a.
Arguments Raise {A} e.

(** The body of a health reply, [requests.get(url).json()]: a dictionary in
    which either key may be missing.  The values are typed as the attributes
    they are stored in ([ready_to_close]: boolean, [available_capacity]:
    integer). *)
Record health_json := mkHealth {
  json_ready_to_close : option bool;
  json_available_capacity : option Z
}.

(** The calls to the environment. *)
Inductive call :=
| RequestsGet (url : string)
| LaunchEcsInstance
| LaunchTask (family : string)
| RunningTaskWaiter (arn : string)
| GetTaskDescription (arn : string)
| GetEc2Id
| GetExposedPort
| GetIp (ec2 : string)
| TerminateEc2 (ec2 : string)
| GetTasks (family : string)
| Sleep (seconds : Z).

#[global] Instance call_eq_dec : EqDecision call.
Proof. solve_decision. Defined.

(** The environment: each function receives the calls made before this one,
    most recent first, and answers or raises. *)
Record Env (TaskDescription : Type) := mkEnv {
  requests_get_json : string -> list call -> result health_json;
  launch_ecs_instance : list call -> result unit;
  launch_task : string -> list call -> result string;
  running_task_waiter : string -> list call -> result unit;
  get_task_description : string -> list call -> result TaskDescription;
  get_ec2_id : TaskDescription -> list call -> result string;
  get_exposed_port : TaskDescription -> list call -> result string;
  get_ip : string -> list call -> result string;
  terminate_ec2 : string -> list call -> result unit;
  get_tasks : string -> list call -> result (list string);
  time_sleep : Z -> list call -> result unit
}.
Arguments requests_get_json {_} _ _ _.
Arguments launch_ecs_instance {_} _ _.
Arguments launch_task {_} _ _ _.
Arguments running_task_waiter {_} _ _ _.
Arguments get_task_description {_} _ _ _.
Arguments get_ec2_id {_} _ _ _.
Arguments get_exposed_port {_} _ _ _.
Arguments get_ip {_} _ _ _.
Arguments terminate_ec2 {_} _ _ _.
Arguments get_tasks {_} _ _ _.
Arguments time_sleep {_} _ _ _.

(** The state of the program: the store of [Server] objects, the manager
    object ([self]) and the calls made so far, most recent first. *)
Record state := mkState {
  heap : gmap nat Server;
  self : ServerManagerThread;
  calls : list call
}.

Definition set_heap (h : gmap nat Server) (st : state) : state :=
  mkState h (self st) (calls st).

Definition set_self (m : ServerManagerThread) (st : state) : state :=
  mkState (heap st) m (calls st).

Definition log (c : call) (st : state) : state :=
  mkState (heap st) (self st) (c :: calls st).

Definition set_available_servers (l : list loc) (st : state) : state :=
  let m := self st in
  set_self (mkManager (task_family m) l (standby_servers m)
              (total_available_capacity m) (upscale_margin m)
              (downscale_margin m) (thread_sleep_time m)) st.

Definition set_standby_servers (l : list loc) (st : state) : state :=
  let m := self st in
  set_self (mkManager (task_family m) (available_servers m) l
              (total_available_capacity m) (upscale_margin m)
              (downscale_margin m) (thread_sleep_time m)) st.

Definition set_total_available_capacity (c : Z) (st : state) : state :=
  let m := self st in
  set_self (mkManager (task_family m) (available_servers m)
              (standby_servers m) c (upscale_margin m)
              (downscale_margin m) (thread_sleep_time m)) st.

(** [s.available_capacity], [s.ready_to_close] read through the reference.
    The store is total: a reference at which nothing was allocated reads as
    the default object, and a write through it stores the updated default. *)
Definition capacity (st : state) (s : loc) : Z :=
  available_capacity (heap st !!! s).

Definition closable (st : state) (s : loc) : bool :=
  ready_to_close (heap st !!! s).

(** [s.available_capacity = c], [s.ready_to_close = b]. *)
Definition set_capacity (s : loc) (c : Z) (st : state) : state :=
  set_heap (<[s := with_available_capacity c (heap st !!! s)]> (heap st)) st.

Definition set_ready (s : loc) (b : bool) (st : state) : state :=
  set_heap (<[s := with_ready_to_close b (heap st !!! s)]> (heap st)) st.

(** The address [update_state] requests. *)
Definition health_url (st : state) (s : loc) : string :=
  "http://" +:+ address (heap st !!! s) +:+ "/health/".

(** ** Computations that may raise *)

Definition Exc (A : Type) : Type := state -> result A * state.

Definition ret {A} (a : A) : Exc A := fun st => (Ok a, st).

Definition raise {A} (e : exn) : Exc A := fun st => (Raise e, st).

Definition bind {A B} (m : Exc A) (k : A -> Exc B) : Exc B :=
  fun st =>
    match m st with
    | (Ok a, st') => k a st'
    | (Raise e, st') => (Raise e, st')
    end.

Declare Scope exc_scope.
Delimit Scope exc_scope with exc.
Notation "x <- m ;; k" := (bind m (fun x => k))
  (at level 100, m at next level, right associativity) : exc_scope.
Notation "m ;;; k" := (bind m (fun _ => k))
  (at level 100, right associativity) : exc_scope.

(** [try: body except Exception as e: handler]. *)
Definition try_except {A} (body : Exc A) (handler : exn -> Exc A) : Exc A :=
  fun st =>
    match body st with
    | (Ok a, st') => (Ok a, st')
    | (Raise e, st') => handler e st'
    end.

Definition get_state : Exc state := fun st => (Ok st, st).

Definition modify (f : state -> state) : Exc unit := fun st => (Ok tt, f st).

(** A call to the environment: the answer depends on the calls made before,
    and the call is recorded. *)
Definition extern {A} (c : call) (answer : list call -> result A) : Exc A :=
  fun st => (answer (calls st), log c st).

(** [l[i]]: raises [IndexError] out of range. *)
Definition getitem {A} (l : list A) (i : nat) : Exc A :=
  match l !! i with
  | Some x => ret x
  | None => raise "IndexError"
  end.

(** [d[key]] on the health reply: raises [KeyError] when the key is missing. *)
Definition getkey {A} (field : option A) : Exc A :=
  match field with
  | Some x => ret x
  | None => raise "KeyError"
  end.

(** [l.remove(x)]: drops the first occurrence, [None] (Python: [ValueError])
    when there is none. *)
Fixpoint list_remove_first (x : loc) (l : list loc) : option (list loc) :=
  match l with
  | [] => None
  | y :: l' =>
      if decide (x = y) then Some l'
      else option_map (cons y) (list_remove_first x l')
  end.

(** ** The program *)

Section Program.

Context {TaskDescription : Type} (env : Env TaskDescription).

Open Scope exc_scope.

(** [Server.__init__]: the object is returned; it enters the store when the
    caller keeps a reference to it. *)
Definition Server_init (arn : string) : Exc Server :=
  extern (RunningTaskWaiter arn) (running_task_waiter env arn) ;;;
  task_description <-
    extern (GetTaskDescription arn) (get_task_description env arn) ;;
  ec2 <- extern GetEc2Id (get_ec2_id env task_description) ;;
  port <- extern GetExposedPort (get_exposed_port env task_description) ;;
  ip <- extern (GetIp ec2) (get_ip env ec2) ;;
  ret (mkServer arn "RUNNING" ec2 (ip +:+ ":" +:+ port) 0 false).

(** A new object in the store; its reference is one no object has. *)
Definition alloc (s : Server) : Exc loc :=
  fun st =>
    let r := fresh (dom (heap st)) in
    (Ok r, set_heap (<[r := s]> (heap st)) st).

(** [Server.update_state]. *)
Definition update_state (s : loc) : Exc bool :=
  st <- get_state ;;
  let url := health_url st s in
  try_except
    (state_json <- extern (RequestsGet url) (requests_get_json env url) ;;
     b <- getkey (json_ready_to_close state_json) ;;
     modify (set_ready s b) ;;;
     c <- getkey (json_available_capacity state_json) ;;
     modify (set_capacity s c) ;;;
     ret true)
    (fun _ => ret false).

(** [ServerManagerThread.add_server]. *)
Definition add_server : Exc bool :=
  try_except
    (extern LaunchEcsInstance (launch_ecs_instance env) ;;;
     st <- get_state ;;
     let family := task_family (self st) in
     task <- extern (LaunchTask family) (launch_task env family) ;;
     s <- Server_init task ;;
     r <- alloc s ;;
     modify (fun st =>
       set_available_servers (available_servers (self st) ++ [r]) st) ;;;
     ret true)
    (fun _ => ret false).

(** [ServerManagerThread.remove_server]. *)
Definition remove_server (redundant_server : loc) : Exc bool :=
  st <- get_state ;;
  let ec2 := ec2_id (heap st !!! redundant_server) in
  try_except
    (extern (TerminateEc2 ec2) (terminate_ec2 env ec2) ;;;
     ret true)
    (fun _ => ret false).

(** [ServerManagerThread.get_available_server_index]: the scan over
    [range(1, len(self.available_servers))]; every index it reads is in
    range. *)
Definition get_available_server_index (st : state) : nat :=
  let l := available_servers (self st) in
  foldl (fun max_available_server_index i =>
           if capacity st (l !!! max_available_server_index)
              <? capacity st (l !!! i)
           then i else max_available_server_index)
        0%nat (seq 1 (length l - 1)).

(** [ServerManagerThread.get_available_server]. *)
Definition get_available_server : Exc loc :=
  st <- get_state ;;
  let max_available_server_index := get_available_server_index st in
  s <- getitem (available_servers (self st)) max_available_server_index ;;
  modify (fun st => set_capacity s (capacity st s - 1) st) ;;;
  st <- get_state ;;
  getitem (available_servers (self st)) max_available_server_index.

(** [self.standby_servers.pop(i)] and [self.available_servers.pop(i)]. *)
Definition pop_standby (i : nat) : Exc loc :=
  st <- get_state ;;
  s <- getitem (standby_servers (self st)) i ;;
  modify (set_standby_servers (delete i (standby_servers (self st)))) ;;;
  ret s.

Definition pop_available (i : nat) : Exc loc :=
  st <- get_state ;;
  s <- getitem (available_servers (self st)) i ;;
  modify (set_available_servers (delete i (available_servers (self st)))) ;;;
  ret s.

(** [self.available_servers.remove(s)] and [self.standby_servers.remove(s)]. *)
Definition remove_available (s : loc) : Exc unit :=
  st <- get_state ;;
  match list_remove_first s (available_servers (self st)) with
  | Some l => modify (set_available_servers l)
  | None => raise "ValueError"
  end.

Definition remove_standby (s : loc) : Exc unit :=
  st <- get_state ;;
  match list_remove_first s (standby_servers (self st)) with
  | Some l => modify (set_standby_servers l)
  | None => raise "ValueError"
  end.

(** *** The control cycle: one turn of the [while(True)] of [run] *)

(** The loop over [self.available_servers]; [new_total_available_capacity]
    and [unresponsive_servers] are the local variables of [run]. *)
Fixpoint poll_available (l : list loc) (new_total_available_capacity : Z)
    (unresponsive_servers : list loc) : Exc (Z * list loc) :=
  match l with
  | [] => ret (new_total_available_capacity, unresponsive_servers)
  | s :: l' =>
      ok <- update_state s ;;
      unresponsive_servers <-
        (if ok then ret unresponsive_servers
         else modify (set_capacity s 0) ;;;
              ret (unresponsive_servers ++ [s])) ;;
      st <- get_state ;;
      poll_available l' (new_total_available_capacity + capacity st s)
        unresponsive_servers
  end.

(** The loop over [self.standby_servers]. *)
Fixpoint poll_standby (l : list loc) (unresponsive_servers : list loc)
    : Exc (list loc) :=
  match l with
  | [] => ret unresponsive_servers
  | s :: l' =>
      ok <- update_state s ;;
      poll_standby l'
        (if ok then unresponsive_servers else unresponsive_servers ++ [s])
  end.

(** The branch under [print("Upscale")]. *)
Definition upscale : Exc unit :=
  st <- get_state ;;
  if (length (standby_servers (self st)) =? 0)%nat then
    add_server ;;; ret tt
  else
    s <- pop_standby 0 ;;
    modify (fun st =>
      set_total_available_capacity
        (total_available_capacity (self st) + capacity st s) st) ;;;
    modify (fun st =>
      set_available_servers (available_servers (self st) ++ [s]) st).

(** The branch under [print("Downscale")]. *)
Definition downscale : Exc unit :=
  st <- get_state ;;
  s <- pop_available (get_available_server_index st) ;;
  modify (fun st =>
    set_total_available_capacity
      (total_available_capacity (self st) - capacity st s) st) ;;;
  modify (fun st =>
    set_standby_servers (standby_servers (self st) ++ [s]) st).

(** The two tests of the scale decision. *)
Definition upscale_test (st : state) : bool :=
  total_available_capacity (self st) <? upscale_margin (self st).

Definition downscale_test (st : state) : bool :=
  (downscale_margin (self st) <? total_available_capacity (self st))
  && (1 <? length (available_servers (self st)))%nat.

(** The outcome of the [if ... elif ...] of the scale decision. *)
Inductive action := Upscale | Downscale | NoAction.

Definition scale_action (st : state) : action :=
  if upscale_test st then Upscale
  else if downscale_test st then Downscale
  else NoAction.

(** The scale decision with its branches. *)
Definition scale : Exc unit :=
  st <- get_state ;;
  match scale_action st with
  | Upscale => upscale
  | Downscale => downscale
  | NoAction => ret tt
  end.

(** The loop that terminates the standby servers that are ready to close;
    [remaining] is [remaining_standby_servers]. *)
Fixpoint evict_loop (l : list loc) (remaining : list loc) : Exc (list loc) :=
  match l with
  | [] => ret remaining
  | s :: l' =>
      st <- get_state ;;
      if closable st s then remove_server s ;;; evict_loop l' remaining
      else evict_loop l' (remaining ++ [s])
  end.

Definition evict_standby : Exc unit :=
  st <- get_state ;;
  remaining <- evict_loop (standby_servers (self st)) [] ;;
  modify (set_standby_servers remaining).

(** [sleep(seconds)], the [sleep] of [time]: whether it returns or raises
    (a [ValueError] on a negative length, an [OverflowError] on a length the
    clock cannot hold) is the environment's answer. *)
Definition sleep (seconds : Z) : Exc unit :=
  extern (Sleep seconds) (time_sleep env seconds).

(** The body of the last loop of [run], for one unresponsive server. *)
Definition recheck (s : loc) : Exc unit :=
  ok <- update_state s ;;
  if ok then ret tt
  else
    st <- get_state ;;
    (if bool_decide (s ∈ available_servers (self st)) then remove_available s
     else if bool_decide (s ∈ standby_servers (self st)) then remove_standby s
     else ret tt) ;;;
    remove_server s ;;;
    ret tt.

Fixpoint recheck_all (unresponsive_servers : list loc) : Exc unit :=
  match unresponsive_servers with
  | [] => ret tt
  | s :: l' => recheck s ;;; recheck_all l'
  end.

(** The cycle up to the commit of the aggregate (the first loop and the
    assignment to [self.total_available_capacity]); the result is
    [unresponsive_servers]. *)
Definition poll_and_commit : Exc (list loc) :=
  st <- get_state ;;
  p <- poll_available (available_servers (self st)) 0 [] ;;
  modify (set_total_available_capacity (fst p)) ;;;
  ret (snd p).

(** One full cycle. *)
Definition cycle : Exc unit :=
  unresponsive_servers <- poll_and_commit ;;
  st <- get_state ;;
  unresponsive_servers <-
    poll_standby (standby_servers (self st)) unresponsive_servers ;;
  scale ;;;
  evict_standby ;;;
  st <- get_state ;;
  sleep (thread_sleep_time (self st)) ;;;
  recheck_all unresponsive_servers.

(** [run], cut after [n] cycles. *)
Fixpoint run (n : nat) : Exc unit :=
  match n with
  | O => ret tt
  | S n' => cycle ;;; run n'
  end.

(** *** [ServerManagerThread.__init__] *)

(** [[Server(arn) for arn in task_arns]]. *)
Fixpoint construct_servers (task_arns : list string) : Exc (list loc) :=
  match task_arns with
  | [] => ret []
  | arn :: arns =>
      s <- Server_init arn ;;
      r <- alloc s ;;
      rest <- construct_servers arns ;;
      ret (r :: rest)
  end.

(** The loop of [__init__] that adds up the capacities, from 0. *)
Definition sum_capacity (st : state) (l : list loc) : Z :=
  foldl (fun total s => total + capacity st s) 0 l.

(** The constructor, from the settings [SERVER_TASK_DEFINITION],
    [UPSCALE_MARGIN], [DOWNSCALE_MARGIN] and [THREAD_SLEEP_TIME]; the program
    starts with no object and no call made. *)
Definition ServerManagerThread_init
    (family : string) (upscale downscale sleep_time : Z) : state :=
  let st0 := mkState ∅ (mkManager family [] [] 0 upscale downscale sleep_time)
                     [] in
  let '(r, st1) :=
    try_except
      (task_arns <- extern (GetTasks family) (get_tasks env family) ;;
       construct_servers task_arns)
      (fun _ => ret []) st0 in
  let servers := match r with Ok l => l | Raise _ => [] end in
  set_total_available_capacity (sum_capacity st1 servers)
    (set_available_servers servers st1).

End Program.

(** *** The rest of the class *)

(** [ServerManagerThread.get_available_servers]. *)
Definition get_available_servers (st : state) : list loc :=
  available_servers (self st).

Section Singleton.

Context {TaskDescription : Type} (env : Env TaskDescription).

(** The class attribute [__shared_instance] is [None] until the first
    construction, and the one manager afterwards: [None] here, or the state
    of the program the manager lives in.  The arguments are the settings the
    constructor reads. *)

(** [ServerManagerThread()], as a caller sees it. *)
Definition ServerManagerThread_new
    (family : string) (upscale downscale sleep_time : Z)
    (shared_instance : option state) : result unit * option state :=
  match shared_instance with
  | None =>
      (Ok tt,
       Some (ServerManagerThread_init env family upscale downscale sleep_time))
  | Some _ => (Raise "Exception", shared_instance)
  end.

(** [ServerManagerThread.get_instance]: the result is the value of
    [__shared_instance] after the call. *)
Definition get_instance
    (family : string) (upscale downscale sleep_time : Z)
    (shared_instance : option state)
    : result (option state) * option state :=
  match shared_instance with
  | None =>
      match ServerManagerThread_new family upscale downscale sleep_time
              shared_instance with
      | (Ok _, shared_instance') => (Ok shared_instance', shared_instance')
      | (Raise e, shared_instance') => (Raise e, shared_instance')
      end
  | Some _ => (Ok shared_instance, shared_instance)
  end.

End Singleton.

(** ** Vocabulary of the properties *)

(** One step of the scan of [get_available_server_index], over any measure
    of the indices. *)
Definition scan_step (cap : nat -> Z) (m i : nat) : nat :=
  if cap m <? cap i then i else m.

(** What a health reply reports when [update_state] succeeds on it: both keys
    are there.  [None] when [update_state] returns [False]. *)
Definition reported (r : result health_json) : option (bool * Z) :=
  match r with
  | Ok j =>
      match json_ready_to_close j, json_available_capacity j with
      | Some b, Some c => Some (b, c)
      | _, _ => None
      end
  | Raise _ => None
  end.

(** The capacity a reply contributes to the aggregate. *)
Definition contribution (r : result health_json) : Z :=
  match reported r with
  | Some (_, c) => c
  | None => 0
  end.

(** The number of requests for a new instance among the calls. *)
Definition launch_count (st : state) : nat :=
  length (filter (fun c => c = LaunchEcsInstance) (calls st)).

(** The sum of the capacities of the servers of a list, as they are in the
    store. *)
Definition total_capacity (st : state) (l : list loc) : Z :=
  foldr (fun s acc => capacity st s + acc) 0 l.

Section Vocabulary.

Context {TaskDescription : Type} (env : Env TaskDescription).

(** The reply the environment gives to a health request on [s], made in
    state [st]. *)
Definition health_reply (st : state) (s : loc) : result health_json :=
  requests_get_json env (health_url st s) (calls st).

(** The replies to the requests of a poll loop over [l] that starts after
    the calls [cs]: each request is made after the ones before it. *)
Fixpoint replies (st : state) (l : list loc) (cs : list call)
    : list (result health_json) :=
  match l with
  | [] => []
  | s :: l' =>
      requests_get_json env (health_url st s) cs
      :: replies st l' (RequestsGet (health_url st s) :: cs)
  end.

End Vocabulary.

(** The servers of [l] whose reply, in [rs], made [update_state] fail. *)
Fixpoint failed (l : list loc) (rs : list (result health_json)) : list loc :=
  match l, rs with
  | s :: l', r :: rs' =>
      match reported r with
      | Some _ => failed l' rs'
      | None => s :: failed l' rs'
      end
  | _, _ => []
  end.

(** The identity of every object is the same in two states: polling and
    allocation write [available_capacity] and [ready_to_close] only. *)
Definition same_identity (st st' : state) : Prop :=
  forall x,
    task_arn (heap st' !!! x) = task_arn (heap st !!! x) /\
    status (heap st' !!! x) = status (heap st !!! x) /\
    ec2_id (heap st' !!! x) = ec2_id (heap st !!! x) /\
    address (heap st' !!! x) = address (heap st !!! x).

(** What polling the servers of [l] leaves alone: the manager object, the
    identity of every object, the servers outside [l]; no object disappears
    and no instance is requested. *)
Definition polled_frame (l : list loc) (st st' : state) : Prop :=
  self st' = self st /\
  same_identity st st' /\
  (forall x, x ∉ l -> heap st' !! x = heap st !! x) /\
  dom (heap st) ⊆ dom (heap st') /\
  launch_count st' = launch_count st.

(** The sum of a list of integers. *)
Definition sum_Z (l : list Z) : Z := foldr Z.add 0 l.

(** [hoare P m Q]: from a state in [P], [m] ends, with a result or an
    exception, in a state in [Q]. *)
Definition hoare {A} (P : state -> Prop) (m : Exc A) (Q : state -> Prop)
    : Prop :=
  forall st r st', P st -> m st = (r, st') -> Q st'.

(** No capacity in the store is negative. *)
Definition nonneg (st : state) : Prop := forall s, 0 <= capacity st s.

(** The health reporter reports no negative capacity. *)
Definition reports_nonneg {TaskDescription} (env : Env TaskDescription)
    : Prop :=
  forall url cs j c,
    requests_get_json env url cs = Ok j ->
    json_available_capacity j = Some c -> 0 <= c.

(** The two pools share no server, none occurs twice, and every server of a
    pool is an object of the store. *)
Definition pools_wf (st : state) : Prop :=
  NoDup (available_servers (self st) ++ standby_servers (self st)) /\
  forall s, s ∈ available_servers (self st) ++ standby_servers (self st) ->
            s ∈ dom (heap st).

(** The terminations the eviction loop requests, most recent first. *)
Fixpoint evict_calls (st : state) (l : list loc) : list call :=
  match l with
  | [] => []
  | s :: l' =>
      evict_calls st l'
      ++ (if closable st s then [TerminateEc2 (ec2_id (heap st !!! s))] else [])
  end.

(** What the last loop of [run] does to the pools for a server that failed
    its second poll: the server leaves the active pool if it is there,
    otherwise the standby pool if it is there. *)
Definition drop_server (s : loc) (st : state) : state :=
  match list_remove_first s (available_servers (self st)) with
  | Some l => set_available_servers l st
  | None =>
      match list_remove_first s (standby_servers (self st)) with
      | Some l => set_standby_servers l st
      | None => st
      end
  end.

(** What the last loop of [run] leaves alone when it goes through the list
    [u]: the objects outside [u] and their place in the pools; the pools only
    lose servers, the calls only grow, no identity changes. *)
Definition rechecked (u : list loc) (st st' : state) : Prop :=
  (forall x, x ∉ u -> heap st' !! x = heap st !! x) /\
  (forall x, x ∉ u ->
     (x ∈ available_servers (self st') <-> x ∈ available_servers (self st)) /\
     (x ∈ standby_servers (self st') <-> x ∈ standby_servers (self st))) /\
  available_servers (self st') `sublist_of` available_servers (self st) /\
  standby_servers (self st') `sublist_of` standby_servers (self st) /\
  (exists cs, calls st' = cs ++ calls st) /\
  same_identity st st'.

(** The pools after the scale decision, next to the pools before: the
    servers of the two pools are the same, [new] apart; one pool lost servers
    to the other, in order. *)
Definition moved (new : list loc) (st st' : state) : Prop :=
  available_servers (self st') ++ standby_servers (self st')
    ≡ₚ (available_servers (self st) ++ standby_servers (self st)) ++ new /\
  ((available_servers (self st') `sublist_of` available_servers (self st) /\
    standby_servers (self st) `sublist_of` standby_servers (self st')) \/
   (available_servers (self st) `sublist_of` available_servers (self st') /\
    standby_servers (self st') `sublist_of` standby_servers (self st))).

(** The settings the manager was started with. *)
Definition settings (st : state) : string * Z * Z * Z :=
  (task_family (self st), upscale_margin (self st),
   downscale_margin (self st), thread_sleep_time (self st)).

Section Stability.

Context {TaskDescription : Type} (env : Env TaskDescription).

(** The capacities the cycle writes: 0, or what a health reply carries. *)
Definition reportable (c : Z) : Prop :=
  c = 0 \/
  exists url cs j,
    requests_get_json env url cs = Ok j /\ json_available_capacity j = Some c.

(** A property of the state that the writes of the cycle keep, the request
    for a new instance and the allocation of its object apart: recording a
    call, storing a reported value, committing an aggregate, and moving or
    dropping servers of the pools. *)
Record stable (I : state -> Prop) : Prop := mkStable {
  stable_log : forall c st, c <> LaunchEcsInstance -> I st -> I (log c st);
  stable_ready : forall s b st, I st -> I (set_ready s b st);
  stable_capacity :
    forall s c st, reportable c -> I st -> I (set_capacity s c st);
  stable_total :
    forall c st, I st -> I (set_total_available_capacity c st);
  stable_pools :
    forall la ls st,
      la ++ ls ⊆+ available_servers (self st) ++ standby_servers (self st) ->
      I st -> I (set_available_servers la (set_standby_servers ls st))
}.

End Stability.

(** The calls recorded once a poll loop has gone through [l], starting after
    the calls [cs]. *)
Fixpoint poll_calls (st : state) (l : list loc) (cs : list call) : list call :=
  match l with
  | [] => cs
  | s :: l' => poll_calls st l' (RequestsGet (health_url st s) :: cs)
  end.

(** The calls [Server.__init__] makes. *)
Definition init_call (c : call) : Prop :=
  match c with
  | RunningTaskWaiter _ | GetTaskDescription _ | GetEc2Id | GetExposedPort
  | GetIp _ => True
  | _ => False
  end.

Section Reachable.

Context {TaskDescription : Type} (env : Env TaskDescription).

(** The states the program goes through, seen between two operations: the
    state [__init__] leaves, and from there any sequence of cycles of [run]
    and of calls to [get_available_server], however each of them ends. *)
Inductive reachable (family : string) (upscale downscale sleep_time : Z)
    : state -> Prop :=
| reachable_init :
    reachable family upscale downscale sleep_time
      (ServerManagerThread_init env family upscale downscale sleep_time)
| reachable_cycle st r st' :
    reachable family upscale downscale sleep_time st ->
    cycle env st = (r, st') ->
    reachable family upscale downscale sleep_time st'
| reachable_allocation st r st' :
    reachable family upscale downscale sleep_time st ->
    get_available_server st = (r, st') ->
    reachable family upscale downscale sleep_time st'.

End Reachable.

(** ** Scenarios *)

Module Scenario.

(** A server named [name], reachable at [name:80]. *)
Definition server (name : string) (c : Z) (b : bool) : Server :=
  mkServer ("arn:" +:+ name) "RUNNING" ("i-" +:+ name) (name +:+ ":80") c b.

Definition url (name : string) : string := "http://" +:+ name +:+ ":80/health/".

(** An environment in which the health reporter answers from a table, by
    address, and is unreachable otherwise; the cloud accepts every request
    when [cloud_up] and refuses every one when not. *)
Definition cloud {A} (cloud_up : bool) (a : A) : list call -> result A :=
  fun _ => if cloud_up then Ok a else Raise "ClientError".

(** A clock that sleeps any length from 0 to 9223372036 seconds (what fits
    64 bits of nanoseconds), raises [ValueError] on a negative length and
    [OverflowError] beyond. *)
Definition clock (seconds : Z) : list call -> result unit :=
  fun _ =>
    if (seconds <? -9223372036) || (9223372036 <? seconds)
    then Raise "OverflowError"
    else if seconds <? 0 then Raise "ValueError"
    else Ok tt.

Definition environment (table : list (string * health_json))
    (cloud_up : bool) : Env unit :=
  mkEnv unit
    (fun u _ =>
       match (list_to_map table : gmap string health_json) !! u with
       | Some j => Ok j
       | None => Raise "ConnectionError"
       end)
    (cloud cloud_up tt)
    (fun _ => cloud cloud_up "arn:new")
    (fun _ => cloud cloud_up tt)
    (fun _ => cloud cloud_up tt)
    (fun _ => cloud cloud_up "i-new")
    (fun _ => cloud cloud_up "80")
    (fun _ => cloud cloud_up "new")
    (fun _ => cloud cloud_up tt)
    (fun _ => cloud cloud_up [])
    clock.

Definition report (b : bool) (c : Z) : health_json := mkHealth (Some b) (Some c).

(** Servers [a] and [b] report 8 and 9. *)
Definition env_8_9 : Env unit :=
  environment [(url "a", report false 8); (url "b", report false 9)] true.

(** Server [a] reports 1. *)
Definition env_1 : Env unit := environment [(url "a", report false 1)] true.

(** Nothing answers. *)
Definition env_down : Env unit := environment [] false.

Definition manager (active standby : list loc) (total : Z)
    : ServerManagerThread :=
  mkManager "gameserver" active standby total 2 10 5.

(** Two active servers, not polled yet. *)
Definition two_idle : state :=
  mkState (<[0%nat := server "a" 0 false]> (<[1%nat := server "b" 0 false]> ∅))
          (manager [0%nat; 1%nat] [] 0) [].

(** Two active servers of capacities 8 and 9, aggregate 17. *)
Definition two_polled : state :=
  mkState (<[0%nat := server "a" 8 false]> (<[1%nat := server "b" 9 false]> ∅))
          (manager [0%nat; 1%nat] [] 17) [].

(** One active server of capacity 1 and one standby server of capacity 3. *)
Definition low_with_standby : state :=
  mkState (<[0%nat := server "a" 1 false]> (<[1%nat := server "b" 3 false]> ∅))
          (manager [0%nat] [1%nat] 1) [].

(** One active server of capacity 1, nothing in standby. *)
Definition low_alone : state :=
  mkState (<[0%nat := server "a" 1 false]> ∅) (manager [0%nat] [] 1) [].

(** One active server and one standby server, both idle. *)
Definition one_each : state :=
  mkState (<[0%nat := server "a" 0 false]> (<[1%nat := server "b" 0 false]> ∅))
          (manager [0%nat] [1%nat] 0) [].

(** One active server with no capacity left. *)
Definition exhausted : state :=
  mkState (<[0%nat := server "a" 0 false]> ∅) (manager [0%nat] [] 0) [].

(** No server at all. *)
Definition empty_pool : state := mkState ∅ (manager [] [] 0) [].

End Scenario.

Module Cases.

Import Scenario.

(** Server [a] answers with [ready_to_close] only; server [b] answers in
    full, ready to close. *)
Definition env_partial : Env unit :=
  environment [(url "a", mkHealth (Some true) None);
               (url "b", report true 3)] true.

(** Server [a] answers in full; the cloud refuses every request. *)
Definition env_cloud_down : Env unit :=
  environment [(url "a", report false 1)] false.

(** The cloud lists two running tasks. *)
Definition env_two_tasks : Env unit :=
  mkEnv unit
    (fun _ _ => Raise "ConnectionError")
    (cloud true tt)
    (fun _ => cloud true "arn:new")
    (fun _ => cloud true tt)
    (fun _ => cloud true tt)
    (fun _ => cloud true "i-new")
    (fun _ => cloud true "80")
    (fun _ => cloud true "new")
    (fun _ => cloud true tt)
    (fun _ => cloud true ["arn:1"; "arn:2"])
    clock.

(** The cloud lists two running tasks; the second never gets running. *)
Definition env_second_fails : Env unit :=
  mkEnv unit
    (fun _ _ => Raise "ConnectionError")
    (cloud true tt)
    (fun _ => cloud true "arn:new")
    (fun arn _ => if decide (arn = "arn:2") then Raise "WaiterError" else Ok tt)
    (fun _ => cloud true tt)
    (fun _ => cloud true "i-new")
    (fun _ => cloud true "80")
    (fun _ => cloud true "new")
    (fun _ => cloud true tt)
    (fun _ => cloud true ["arn:1"; "arn:2"])
    clock.

(** Two active servers that both hold 5. *)
Definition two_equal : state :=
  mkState (<[0%nat := server "a" 5 false]> (<[1%nat := server "b" 5 false]> ∅))
          (manager [0%nat; 1%nat] [] 10) [].

(** One active server and two standby servers, the first of them ready to
    close. *)
Definition with_ready_standby : state :=
  mkState (<[0%nat := server "a" 4 false]>
             (<[1%nat := server "b" 3 true]>
                (<[2%nat := server "c" 2 false]> ∅)))
          (manager [0%nat] [1%nat; 2%nat] 4) [].

(** One active server, with a negative sleep time. *)
Definition negative_sleep : state :=
  mkState (<[0%nat := server "a" 0 false]> ∅)
          (mkManager "gameserver" [0%nat] [] 0 2 10 (-1)) [].

(** One active server, with a sleep time the clock cannot hold. *)
Definition long_sleep : state :=
  mkState (<[0%nat := server "a" 0 false]> ∅)
          (mkManager "gameserver" [0%nat] [] 0 2 10 10000000000) [].

(** A server that is in no pool. *)
Definition stray : state :=
  mkState (<[0%nat := server "a" 1 false]> (<[7%nat := server "z" 0 false]> ∅))
          (manager [0%nat] [] 1) [].

End Cases.

(** ** Properties *)

(** *** The store *)

Lemma heap_set_capacity s c st r :
  heap (set_capacity s c st) !!! r =
  if decide (s = r) then with_available_capacity c (heap st !!! s)
  else heap st !!! r.
Proof. unfold set_capacity, set_heap; cbn. apply lookup_total_insert. Qed.

Lemma heap_set_ready s b st r :
  heap (set_ready s b st) !!! r =
  if decide (s = r) then with_ready_to_close b (heap st !!! s)
  else heap st !!! r.
Proof. unfold set_ready, set_heap; cbn. apply lookup_total_insert. Qed.

Lemma capacity_set_capacity s c st r :
  capacity (set_capacity s c st) r = if decide (s = r) then c else capacity st r.
Proof.
  unfold capacity. rewrite heap_set_capacity.
  destruct (decide (s = r)); reflexivity.
Qed.

Lemma capacity_set_ready s b st r :
  capacity (set_ready s b st) r = capacity st r.
Proof.
  unfold capacity. rewrite heap_set_ready.
  destruct (decide (s = r)) as [->|]; reflexivity.
Qed.

Lemma closable_set_capacity s c st r :
  closable (set_capacity s c st) r = closable st r.
Proof.
  unfold closable. rewrite heap_set_capacity.
  destruct (decide (s = r)) as [->|]; reflexivity.
Qed.

Lemma closable_set_ready s b st r :
  closable (set_ready s b st) r = if decide (s = r) then b else closable st r.
Proof.
  unfold closable. rewrite heap_set_ready.
  destruct (decide (s = r)); reflexivity.
Qed.

Lemma capacity_log c st r : capacity (log c st) r = capacity st r.
Proof. reflexivity. Qed.

Lemma closable_log c st r : closable (log c st) r = closable st r.
Proof. reflexivity. Qed.

(** *** The scan for the maximum *)

Lemma scan_seq (cap : nat -> Z) (n a m : nat) :
  (m < a)%nat ->
  (forall j, (j < a)%nat -> cap j <= cap m) ->
  (forall j, (j < m)%nat -> cap j < cap m) ->
  let r := foldl (scan_step cap) m (seq a n) in
  (r < a + n)%nat /\
  (forall j, (j < a + n)%nat -> cap j <= cap r) /\
  (forall j, (j < r)%nat -> cap j < cap r).
Proof.
  revert a m. induction n as [|n IH]; intros a m Hm Hle Hlt; cbn.
  - rewrite Nat.add_0_r. auto.
  - assert (Hstep : scan_step cap m a = a /\ cap m < cap a \/
                    scan_step cap m a = m /\ cap a <= cap m).
    { unfold scan_step. destruct (Z.ltb_spec (cap m) (cap a)); auto. }
    destruct Hstep as [[-> Hlt']|[-> Hge]].
    + destruct (IH (S a) a) as (H1 & H2 & H3).
      * lia.
      * intros j Hj. destruct (decide (j = a)) as [->|]; [lia|].
        specialize (Hle j). lia.
      * intros j Hj. specialize (Hle j). lia.
      * split; [lia|]. split; [|exact H3].
        intros j Hj. apply H2. lia.
    + destruct (IH (S a) m) as (H1 & H2 & H3).
      * lia.
      * intros j Hj. destruct (decide (j = a)) as [->|]; [lia|].
        apply Hle. lia.
      * exact Hlt.
      * split; [lia|]. split; [|exact H3].
        intros j Hj. apply H2. lia.
Qed.

Lemma get_available_server_index_eq st :
  get_available_server_index st =
  foldl (scan_step (fun i => capacity st (available_servers (self st) !!! i)))
        0%nat (seq 1 (length (available_servers (self st)) - 1)).
Proof. reflexivity. Qed.

(** The index the scan returns is in range, holds a greatest capacity, and
    every index before it holds a strictly smaller one. *)
Lemma get_available_server_index_spec st :
  available_servers (self st) <> [] ->
  exists s,
    available_servers (self st) !! get_available_server_index st = Some s /\
    (forall j s', available_servers (self st) !! j = Some s' ->
                  capacity st s' <= capacity st s) /\
    (forall j s', (j < get_available_server_index st)%nat ->
                  available_servers (self st) !! j = Some s' ->
                  capacity st s' < capacity st s).
Proof.
  intros Hne. rewrite get_available_server_index_eq.
  set (l := available_servers (self st)) in *.
  set (cap := fun i : nat => capacity st (l !!! i)).
  assert (Hlen : (0 < length l)%nat) by (destruct l; [congruence | cbn; lia]).
  destruct (scan_seq cap (length l - 1) 1 0) as (H1 & H2 & H3).
  - lia.
  - intros j Hj. assert (j = 0%nat) as -> by lia. lia.
  - intros j Hj. lia.
  - set (i := foldl (scan_step cap) 0%nat (seq 1 (length l - 1))) in *.
    assert (Hi : (i < length l)%nat) by lia.
    destruct (lookup_lt_is_Some_2 l i Hi) as [s Hs].
    exists s. split; [exact Hs|].
    assert (Hcap : cap i = capacity st s).
    { unfold cap. by rewrite (list_lookup_total_correct l i s Hs). }
    split.
    + intros j s' Hj. rewrite <- Hcap.
      assert (Hj' : cap j = capacity st s').
      { unfold cap. by rewrite (list_lookup_total_correct l j s' Hj). }
      rewrite <- Hj'. apply H2. apply lookup_lt_Some in Hj. lia.
    + intros j s' Hji Hj. rewrite <- Hcap.
      assert (Hj' : cap j = capacity st s').
      { unfold cap. by rewrite (list_lookup_total_correct l j s' Hj). }
      rewrite <- Hj'. by apply H3.
Qed.

(** *** Allocation: [get_available_server] *)

Lemma get_available_server_nonempty st s :
  available_servers (self st) !! get_available_server_index st = Some s ->
  get_available_server st = (Ok s, set_capacity s (capacity st s - 1) st).
Proof.
  intros Hs. unfold get_available_server, bind, get_state, getitem, modify.
  rewrite Hs. cbn. rewrite Hs. reflexivity.
Qed.

Lemma get_available_server_empty st :
  available_servers (self st) = [] ->
  get_available_server st = (Raise "IndexError", st).
Proof.
  intros Hnil. unfold get_available_server, bind, get_state, getitem.
  rewrite Hnil. reflexivity.
Qed.

(** C3. On a non-empty active pool [get_available_server] returns the server
    at the index the linear scan selects: it holds a greatest
    [available_capacity] of the pool, every server before it holds a strictly
    smaller one (the first maximum wins), and its [available_capacity] is
    one less afterwards.  If some server of the pool has a positive capacity,
    the capacity of the returned server was positive before the decrement. *)
Theorem get_available_server_first_maximum st :
  available_servers (self st) <> [] ->
  exists s,
    available_servers (self st) !! get_available_server_index st = Some s /\
    (forall j s', available_servers (self st) !! j = Some s' ->
                  capacity st s' <= capacity st s) /\
    (forall j s', (j < get_available_server_index st)%nat ->
                  available_servers (self st) !! j = Some s' ->
                  capacity st s' < capacity st s) /\
    get_available_server st = (Ok s, set_capacity s (capacity st s - 1) st) /\
    capacity (snd (get_available_server st)) s = capacity st s - 1 /\
    ((exists s', s' ∈ available_servers (self st) /\ 0 < capacity st s') ->
     0 < capacity st s).
Proof.
  intros Hne.
  destruct (get_available_server_index_spec st Hne) as (s & Hs & Hmax & Hfirst).
  exists s. split; [exact Hs|]. split; [exact Hmax|]. split; [exact Hfirst|].
  rewrite (get_available_server_nonempty st s Hs). split; [reflexivity|].
  split.
  - cbn. rewrite capacity_set_capacity. destruct (decide (s = s)); congruence.
  - intros (s' & Hin & Hpos).
    apply list_elem_of_lookup in Hin as [j Hj].
    specialize (Hmax j s' Hj). lia.
Qed.

(** C7 (as the code has it). On an empty active pool [get_available_server]
    raises Python's [IndexError], from the subscript
    [self.available_servers[0]]; it returns no server and changes nothing. *)
Theorem get_available_server_empty_pool st :
  available_servers (self st) = [] ->
  get_available_server st = (Raise "IndexError", st).
Proof. apply get_available_server_empty. Qed.

(** C10. On a non-empty active pool [get_available_server] changes the
    [available_capacity] of the selected server, by -1, and nothing else: the
    manager object (both pools with their order, the aggregate and the
    settings), every other object of the store, the other attributes of the
    selected server and the recorded calls are as before. *)
Theorem get_available_server_frame st :
  available_servers (self st) <> [] ->
  exists s st',
    get_available_server st = (Ok s, st') /\
    available_servers (self st) !! get_available_server_index st = Some s /\
    available_servers (self st') = available_servers (self st) /\
    standby_servers (self st') = standby_servers (self st) /\
    total_available_capacity (self st') = total_available_capacity (self st) /\
    self st' = self st /\
    calls st' = calls st /\
    (forall r, r <> s -> heap st' !! r = heap st !! r) /\
    available_capacity (heap st' !!! s) = available_capacity (heap st !!! s) - 1 /\
    task_arn (heap st' !!! s) = task_arn (heap st !!! s) /\
    address (heap st' !!! s) = address (heap st !!! s) /\
    status (heap st' !!! s) = status (heap st !!! s) /\
    ec2_id (heap st' !!! s) = ec2_id (heap st !!! s) /\
    ready_to_close (heap st' !!! s) = ready_to_close (heap st !!! s).
Proof.
  intros Hne.
  destruct (get_available_server_index_spec st Hne) as (s & Hs & _).
  exists s, (set_capacity s (capacity st s - 1) st).
  split; [by apply get_available_server_nonempty|].
  split; [exact Hs|].
  repeat (split; [reflexivity|]).
  split.
  { intros r Hr. cbn. by rewrite lookup_insert_ne. }
  rewrite heap_set_capacity. destruct (decide (s = s)); [|congruence].
  repeat split.
Qed.

(** *** Identity of the objects *)

Lemma same_identity_refl st : same_identity st st.
Proof. intros x. auto. Qed.

Lemma same_identity_heap st st' : heap st' = heap st -> same_identity st st'.
Proof. intros Hh x. by rewrite Hh. Qed.

Lemma same_identity_trans st1 st2 st3 :
  same_identity st1 st2 -> same_identity st2 st3 -> same_identity st1 st3.
Proof.
  intros H12 H23 x. destruct (H12 x) as (?&?&?&?), (H23 x) as (?&?&?&?).
  repeat split; congruence.
Qed.

Lemma same_identity_health_url st st' x :
  same_identity st st' -> health_url st' x = health_url st x.
Proof. intros H. unfold health_url. destruct (H x) as (_&_&_&->). done. Qed.

Lemma same_identity_set_capacity s c st :
  same_identity st (set_capacity s c st).
Proof.
  intros x. rewrite heap_set_capacity.
  destruct (decide (s = x)) as [->|]; cbn; done.
Qed.

Lemma same_identity_set_ready s b st : same_identity st (set_ready s b st).
Proof.
  intros x. rewrite heap_set_ready.
  destruct (decide (s = x)) as [->|]; cbn; done.
Qed.

Lemma same_identity_log c st : same_identity st (log c st).
Proof. intros x. done. Qed.

Lemma dom_set_capacity s c st : dom (heap st) ⊆ dom (heap (set_capacity s c st)).
Proof. cbn. rewrite dom_insert. set_solver. Qed.

Lemma dom_set_ready s b st : dom (heap st) ⊆ dom (heap (set_ready s b st)).
Proof. cbn. rewrite dom_insert. set_solver. Qed.

Lemma lookup_set_capacity_ne s c st x :
  x <> s -> heap (set_capacity s c st) !! x = heap st !! x.
Proof. intros Hx. cbn. by apply lookup_insert_ne. Qed.

Lemma lookup_set_ready_ne s b st x :
  x <> s -> heap (set_ready s b st) !! x = heap st !! x.
Proof. intros Hx. cbn. by apply lookup_insert_ne. Qed.

(** *** Health polling: [update_state] *)

Section Polling.

Context {TaskDescription : Type} (env : Env TaskDescription).

Lemma update_state_spec s st :
  update_state env s st =
  let st1 := log (RequestsGet (health_url st s)) st in
  match health_reply env st s with
  | Ok j =>
      match json_ready_to_close j with
      | Some b =>
          match json_available_capacity j with
          | Some c => (Ok true, set_capacity s c (set_ready s b st1))
          | None => (Ok false, set_ready s b st1)
          end
      | None => (Ok false, st1)
      end
  | Raise _ => (Ok false, st1)
  end.
Proof.
  unfold update_state, health_reply, bind, try_except, get_state, extern,
    getkey, modify, ret, raise.
  destruct (requests_get_json env (health_url st s) (calls st))
    as [[[b|] [c|]]|e]; reflexivity.
Qed.

(** [update_state] never raises. *)
Lemma update_state_total s st :
  exists ok st', update_state env s st = (Ok ok, st').
Proof.
  rewrite update_state_spec.
  destruct (health_reply env st s) as [[[b|] [c|]]|e]; cbn; eauto.
Qed.

(** It returns [True] exactly when the reply has both keys, and then the
    server holds what the reply reports. *)
Lemma update_state_true s st st' :
  update_state env s st = (Ok true, st') ->
  exists b c,
    reported (health_reply env st s) = Some (b, c) /\
    st' = set_capacity s c
            (set_ready s b (log (RequestsGet (health_url st s)) st)) /\
    capacity st' s = c /\ closable st' s = b.
Proof.
  rewrite update_state_spec. unfold reported.
  destruct (health_reply env st s) as [[[b|] [c|]]|e]; cbn; intros H;
    inversion H; subst.
  exists b, c. split; [reflexivity|]. split; [reflexivity|].
  rewrite capacity_set_capacity, closable_set_capacity, closable_set_ready.
  destruct (decide (s = s)); [auto | congruence].
Qed.

(** When it returns [False] the reply lacks a key or the request raised; the
    capacity of every server is as before. *)
Lemma update_state_false s st st' :
  update_state env s st = (Ok false, st') ->
  reported (health_reply env st s) = None /\
  forall r, capacity st' r = capacity st r.
Proof.
  rewrite update_state_spec. unfold reported.
  destruct (health_reply env st s) as [[[b|] [c|]]|e]; cbn; intros H;
    inversion H; subst; split; try reflexivity.
  intros r. by rewrite capacity_set_ready.
Qed.

Lemma update_state_reported s st :
  fst (update_state env s st) =
  Ok (bool_decide (is_Some (reported (health_reply env st s)))).
Proof.
  rewrite update_state_spec. unfold reported.
  destruct (health_reply env st s) as [[[b|] [c|]]|e]; reflexivity.
Qed.

(** What [update_state] leaves alone: the manager object, every other
    server, and the identity of the polled one; it records one request. *)
Lemma update_state_frame s st r st' :
  update_state env s st = (r, st') ->
  self st' = self st /\
  calls st' = RequestsGet (health_url st s) :: calls st /\
  (forall x, x <> s -> heap st' !! x = heap st !! x) /\
  same_identity st st' /\
  dom (heap st) ⊆ dom (heap st').
Proof.
  rewrite update_state_spec. cbv zeta.
  set (st1 := log (RequestsGet (health_url st s)) st).
  assert (H1 : same_identity st st1) by apply same_identity_log.
  destruct (health_reply env st s) as [[[b|] [c|]]|e]; intros H;
    inversion H; subst r st'; clear H.
  - split; [done|]. split; [done|]. split.
    { intros x Hx. by rewrite lookup_set_capacity_ne, lookup_set_ready_ne. }
    split.
    { eapply same_identity_trans; [exact H1|].
      eapply same_identity_trans;
        [apply same_identity_set_ready | apply same_identity_set_capacity]. }
    change (dom (heap st)) with (dom (heap st1)).
    etrans; [|apply dom_set_capacity]. apply dom_set_ready.
  - split; [done|]. split; [done|]. split.
    { intros x Hx. by rewrite lookup_set_ready_ne. }
    split.
    { eapply same_identity_trans; [exact H1|]. apply same_identity_set_ready. }
    change (dom (heap st)) with (dom (heap st1)). apply dom_set_ready.
  - done.
  - done.
  - done.
Qed.

End Polling.

(** *** The poll loops *)

Lemma polled_frame_refl l st : polled_frame l st st.
Proof.
  split; [done|]. split; [apply same_identity_refl|]. repeat split; done.
Qed.

Lemma polled_frame_trans l1 l2 st1 st2 st3 :
  polled_frame l1 st1 st2 -> polled_frame l2 st2 st3 ->
  polled_frame (l1 ++ l2) st1 st3.
Proof.
  intros (Hs1 & Hi1 & Hh1 & Hd1 & Hc1) (Hs2 & Hi2 & Hh2 & Hd2 & Hc2).
  split; [congruence|]. split; [by eapply same_identity_trans|].
  split; [|split; [set_solver | congruence]].
  intros x Hx. rewrite Hh2, Hh1; [done| |]; set_solver.
Qed.

Lemma polled_frame_weaken l l' st st' :
  l ⊆ l' -> polled_frame l st st' -> polled_frame l' st st'.
Proof.
  intros Hsub (Hs & Hi & Hh & Hd & Hc).
  repeat (split; [done|]). split; [|done].
  intros x Hx. apply Hh. set_solver.
Qed.

Lemma launch_count_log c st :
  c <> LaunchEcsInstance -> launch_count (log c st) = launch_count st.
Proof.
  intros Hc. unfold launch_count, log; cbn [calls].
  by rewrite filter_cons_False.
Qed.

Lemma polled_frame_set_capacity s c st :
  polled_frame [s] st (set_capacity s c st).
Proof.
  split; [done|]. split; [apply same_identity_set_capacity|].
  split.
  { intros x Hx. apply lookup_set_capacity_ne. set_solver. }
  split; [apply dom_set_capacity | done].
Qed.

Section PollLoops.

Context {TaskDescription : Type} (env : Env TaskDescription).

Lemma update_state_polled_frame s st r st' :
  update_state env s st = (r, st') -> polled_frame [s] st st'.
Proof.
  intros H.
  destruct (update_state_frame env s st r st' H) as (Hs & Hc & Hh & Hi & Hd).
  split; [done|]. split; [done|].
  split; [intros x Hx; apply Hh; set_solver|]. split; [done|].
  unfold launch_count. rewrite Hc. by rewrite filter_cons_False.
Qed.

(** One turn of the loop over [self.available_servers]. *)
Lemma poll_available_cons s l acc u st :
  poll_available env (s :: l) acc u st =
  let st1 := snd (update_state env s st) in
  match reported (health_reply env st s) with
  | Some (_, c) => poll_available env l (acc + c) u st1
  | None => poll_available env l (acc + 0) (u ++ [s]) (set_capacity s 0 st1)
  end.
Proof.
  cbn [poll_available]. unfold bind at 1.
  destruct (update_state_total env s st) as (ok & st1 & E). rewrite E. cbn.
  destruct ok.
  - destruct (update_state_true env s st st1 E) as (b & c & -> & _ & Hc & _).
    unfold bind, ret, get_state; cbn. by rewrite Hc.
  - destruct (update_state_false env s st st1 E) as (-> & _).
    unfold bind, ret, get_state, modify; cbn.
    rewrite capacity_set_capacity. by destruct (decide (s = s)).
Qed.

(** The loop over [self.available_servers] never raises; it adds to the
    running total what each reply contributes and to the unresponsive list
    the servers whose [update_state] failed, in order. *)
Lemma poll_available_spec l st0 acc u st :
  same_identity st0 st ->
  exists st',
    poll_available env l acc u st =
      (Ok (acc + sum_Z (contribution <$> replies env st0 l (calls st)),
           u ++ failed l (replies env st0 l (calls st))), st') /\
    polled_frame l st st' /\
    (NoDup l ->
     forall i s rep,
       l !! i = Some s -> replies env st0 l (calls st) !! i = Some rep ->
       capacity st' s = contribution rep).
Proof.
  revert acc u st. induction l as [|s l IH]; intros acc u st Hid.
  - exists st. cbn. rewrite Z.add_0_r, app_nil_r.
    split; [done|]. split; [apply polled_frame_refl|].
    intros _ i s rep Hi. by rewrite lookup_nil in Hi.
  - rewrite poll_available_cons. cbn zeta.
    destruct (update_state env s st) as [r st1] eqn:E. cbn [snd].
    pose proof (update_state_polled_frame s st r st1 E) as Hf1.
    pose proof (update_state_frame env s st r st1 E) as (_ & Hcalls & _).
    assert (Hurl : health_url st0 s = health_url st s).
    { symmetry. by apply same_identity_health_url. }
    cbn [replies fmap list_fmap failed sum_Z foldr]. rewrite Hurl.
    fold (health_reply env st s).
    unfold contribution at 1.
    destruct (reported (health_reply env st s)) as [[b c]|] eqn:Hrep.
    + destruct (IH (acc + c) u st1) as (st' & Hrun & Hf & Hcap).
      { eapply same_identity_trans; [exact Hid | apply Hf1]. }
      exists st'. rewrite Hrun, Hcalls. split.
      { do 3 f_equal. unfold sum_Z. lia. }
      split.
      { change (s :: l) with ([s] ++ l). by eapply polled_frame_trans. }
      intros Hnd i s' rep Hi Hr. apply NoDup_cons in Hnd as [Hnotin Hnd].
      destruct i as [|i]; cbn in Hi, Hr.
      * inversion Hi; inversion Hr; subst.
        destruct Hf as (_ & _ & Hh & _).
        unfold capacity. rewrite (lookup_total_alt (heap st')), (Hh s' Hnotin).
        rewrite <- lookup_total_alt.
        destruct r as [[]|]; [| |].
        -- destruct (update_state_true env s' st st1 E) as (b' & c' & Hr' & _ & Hc & _).
           unfold contribution. rewrite Hrep. rewrite Hrep in Hr'.
           unfold capacity in Hc. congruence.
        -- destruct (update_state_false env s' st st1 E) as (Hr' & _). congruence.
        -- destruct (update_state_total env s' st) as (? & ? & E'). congruence.
      * rewrite <- Hcalls in Hr. eapply Hcap; eauto.
    + pose proof (polled_frame_set_capacity s 0 st1) as Hf2.
      destruct (IH (acc + 0) (u ++ [s]) (set_capacity s 0 st1))
        as (st' & Hrun & Hf & Hcap).
      { eapply same_identity_trans; [exact Hid|].
        eapply same_identity_trans; [apply Hf1 | apply Hf2]. }
      exists st'. rewrite Hrun. cbn [calls set_capacity set_heap].
      rewrite Hcalls. split.
      { rewrite <- app_assoc. do 3 f_equal. unfold sum_Z. lia. }
      split.
      { change (s :: l) with ([s] ++ l).
        eapply polled_frame_trans; [|exact Hf].
        eapply polled_frame_weaken; [|eapply polled_frame_trans; eauto].
        intros x. rewrite elem_of_app. tauto. }
      intros Hnd i s' rep Hi Hr. apply NoDup_cons in Hnd as [Hnotin Hnd].
      destruct i as [|i]; cbn in Hi, Hr.
      * inversion Hi; inversion Hr; subst.
        destruct Hf as (_ & _ & Hh & _).
        unfold capacity. rewrite (lookup_total_alt (heap st')), (Hh s' Hnotin).
        rewrite <- lookup_total_alt.
        fold (capacity (set_capacity s' 0 st1) s').
        rewrite capacity_set_capacity.
        unfold contribution. rewrite Hrep. by destruct (decide (s' = s')).
      * eapply Hcap; eauto. cbn [calls set_capacity set_heap]. by rewrite Hcalls.
Qed.

End PollLoops.

(** *** The aggregate after the poll phase *)

Lemma replies_length {TaskDescription} (env : Env TaskDescription) st l cs :
  length (replies env st l cs) = length l.
Proof. revert cs. induction l as [|s l IH]; intros cs; cbn; auto. Qed.

Lemma total_capacity_cons st s l :
  total_capacity st (s :: l) = capacity st s + total_capacity st l.
Proof. reflexivity. Qed.

Lemma sum_contribution_total_capacity st (l : list loc)
    (rs : list (result health_json)) :
  length rs = length l ->
  (forall i s rep, l !! i = Some s -> rs !! i = Some rep ->
                   capacity st s = contribution rep) ->
  sum_Z (contribution <$> rs) = total_capacity st l.
Proof.
  revert rs. induction l as [|s l IH]; intros [|rep rs] Hlen H;
    cbn in Hlen; try discriminate; [reflexivity|].
  rewrite total_capacity_cons, (H 0%nat s rep) by reflexivity.
  cbn. f_equal. apply IH; [lia|].
  intros i s' rep' Hi Hr. by apply (H (S i)).
Qed.

Lemma elem_of_failed (l : list loc) (rs : list (result health_json)) s :
  s ∈ failed l rs ->
  exists i rep, l !! i = Some s /\ rs !! i = Some rep /\ reported rep = None.
Proof.
  revert rs. induction l as [|x l IH]; intros [|rep rs] Hin; cbn in Hin;
    try (by apply elem_of_nil in Hin).
  destruct (reported rep) as [p|] eqn:Hrep.
  - destruct (IH rs Hin) as (i & rep' & ? & ? & ?). by exists (S i), rep'.
  - apply elem_of_cons in Hin as [->|Hin].
    + by exists 0%nat, rep.
    + destruct (IH rs Hin) as (i & rep' & ? & ? & ?). by exists (S i), rep'.
Qed.

Lemma failed_elem_of (l : list loc) (rs : list (result health_json)) i s rep :
  l !! i = Some s -> rs !! i = Some rep -> reported rep = None ->
  s ∈ failed l rs.
Proof.
  revert rs i. induction l as [|x l IH]; intros [|r rs] [|i] Hl Hr Hrep;
    cbn in Hl, Hr; try discriminate.
  - inversion Hl; inversion Hr; subst. cbn. rewrite Hrep. apply list_elem_of_here.
  - cbn. destruct (reported r); [|apply list_elem_of_further]; by eapply IH.
Qed.

Lemma total_capacity_filter st (P : loc -> Prop) `{forall x, Decision (P x)}
    (l : list loc) :
  (forall s, s ∈ l -> ~ P s -> capacity st s = 0) ->
  total_capacity st (filter P l) = total_capacity st l.
Proof.
  induction l as [|s l IH]; intros Hz; [reflexivity|].
  assert (IH' : total_capacity st (filter P l) = total_capacity st l).
  { apply IH. intros x Hx. apply Hz. by apply list_elem_of_further. }
  destruct (decide (P s)) as [Hp|Hp].
  - rewrite filter_cons_True by done. rewrite !total_capacity_cons.
    by rewrite IH'.
  - rewrite filter_cons_False by done. rewrite total_capacity_cons.
    rewrite (Hz s) by (done || apply list_elem_of_here). by rewrite IH'.
Qed.

Lemma contribution_failed rep : reported rep = None -> contribution rep = 0.
Proof. unfold contribution. by intros ->. Qed.

Section Aggregate.

Context {TaskDescription : Type} (env : Env TaskDescription).

Lemma poll_and_commit_spec st :
  exists st1,
    poll_available env (available_servers (self st)) 0 [] st =
      (Ok (sum_Z (contribution <$>
                    replies env st (available_servers (self st)) (calls st)),
           failed (available_servers (self st))
                  (replies env st (available_servers (self st)) (calls st))),
       st1) /\
    polled_frame (available_servers (self st)) st st1 /\
    (NoDup (available_servers (self st)) ->
     forall i s rep,
       available_servers (self st) !! i = Some s ->
       replies env st (available_servers (self st)) (calls st) !! i = Some rep ->
       capacity st1 s = contribution rep) /\
    poll_and_commit env st =
      (Ok (failed (available_servers (self st))
                  (replies env st (available_servers (self st)) (calls st))),
       set_total_available_capacity
         (sum_Z (contribution <$>
                   replies env st (available_servers (self st)) (calls st)))
         st1).
Proof.
  destruct (poll_available_spec env (available_servers (self st)) st 0 [] st
              (same_identity_refl st)) as (st1 & Hrun & Hf & Hcap).
  rewrite Z.add_0_l, app_nil_l in Hrun.
  exists st1. split; [exact Hrun|]. split; [exact Hf|]. split; [exact Hcap|].
  unfold poll_and_commit, bind, get_state. rewrite Hrun. reflexivity.
Qed.

(** C1. The poll phase never raises and leaves both pools as they are.  The
    aggregate it commits is the sum, over the active pool, of what each
    server's reply contributes: the reported capacity when [update_state]
    succeeded, 0 when it failed.  With the active pool free of repetitions
    this is the sum of [available_capacity] over the active servers that are
    not in the unresponsive list, every server of that list holding 0; so it
    is the sum over the whole active pool as well. *)
Theorem poll_and_commit_aggregate st :
  let l := available_servers (self st) in
  let rs := replies env st l (calls st) in
  exists st',
    poll_and_commit env st = (Ok (failed l rs), st') /\
    available_servers (self st') = l /\
    standby_servers (self st') = standby_servers (self st) /\
    total_available_capacity (self st') = sum_Z (contribution <$> rs) /\
    (NoDup l ->
     (forall i s rep, l !! i = Some s -> rs !! i = Some rep ->
                      capacity st' s = contribution rep /\
                      (s ∈ failed l rs <-> reported rep = None)) /\
     (forall s, s ∈ failed l rs -> capacity st' s = 0) /\
     total_available_capacity (self st') =
       total_capacity st' (filter (fun s => s ∉ failed l rs) l) /\
     total_available_capacity (self st') = total_capacity st' l).
Proof.
  intros l rs.
  destruct (poll_and_commit_spec st) as (st1 & _ & Hf & Hcap & Hrun).
  fold l in Hf, Hcap, Hrun. fold rs in Hcap, Hrun.
  destruct Hf as (Hself & _).
  eexists. split; [exact Hrun|].
  cbn [self set_total_available_capacity set_self available_servers
       standby_servers total_available_capacity].
  rewrite Hself. fold l.
  split; [reflexivity|]. split; [reflexivity|]. split; [reflexivity|].
  intros Hnd. specialize (Hcap Hnd).
  set (st' := set_total_available_capacity (sum_Z (contribution <$> rs)) st1).
  assert (Hcap' : forall i s rep, l !! i = Some s -> rs !! i = Some rep ->
                                  capacity st' s = contribution rep).
  { intros i s rep Hi Hr. exact (Hcap i s rep Hi Hr). }
  assert (Hzero : forall s, s ∈ failed l rs -> capacity st' s = 0).
  { intros s Hs. destruct (elem_of_failed l rs s Hs) as (i & rep & Hi & Hr & Hrep).
    rewrite (Hcap' i s rep Hi Hr). by apply contribution_failed. }
  assert (Hsum : sum_Z (contribution <$> rs) = total_capacity st' l).
  { apply sum_contribution_total_capacity; [apply replies_length | exact Hcap']. }
  split; [|split; [exact Hzero|split; [|exact Hsum]]].
  - intros i s rep Hi Hr. split; [by eapply Hcap'|]. split.
    + intros Hs. destruct (elem_of_failed l rs s Hs) as (j & rep' & Hj & Hr' & Hrep).
      assert (j = i) as -> by (eapply NoDup_lookup; eauto). congruence.
    + by eapply failed_elem_of.
  - rewrite Hsum. symmetry. apply total_capacity_filter.
    intros s _ Hs. apply Hzero. by apply dec_stable.
Qed.

End Aggregate.

(** *** The scale decision *)

Lemma upscale_test_spec st :
  upscale_test st = true <->
  total_available_capacity (self st) < upscale_margin (self st).
Proof. unfold upscale_test. apply Z.ltb_lt. Qed.

Lemma downscale_test_spec st :
  downscale_test st = true <->
  downscale_margin (self st) < total_available_capacity (self st) /\
  (2 <= length (available_servers (self st)))%nat.
Proof.
  unfold downscale_test. rewrite andb_true_iff, Z.ltb_lt, Nat.ltb_lt. lia.
Qed.

(** The decision as the code takes it, whatever the margins: the second test
    is reached only when the first fails. *)
Lemma scale_action_cases st :
  (scale_action st = Upscale <-> upscale_test st = true) /\
  (scale_action st = Downscale <->
   upscale_test st = false /\ downscale_test st = true) /\
  (scale_action st = NoAction <->
   upscale_test st = false /\ downscale_test st = false).
Proof.
  unfold scale_action.
  destruct (upscale_test st), (downscale_test st); repeat split;
    intros; try discriminate; try tauto; intuition discriminate.
Qed.

Section Scale.

Context {TaskDescription : Type} (env : Env TaskDescription).

Lemma scale_eq st :
  scale env st =
  match scale_action st with
  | Upscale => upscale env st
  | Downscale => downscale st
  | NoAction => (Ok tt, st)
  end.
Proof. unfold scale, bind, get_state. by destruct (scale_action st). Qed.

End Scale.

(** *** Provisioning: [add_server] *)

Lemma launch_count_log_launch st :
  launch_count (log LaunchEcsInstance st) = S (launch_count st).
Proof.
  unfold launch_count, log; cbn [calls]. by rewrite filter_cons_True.
Qed.

Section Provisioning.

Context {TaskDescription : Type} (env : Env TaskDescription).

(** [Server.__init__] touches neither the store nor the manager object, it
    requests no instance, and the object it returns starts with no capacity,
    not ready to close, ['RUNNING']. *)
Lemma Server_init_spec arn st r st' :
  Server_init env arn st = (r, st') ->
  heap st' = heap st /\ self st' = self st /\
  launch_count st' = launch_count st /\
  (forall s, r = Ok s ->
     task_arn s = arn /\ status s = "RUNNING" /\
     available_capacity s = 0 /\ ready_to_close s = false).
Proof.
  unfold Server_init, bind, extern, ret.
  repeat match goal with
  | |- context [match ?x with Ok _ => _ | Raise _ => _ end] => destruct x
  end;
  cbn -[log]; intros H; inversion H; subst;
    (split; [done|]); (split; [done|]);
    (split; [by rewrite !launch_count_log by discriminate|]);
    intros s0 Heq; inversion Heq; subst; done.
Qed.

(** [add_server] never raises.  When it returns [False] the store and the
    manager object are as before; when it returns [True] one new object, with
    capacity 0, is in the store and at the end of the active pool.  Either
    way exactly one instance was requested. *)
Lemma add_server_spec st :
  exists ok st',
    add_server env st = (Ok ok, st') /\
    launch_count st' = S (launch_count st) /\
    if ok then
      exists srv,
        let r := fresh (dom (heap st)) in
        heap st' = <[r := srv]> (heap st) /\
        self st' = self (set_available_servers
                           (available_servers (self st) ++ [r]) st) /\
        status srv = "RUNNING" /\
        available_capacity srv = 0 /\ ready_to_close srv = false
    else heap st' = heap st /\ self st' = self st.
Proof.
  unfold add_server, try_except, bind at 1, extern at 1.
  destruct (launch_ecs_instance env (calls st)) as [[]|e]; cbn -[log].
  2:{ exists false. eexists. split; [reflexivity|].
      split; [apply launch_count_log_launch | done]. }
  set (st1 := log LaunchEcsInstance st).
  destruct (launch_task env (task_family (self st1)) (calls st1)) as [task|e].
  2:{ exists false. eexists. split; [reflexivity|].
      rewrite launch_count_log by discriminate.
      split; [apply launch_count_log_launch | done]. }
  set (st2 := log (LaunchTask (task_family (self st1))) st1).
  unfold bind at 1.
  destruct (Server_init env task st2) as [r st3] eqn:Hinit.
  destruct (Server_init_spec task st2 r st3 Hinit) as (Hh & Hs & Hc & Hsrv).
  assert (Hc3 : launch_count st3 = S (launch_count st)).
  { rewrite Hc. unfold st2. rewrite launch_count_log by discriminate.
    apply launch_count_log_launch. }
  destruct r as [srv|e].
  2:{ exists false. eexists. split; [reflexivity|]. split; [done|].
      by rewrite Hh, Hs. }
  destruct (Hsrv srv eq_refl) as (_ & Hst & Hcap & Hrdy).
  exists true. eexists. unfold bind, alloc, modify, ret; cbn.
  split; [reflexivity|]. split; [exact Hc3|].
  exists srv. cbn. rewrite Hh, Hs. done.
Qed.
(** [add_server] returns [True] exactly when the request for the instance,
    the launch of the task and the construction of the [Server] object all
    succeed. *)
Lemma add_server_true_iff st :
  fst (add_server env st) = Ok true <->
  exists task srv st3,
    launch_ecs_instance env (calls st) = Ok tt /\
    launch_task env (task_family (self st)) (LaunchEcsInstance :: calls st)
      = Ok task /\
    Server_init env task
      (log (LaunchTask (task_family (self st))) (log LaunchEcsInstance st))
      = (Ok srv, st3).
Proof.
  unfold add_server, try_except, bind at 1, extern at 1.
  destruct (launch_ecs_instance env (calls st)) as [[]|e]; cbn -[log].
  2:{ split; [discriminate|]. by intros (? & ? & ? & ? & _). }
  set (st1 := log LaunchEcsInstance st).
  change (task_family (self st)) with (task_family (self st1)).
  change (LaunchEcsInstance :: calls st) with (calls st1).
  destruct (launch_task env (task_family (self st1)) (calls st1)) as [task|e].
  2:{ split; [discriminate|]. by intros (? & ? & ? & _ & ? & _). }
  set (st2 := log (LaunchTask (task_family (self st1))) st1).
  unfold bind at 1.
  destruct (Server_init env task st2) as [[srv|e] st3] eqn:Hinit.
  - split; [|done]. intros _. by exists task, srv, st3.
  - split; [discriminate|].
    intros (task' & srv & st3' & _ & [= <-] & Hinit').
    change (Server_init env task st2 = (Ok srv, st3')) in Hinit'. congruence.
Qed.

End Provisioning.

(** *** The branches of the scale decision *)

Section Branches.

Context {TaskDescription : Type} (env : Env TaskDescription).

(** Upscale with a server in standby: the first standby server moves to the
    end of the active pool and its capacity is added to the aggregate. *)
Lemma upscale_recall st s rest :
  standby_servers (self st) = s :: rest ->
  upscale env st =
  (Ok tt,
   set_available_servers (available_servers (self st) ++ [s])
     (set_total_available_capacity
        (total_available_capacity (self st) + capacity st s)
        (set_standby_servers rest st))).
Proof.
  intros Hs. unfold upscale, bind at 1, get_state. rewrite Hs.
  cbn [length Nat.eqb].
  unfold pop_standby, bind, get_state, getitem, modify, ret. rewrite Hs.
  reflexivity.
Qed.

(** Upscale with an empty standby pool: [add_server]. *)
Lemma upscale_provision st :
  standby_servers (self st) = [] ->
  upscale env st = (Ok tt, snd (add_server env st)).
Proof.
  intros Hs. unfold upscale, bind at 1, get_state. rewrite Hs.
  cbn [length Nat.eqb].
  destruct (add_server_spec env st) as (ok & st' & Hadd & _).
  unfold bind. rewrite Hadd. reflexivity.
Qed.

(** Downscale: the server at the index of the scan leaves the active pool
    for the end of the standby pool, and its capacity leaves the
    aggregate. *)
Lemma downscale_spec st s :
  available_servers (self st) !! get_available_server_index st = Some s ->
  downscale st =
  (Ok tt,
   set_standby_servers (standby_servers (self st) ++ [s])
     (set_total_available_capacity
        (total_available_capacity (self st) - capacity st s)
        (set_available_servers
           (delete (get_available_server_index st)
                   (available_servers (self st))) st))).
Proof.
  intros Hs. unfold downscale, bind at 1, get_state.
  unfold pop_available, bind, get_state, getitem, modify, ret. rewrite Hs.
  reflexivity.
Qed.

End Branches.

(** *** Rules for [hoare] *)

Lemma hoare_ret {A} (P : state -> Prop) (a : A) : hoare P (ret a) P.
Proof. intros st r st' HP [= <- <-]. exact HP. Qed.

Lemma hoare_raise {A} (P : state -> Prop) e : hoare P (@raise A e) P.
Proof. intros st r st' HP [= <- <-]. exact HP. Qed.

Lemma hoare_modify (P Q : state -> Prop) f :
  (forall st, P st -> Q (f st)) -> hoare P (modify f) Q.
Proof. intros H st r st' HP [= <- <-]. by apply H. Qed.

Lemma hoare_extern {A} (P Q : state -> Prop) c (answer : list call -> result A) :
  (forall st, P st -> Q (log c st)) -> hoare P (extern c answer) Q.
Proof. intros H st r st' HP [= <- <-]. by apply H. Qed.

Lemma hoare_consequence {A} (P P' Q Q' : state -> Prop) (m : Exc A) :
  (forall st, P' st -> P st) -> (forall st, Q st -> Q' st) ->
  hoare P m Q -> hoare P' m Q'.
Proof. intros HP HQ H st r st' HP' E. eapply HQ, H; eauto. Qed.

Lemma hoare_bind {A B} (P R Q : state -> Prop) (m : Exc A) (k : A -> Exc B) :
  hoare P m R -> (forall st, R st -> Q st) ->
  (forall a, hoare R (k a) Q) ->
  hoare P (bind m k) Q.
Proof.
  intros Hm HRQ Hk st r st' HP. unfold bind.
  destruct (m st) as [[a|e] st1] eqn:E.
  - intros E'. eapply Hk; [eapply Hm|]; eauto.
  - intros [= <- <-]. eapply HRQ, Hm; eauto.
Qed.

(** An invariant through a sequence. *)
Lemma hoare_seq {A B} (I : state -> Prop) (m : Exc A) (k : A -> Exc B) :
  hoare I m I -> (forall a, hoare I (k a) I) -> hoare I (bind m k) I.
Proof. intros Hm Hk. eapply hoare_bind; eauto. Qed.

(** [st <- get_state ;; k st]: the continuation runs from the state read. *)
Lemma hoare_get_state {B} (P Q : state -> Prop) (k : state -> Exc B) :
  (forall st0, hoare (fun st => P st /\ st = st0) (k st0) Q) ->
  hoare P (bind get_state k) Q.
Proof.
  intros Hk st r st' HP. unfold bind, get_state. intros E.
  eapply (Hk st); eauto.
Qed.

Lemma hoare_try_except {A} (P R Q : state -> Prop) (body : Exc A) handler :
  hoare P body R -> (forall st, R st -> Q st) ->
  (forall e, hoare R (handler e) Q) ->
  hoare P (try_except body handler) Q.
Proof.
  intros Hb HRQ Hh st r st' HP. unfold try_except.
  destruct (body st) as [[a|e] st1] eqn:E.
  - intros [= <- <-]. eapply HRQ, Hb; eauto.
  - intros E'. eapply Hh; [eapply Hb|]; eauto.
Qed.

Lemma hoare_if {A} (P Q : state -> Prop) (b : bool) (m1 m2 : Exc A) :
  hoare P m1 Q -> hoare P m2 Q -> hoare P (if b then m1 else m2) Q.
Proof. by destruct b. Qed.

(** A computation known by its result. *)
Lemma hoare_of_eq {A} (P Q : state -> Prop) (m : Exc A) :
  (forall st, P st -> Q (snd (m st))) -> hoare P m Q.
Proof. intros H st r st' HP E. specialize (H st HP). by rewrite E in H. Qed.

(** *** What the cycle keeps *)

Lemma list_remove_first_spec s l :
  match list_remove_first s l with
  | Some l' => exists l1 l2, l = l1 ++ s :: l2 /\ (s ∉ l1) /\ l' = l1 ++ l2
  | None => s ∉ l
  end.
Proof.
  induction l as [|y l IH]; cbn.
  - apply not_elem_of_nil.
  - destruct (decide (s = y)) as [->|Hne].
    + exists [], l. split; [done|]. split; [apply not_elem_of_nil | done].
    + destruct (list_remove_first s l) as [l'|]; cbn.
      * destruct IH as (l1 & l2 & -> & Hnotin & ->).
        exists (y :: l1), l2. split; [done|]. split; [|done].
        rewrite not_elem_of_cons. done.
      * rewrite not_elem_of_cons. done.
Qed.

Lemma list_remove_first_elem_of s l :
  s ∈ l ->
  exists l1 l2,
    l = l1 ++ s :: l2 /\ (s ∉ l1) /\ list_remove_first s l = Some (l1 ++ l2).
Proof.
  intros Hin. pose proof (list_remove_first_spec s l) as H.
  destruct (list_remove_first s l) as [l'|]; [|done].
  destruct H as (l1 & l2 & ? & ? & ->). by exists l1, l2.
Qed.

Section Stable.

Context {TaskDescription : Type} (env : Env TaskDescription).
Context (I : state -> Prop) (HI : stable env I).

Lemma update_state_stable s : hoare I (update_state env s) I.
Proof.
  apply hoare_of_eq. intros st Hst. rewrite update_state_spec. cbv zeta.
  pose proof (stable_log env I HI (RequestsGet (health_url st s)) st
                ltac:(discriminate) Hst) as H1.
  unfold health_reply.
  destruct (requests_get_json env (health_url st s) (calls st))
    as [[[b|] [c|]]|e] eqn:E; cbn [snd]; try exact H1.
  - apply (stable_capacity env I HI); [|by apply (stable_ready env I HI)].
    right. by exists (health_url st s), (calls st), (mkHealth (Some b) (Some c)).
  - by apply (stable_ready env I HI).
Qed.

Lemma remove_server_stable s : hoare I (remove_server env s) I.
Proof.
  unfold remove_server. apply hoare_get_state. intros st0.
  eapply hoare_consequence with (P := I) (Q := I); [by intros ? [? _]|done|].
  eapply hoare_try_except with (R := I); [|done|intros e; apply hoare_ret].
  apply hoare_seq; [|intros; apply hoare_ret].
  apply hoare_extern. intros st. by apply (stable_log env I HI).
Qed.

Lemma poll_available_stable l acc u : hoare I (poll_available env l acc u) I.
Proof.
  revert acc u. induction l as [|s l IH]; intros acc u; cbn [poll_available].
  - apply hoare_ret.
  - apply hoare_seq; [apply update_state_stable|]. intros ok.
    apply hoare_seq.
    + destruct ok; [apply hoare_ret|].
      apply hoare_seq; [|intros; apply hoare_ret].
      apply hoare_modify. intros st.
      apply (stable_capacity env I HI). by left.
    + intros u'. apply hoare_get_state. intros st0.
      eapply hoare_consequence; [| |apply IH]; [by intros ? [? _]|done].
Qed.

Lemma poll_standby_stable l u : hoare I (poll_standby env l u) I.
Proof.
  revert u. induction l as [|s l IH]; intros u; cbn [poll_standby].
  - apply hoare_ret.
  - apply hoare_seq; [apply update_state_stable|]. intros ok. apply IH.
Qed.

Lemma poll_and_commit_stable : hoare I (poll_and_commit env) I.
Proof.
  unfold poll_and_commit. apply hoare_get_state. intros st0.
  eapply hoare_consequence with (P := I) (Q := I); [by intros ? [? _]|done|].
  apply hoare_seq; [apply poll_available_stable|]. intros p.
  apply hoare_seq; [|intros; apply hoare_ret].
  apply hoare_modify. intros st. apply (stable_total env I HI).
Qed.

(** Setting one pool, as a move licensed by [stable_pools]. *)
Lemma stable_set_available la st :
  la ++ standby_servers (self st)
    ⊆+ available_servers (self st) ++ standby_servers (self st) ->
  I st -> I (set_available_servers la st).
Proof.
  intros Hsub Hst.
  pose proof (stable_pools env I HI la (standby_servers (self st)) st Hsub Hst)
    as H.
  destruct st as [h [] cs]. exact H.
Qed.

Lemma stable_set_standby ls st :
  available_servers (self st) ++ ls
    ⊆+ available_servers (self st) ++ standby_servers (self st) ->
  I st -> I (set_standby_servers ls st).
Proof.
  intros Hsub Hst.
  pose proof (stable_pools env I HI (available_servers (self st)) ls st
                Hsub Hst) as H.
  destruct st as [h [] cs]. exact H.
Qed.

End Stable.

(** *** Standby eviction *)

Lemma evict_calls_heap st st' l :
  heap st = heap st' -> evict_calls st l = evict_calls st' l.
Proof.
  intros Hh. induction l as [|s l IH]; [done|].
  cbn. unfold closable. by rewrite IH, Hh.
Qed.

Section Eviction.

Context {TaskDescription : Type} (env : Env TaskDescription).

Lemma remove_server_spec s st :
  exists ok,
    remove_server env s st =
    (Ok ok, log (TerminateEc2 (ec2_id (heap st !!! s))) st).
Proof.
  unfold remove_server, bind, get_state, try_except, extern, ret.
  destruct (terminate_ec2 env _ _) as [[]|e]; eauto.
Qed.

(** The eviction loop never raises: it keeps, in order, the servers that are
    not ready to close and requests the termination of the others. *)
Lemma evict_loop_spec l remaining st :
  evict_loop env l remaining st =
  (Ok (remaining ++ filter (fun s => closable st s = false) l),
   mkState (heap st) (self st) (evict_calls st l ++ calls st)).
Proof.
  revert remaining st. induction l as [|s l IH]; intros remaining st.
  - cbn. rewrite app_nil_r. by destruct st.
  - cbn [evict_loop]. unfold bind at 1, get_state.
    destruct (closable st s) eqn:Hc.
    + destruct (remove_server_spec s st) as (ok & Hrm).
      unfold bind. rewrite Hrm, IH.
      rewrite filter_cons_False by congruence.
      cbn [evict_calls]. rewrite Hc.
      rewrite (evict_calls_heap (log _ st) st) by done.
      cbn. by rewrite <- app_assoc.
    + rewrite IH. rewrite filter_cons_True by done.
      cbn [evict_calls]. rewrite Hc, app_nil_r, <- app_assoc. done.
Qed.

Lemma evict_standby_spec st :
  evict_standby env st =
  (Ok tt,
   set_standby_servers
     (filter (fun s => closable st s = false) (standby_servers (self st)))
     (mkState (heap st) (self st)
              (evict_calls st (standby_servers (self st)) ++ calls st))).
Proof.
  unfold evict_standby, bind, get_state. rewrite evict_loop_spec. reflexivity.
Qed.

End Eviction.

(** *** The second poll of the unresponsive servers *)

Lemma list_remove_first_None s l : s ∉ l -> list_remove_first s l = None.
Proof.
  intros Hnotin. pose proof (list_remove_first_spec s l) as H.
  destruct (list_remove_first s l) as [l'|]; [|done].
  destruct H as (l1 & l2 & -> & _ & _). exfalso. apply Hnotin.
  rewrite elem_of_app, elem_of_cons. auto.
Qed.

Lemma rechecked_refl u st : rechecked u st st.
Proof.
  split; [done|]. split; [done|]. split; [done|]. split; [done|].
  split; [by exists [] | apply same_identity_refl].
Qed.

Lemma rechecked_trans u1 u2 st1 st2 st3 :
  rechecked u1 st1 st2 -> rechecked u2 st2 st3 ->
  rechecked (u1 ++ u2) st1 st3.
Proof.
  intros (Hh1 & Hm1 & Ha1 & Hs1 & (cs1 & Hc1) & Hi1)
         (Hh2 & Hm2 & Ha2 & Hs2 & (cs2 & Hc2) & Hi2).
  split.
  { intros x Hx. rewrite elem_of_app in Hx. rewrite Hh2, Hh1; tauto. }
  split.
  { intros x Hx. rewrite elem_of_app in Hx.
    destruct (Hm1 x) as [A1 S1]; [tauto|].
    destruct (Hm2 x) as [A2 S2]; [tauto|]. tauto. }
  split; [by etrans|]. split; [by etrans|].
  split; [|by eapply same_identity_trans].
  exists (cs2 ++ cs1). by rewrite Hc2, Hc1, app_assoc.
Qed.

Lemma sublist_remove_middle (l1 l2 : list loc) s :
  l1 ++ l2 `sublist_of` l1 ++ s :: l2.
Proof. apply sublist_app; [done|]. by apply sublist_cons. Qed.

Lemma rechecked_drop_server s st : rechecked [s] st (drop_server s st).
Proof.
  assert (Hmid : forall l1 l2 x, x ∉ [s] ->
            (x ∈ l1 ++ l2 <-> x ∈ l1 ++ s :: l2)).
  { intros l1 l2 x Hx. rewrite list_elem_of_singleton in Hx.
    rewrite !elem_of_app, elem_of_cons. tauto. }
  unfold drop_server.
  pose proof (list_remove_first_spec s (available_servers (self st))) as Ha.
  destruct (list_remove_first s (available_servers (self st))) as [la|].
  { destruct Ha as (l1 & l2 & Hl & _ & ->).
    split; [done|]. cbn. rewrite Hl. split.
    { intros x Hx. split; [by apply Hmid | done]. }
    split; [apply sublist_remove_middle|]. split; [done|].
    split; [by exists [] | by apply same_identity_heap]. }
  pose proof (list_remove_first_spec s (standby_servers (self st))) as Hs.
  destruct (list_remove_first s (standby_servers (self st))) as [ls|].
  { destruct Hs as (l1 & l2 & Hl & _ & ->).
    split; [done|]. cbn. rewrite Hl. split.
    { intros x Hx. split; [done | by apply Hmid]. }
    split; [done|]. split; [apply sublist_remove_middle|].
    split; [by exists [] | by apply same_identity_heap]. }
  apply rechecked_refl.
Qed.

Section Recheck.

Context {TaskDescription : Type} (env : Env TaskDescription).

Lemma update_state_rechecked s st r st' :
  update_state env s st = (r, st') -> rechecked [s] st st'.
Proof.
  intros E.
  destruct (update_state_frame env s st r st' E) as (Hs & Hc & Hh & Hi & _).
  split; [intros x Hx; apply Hh; by rewrite list_elem_of_singleton in Hx|].
  rewrite Hs. split; [done|]. split; [done|]. split; [done|].
  split; [|done].
  exists [RequestsGet (health_url st s)]. by rewrite Hc.
Qed.

(** The second poll succeeds: nothing else happens. *)
Lemma recheck_ok s st st1 :
  update_state env s st = (Ok true, st1) -> recheck env s st = (Ok tt, st1).
Proof. intros E. unfold recheck, bind. by rewrite E. Qed.

(** The second poll fails: the server is dropped from its pool and its
    termination is requested. *)
Lemma recheck_failed s st st1 :
  update_state env s st = (Ok false, st1) ->
  recheck env s st =
  (Ok tt, log (TerminateEc2 (ec2_id (heap st1 !!! s))) (drop_server s st1)).
Proof.
  intros E. unfold recheck, bind at 1. rewrite E.
  unfold bind at 1, get_state. unfold bind at 1.
  assert (Hdrop :
    (if bool_decide (s ∈ available_servers (self st1))
     then remove_available s
     else if bool_decide (s ∈ standby_servers (self st1))
          then remove_standby s else ret tt) st1
    = (Ok tt, drop_server s st1)).
  { unfold drop_server, remove_available, remove_standby, bind, get_state.
    destruct (decide (s ∈ available_servers (self st1))) as [Hin|Hnotin].
    - rewrite bool_decide_eq_true_2 by done.
      destruct (list_remove_first_elem_of _ _ Hin) as (l1 & l2 & _ & _ & ->).
      done.
    - rewrite bool_decide_eq_false_2 by done.
      rewrite (list_remove_first_None _ _ Hnotin).
      destruct (decide (s ∈ standby_servers (self st1))) as [Hin'|Hnotin'].
      + rewrite bool_decide_eq_true_2 by done.
        destruct (list_remove_first_elem_of _ _ Hin') as (l1 & l2 & _ & _ & ->).
        done.
      + rewrite bool_decide_eq_false_2 by done.
        by rewrite (list_remove_first_None _ _ Hnotin'). }
  rewrite Hdrop.
  destruct (remove_server_spec env s (drop_server s st1)) as (ok & Hrm).
  unfold bind. rewrite Hrm.
  assert (Hheap : heap (drop_server s st1) = heap st1).
  { unfold drop_server. by repeat destruct (list_remove_first _ _). }
  by rewrite Hheap.
Qed.

Lemma rechecked_log c st : rechecked [] st (log c st).
Proof.
  split; [done|]. split; [done|]. split; [done|]. split; [done|].
  split; [by exists [c] | by apply same_identity_heap].
Qed.

Lemma rechecked_weaken u u' st st' :
  u ⊆ u' -> rechecked u st st' -> rechecked u' st st'.
Proof.
  intros Hsub (Hh & Hm & H). split; [|split; [|exact H]].
  - intros x Hx. apply Hh. intros Hin. apply Hx, Hsub, Hin.
  - intros x Hx. apply Hm. intros Hin. apply Hx, Hsub, Hin.
Qed.

(** One turn of the last loop never raises. *)
Lemma recheck_rechecked s st :
  exists st', recheck env s st = (Ok tt, st') /\ rechecked [s] st st'.
Proof.
  destruct (update_state_total env s st) as ([] & st1 & E).
  - exists st1. split; [by apply recheck_ok|]. by eapply update_state_rechecked.
  - eexists. split; [by apply recheck_failed|].
    eapply rechecked_weaken;
      [|eapply rechecked_trans;
         [eapply rechecked_trans;
           [by eapply update_state_rechecked | apply rechecked_drop_server]
         |apply rechecked_log]].
    intros x. rewrite !elem_of_app, elem_of_nil. tauto.
Qed.

Lemma recheck_all_cons s u st :
  recheck_all env (s :: u) st = recheck_all env u (snd (recheck env s st)).
Proof.
  destruct (recheck_rechecked s st) as (st' & E & _).
  cbn [recheck_all]. unfold bind. by rewrite E.
Qed.

Lemma recheck_all_app u1 u2 st :
  recheck_all env (u1 ++ u2) st =
  recheck_all env u2 (snd (recheck_all env u1 st)).
Proof.
  revert st. induction u1 as [|s u1 IH]; intros st; [done|].
  rewrite <- app_comm_cons, !recheck_all_cons. apply IH.
Qed.

(** The last loop never raises. *)
Lemma recheck_all_rechecked u st :
  exists st', recheck_all env u st = (Ok tt, st') /\ rechecked u st st'.
Proof.
  revert st. induction u as [|s u IH]; intros st.
  - exists st. split; [done | apply rechecked_refl].
  - rewrite recheck_all_cons.
    destruct (recheck_rechecked s st) as (st1 & E & H1). rewrite E. cbn [snd].
    destruct (IH st1) as (st' & E' & H'). exists st'. split; [done|].
    change (s :: u) with ([s] ++ u). by eapply rechecked_trans.
Qed.

(** The last loop writes neither the aggregate nor the settings. *)
Lemma recheck_aggregate s st :
  total_available_capacity (self (snd (recheck env s st)))
    = total_available_capacity (self st) /\
  settings (snd (recheck env s st)) = settings st.
Proof.
  destruct (update_state_total env s st) as (ok & st1 & E).
  destruct (update_state_frame env s st _ st1 E) as (Hself & _).
  destruct ok.
  - rewrite (recheck_ok s st st1 E). cbn [snd]. unfold settings.
    by rewrite Hself.
  - rewrite (recheck_failed s st st1 E). cbn [snd]. unfold settings.
    unfold drop_server.
    destruct (list_remove_first s (available_servers (self st1)));
      [cbn; by rewrite Hself|].
    destruct (list_remove_first s (standby_servers (self st1)));
      [cbn; by rewrite Hself|].
    cbn. by rewrite Hself.
Qed.

Lemma recheck_all_aggregate u st :
  total_available_capacity (self (snd (recheck_all env u st)))
    = total_available_capacity (self st) /\
  settings (snd (recheck_all env u st)) = settings st.
Proof.
  revert st. induction u as [|s u IH]; intros st; [done|].
  rewrite recheck_all_cons.
  destruct (IH (snd (recheck env s st))) as [-> ->].
  apply recheck_aggregate.
Qed.

End Recheck.

Lemma drop_server_gone s st :
  NoDup (available_servers (self st) ++ standby_servers (self st)) ->
  (s ∉ available_servers (self (drop_server s st))) /\
  (s ∉ standby_servers (self (drop_server s st))).
Proof.
  intros Hnd. apply NoDup_app in Hnd as (Hna & Hdisj & Hns).
  unfold drop_server.
  pose proof (list_remove_first_spec s (available_servers (self st))) as Ha.
  destruct (list_remove_first s (available_servers (self st))) as [la|].
  { destruct Ha as (l1 & l2 & Hl & Hl1 & ->). cbn. rewrite Hl in Hna, Hdisj.
    split.
    - apply NoDup_app in Hna as (_ & Hd & Hn2).
      apply NoDup_cons in Hn2 as [Hl2 _].
      rewrite elem_of_app. tauto.
    - apply Hdisj. rewrite elem_of_app, elem_of_cons. auto. }
  pose proof (list_remove_first_spec s (standby_servers (self st))) as Hs.
  destruct (list_remove_first s (standby_servers (self st))) as [ls|].
  { destruct Hs as (l1 & l2 & Hl & Hl1 & ->). cbn. split; [done|].
    rewrite Hl in Hns. apply NoDup_app in Hns as (_ & Hd & Hn2).
    apply NoDup_cons in Hn2 as [Hl2 _].
    rewrite elem_of_app. tauto. }
  done.
Qed.

Section RecheckAll.

Context {TaskDescription : Type} (env : Env TaskDescription).

(** C6. The last loop of [run] goes through the unresponsive list; take a
    server [s] of it, with the servers [u1] before it and [u2] after it, the
    list and the pools free of repetitions.  The loop never raises, and it
    writes neither the aggregate nor the settings.  When the second poll of
    [s] fails, the turn of [s] makes two calls, the health request and then
    the termination of its instance, and [s] is in neither pool afterwards.
    When it succeeds, the turn of [s] is the poll and nothing more: one
    health request, the manager object and every other server as they were;
    [s] is in the pool it was in and holds the capacity and the close flag
    the reply reports.  The servers outside the list keep their place and
    their attributes. *)
Theorem recheck_all_unresponsive u1 s u2 st :
  NoDup (u1 ++ s :: u2) ->
  NoDup (available_servers (self st) ++ standby_servers (self st)) ->
  exists st1 ok st2 st3 st',
    recheck_all env u1 st = (Ok tt, st1) /\
    update_state env s st1 = (Ok ok, st2) /\
    recheck env s st1 = (Ok tt, st3) /\
    recheck_all env u2 st3 = (Ok tt, st') /\
    recheck_all env (u1 ++ s :: u2) st = (Ok tt, st') /\
    rechecked (u1 ++ s :: u2) st st' /\
    total_available_capacity (self st') = total_available_capacity (self st) /\
    settings st' = settings st /\
    (ok = false ->
     (s ∉ available_servers (self st')) /\
     (s ∉ standby_servers (self st')) /\
     calls st3 =
       TerminateEc2 (ec2_id (heap st !!! s))
       :: RequestsGet (health_url st s) :: calls st1 /\
     exists cs1 cs2,
       calls st' =
         cs2 ++ TerminateEc2 (ec2_id (heap st !!! s))
         :: RequestsGet (health_url st s) :: cs1 ++ calls st) /\
    (ok = true ->
     st3 = st2 /\
     self st2 = self st1 /\
     calls st2 = RequestsGet (health_url st s) :: calls st1 /\
     (forall x, x <> s -> heap st2 !! x = heap st1 !! x) /\
     (s ∈ available_servers (self st') <-> s ∈ available_servers (self st)) /\
     (s ∈ standby_servers (self st') <-> s ∈ standby_servers (self st)) /\
     exists b c,
       reported (health_reply env st1 s) = Some (b, c) /\
       capacity st' s = c /\ closable st' s = b).
Proof.
  intros Hu Hpools.
  apply NoDup_app in Hu as (_ & Hu1 & Hu2).
  apply NoDup_cons in Hu2 as [Hs2 _].
  assert (Hs1 : s ∉ u1).
  { intros Hin. apply (Hu1 s Hin). apply list_elem_of_here. }
  destruct (recheck_all_rechecked env u1 st) as (st1 & E1 & R1).
  destruct (update_state_total env s st1) as (ok & st2 & E2).
  destruct (recheck_rechecked env s st1) as (st3 & E3 & _).
  destruct (recheck_all_rechecked env u2 st3) as (st' & E' & R2).
  destruct (recheck_all_rechecked env (u1 ++ s :: u2) st) as (st'' & E & R).
  assert (Hst' : st'' = st').
  { pose proof E as Ex.
    rewrite recheck_all_app, E1, recheck_all_cons in Ex. cbn [snd] in Ex.
    rewrite E3 in Ex. cbn [snd] in Ex. rewrite E' in Ex. by injection Ex. }
  subst st''.
  exists st1, ok, st2, st3, st'. do 6 (split; [done|]).
  pose proof (recheck_all_aggregate env (u1 ++ s :: u2) st) as [Htot Hset].
  rewrite E in Htot, Hset. cbn [snd] in Htot, Hset.
  split; [exact Htot|]. split; [exact Hset|].
  destruct (update_state_frame env s st1 _ st2 E2)
    as (Hself & Hcalls2 & Hheap2 & Hid2 & _).
  destruct R1 as (_ & Hm1 & Ha1 & Hsb1 & (cs1 & Hcs1) & Hid1).
  destruct R2 as (Hh2 & Hm2 & Ha2 & Hsb2 & (cs2 & Hcs2) & _).
  assert (Hurl : health_url st1 s = health_url st s)
    by (by apply same_identity_health_url).
  split.
  - intros ->.
    assert (Hst3 : st3 = log (TerminateEc2 (ec2_id (heap st2 !!! s)))
                             (drop_server s st2)).
    { rewrite (recheck_failed env s st1 st2 E2) in E3. congruence. }
    subst st3. cbn [self log] in Ha2, Hsb2.
    assert (Hnd1 : NoDup (available_servers (self st2)
                          ++ standby_servers (self st2))).
    { rewrite Hself. eapply sublist_NoDup; [exact Hpools|].
      by apply sublist_app. }
    destruct (drop_server_gone s st2 Hnd1) as [Hga Hgs].
    split; [intros Hin; apply Hga; by eapply elem_of_sublist|].
    split; [intros Hin; apply Hgs; by eapply elem_of_sublist|].
    assert (Hec2 : ec2_id (heap st2 !!! s) = ec2_id (heap st !!! s)).
    { destruct (Hid1 s) as (_ & _ & <- & _).
      by destruct (Hid2 s) as (_ & _ & <- & _). }
    assert (Hcd : calls (drop_server s st2) = calls st2).
    { unfold drop_server. by repeat destruct (list_remove_first _ _). }
    assert (Hc3 : calls (log (TerminateEc2 (ec2_id (heap st2 !!! s)))
                             (drop_server s st2))
                  = TerminateEc2 (ec2_id (heap st !!! s))
                    :: RequestsGet (health_url st s) :: calls st1).
    { cbn [calls log]. by rewrite Hec2, Hcd, Hcalls2, Hurl. }
    split; [exact Hc3|].
    exists cs1, cs2. by rewrite Hcs2, Hc3, Hcs1.
  - intros ->.
    assert (Hst3 : st3 = st2).
    { rewrite (recheck_ok env s st1 st2 E2) in E3. congruence. }
    subst st3.
    split; [done|]. split; [exact Hself|].
    split; [by rewrite Hcalls2, Hurl|]. split; [exact Hheap2|].
    destruct (Hm1 s Hs1) as [A1 S1]. destruct (Hm2 s Hs2) as [A2 S2].
    rewrite Hself in A2, S2.
    split; [tauto|]. split; [tauto|].
    destruct (update_state_true env s st1 st2 E2) as (b & c & Hrep & _ & Hc & Hb).
    exists b, c. split; [done|].
    unfold capacity, closable in *.
    rewrite !(lookup_total_alt (heap st')), (Hh2 s Hs2), <- !lookup_total_alt.
    done.
Qed.

End RecheckAll.

(** *** What the whole cycle keeps *)

Lemma evict_calls_no_launch st l :
  Forall (fun c => c <> LaunchEcsInstance) (evict_calls st l).
Proof.
  induction l as [|s l IH]; cbn; [constructor|].
  apply Forall_app. split; [exact IH|].
  destruct (closable st s); repeat constructor. discriminate.
Qed.

Lemma downscale_out_of_range st :
  available_servers (self st) !! get_available_server_index st = None ->
  downscale st = (Raise "IndexError", st).
Proof.
  intros Hs. unfold downscale, bind at 1, get_state.
  unfold pop_available, bind, get_state, getitem, raise. by rewrite Hs.
Qed.

Lemma pop_append_Permutation (la ls : list loc) i s :
  la !! i = Some s -> delete i la ++ (ls ++ [s]) ≡ₚ la ++ ls.
Proof.
  intros H. symmetry. etrans.
  { apply Permutation_app; [by apply delete_Permutation | reflexivity]. }
  cbn. rewrite app_assoc. apply Permutation_cons_append.
Qed.

Section StablePhases.

Context {TaskDescription : Type} (env : Env TaskDescription).
Context (I : state -> Prop) (HI : stable env I).

Lemma stable_logs cs st :
  Forall (fun c => c <> LaunchEcsInstance) cs ->
  I st -> I (mkState (heap st) (self st) (cs ++ calls st)).
Proof.
  intros Hcs Hst. induction Hcs as [|c cs Hc _ IH]; cbn.
  - by destruct st.
  - apply (stable_log env I HI c _ Hc IH).
Qed.

Lemma evict_standby_stable : hoare I (evict_standby env) I.
Proof.
  apply hoare_of_eq. intros st Hst. rewrite evict_standby_spec. cbn [snd].
  apply (stable_set_standby env I HI).
  - cbn. apply submseteq_app; [done|].
    apply sublist_submseteq, sublist_filter.
  - apply stable_logs; [apply evict_calls_no_launch | done].
Qed.

Lemma sleep_stable t : hoare I (sleep env t) I.
Proof.
  unfold sleep. apply hoare_extern.
  intros st. by apply (stable_log env I HI).
Qed.

Lemma drop_server_stable s st : I st -> I (drop_server s st).
Proof.
  intros Hst. unfold drop_server.
  pose proof (list_remove_first_spec s (available_servers (self st))) as Ha.
  destruct (list_remove_first s (available_servers (self st))) as [la|].
  { destruct Ha as (l1 & l2 & Hl & _ & ->).
    apply (stable_set_available env I HI); [|done].
    rewrite Hl. apply submseteq_app; [|done].
    apply sublist_submseteq, sublist_remove_middle. }
  pose proof (list_remove_first_spec s (standby_servers (self st))) as Hs.
  destruct (list_remove_first s (standby_servers (self st))) as [ls|]; [|done].
  destruct Hs as (l1 & l2 & Hl & _ & ->).
  apply (stable_set_standby env I HI); [|done].
  rewrite Hl. apply submseteq_app; [done|].
  apply sublist_submseteq, sublist_remove_middle.
Qed.

Lemma recheck_stable s : hoare I (recheck env s) I.
Proof.
  apply hoare_of_eq. intros st Hst.
  destruct (update_state_total env s st) as (ok & st1 & E).
  pose proof (update_state_stable env I HI s st _ st1 Hst E) as H1.
  destruct ok.
  - by rewrite (recheck_ok env s st st1 E).
  - rewrite (recheck_failed env s st st1 E). cbn [snd].
    apply (stable_log env I HI); [discriminate|]. by apply drop_server_stable.
Qed.

Lemma recheck_all_stable u : hoare I (recheck_all env u) I.
Proof.
  induction u as [|s u IH]; cbn [recheck_all]; [apply hoare_ret|].
  apply hoare_seq; [apply recheck_stable | intros; apply IH].
Qed.

Lemma downscale_stable : hoare I downscale I.
Proof.
  apply hoare_of_eq. intros st Hst.
  destruct (available_servers (self st) !! get_available_server_index st)
    as [s|] eqn:Hs.
  - rewrite (downscale_spec st s Hs). cbn [snd].
    pose proof (stable_pools env I HI
      (delete (get_available_server_index st) (available_servers (self st)))
      (standby_servers (self st) ++ [s]) st) as H.
    eapply (stable_total env I HI
              (total_available_capacity (self st) - capacity st s)) in H.
    + destruct st as [h [] cs]. exact H.
    + by apply Permutation_submseteq, pop_append_Permutation.
    + exact Hst.
  - by rewrite (downscale_out_of_range st Hs).
Qed.

End StablePhases.

Section StableCycle.

Context {TaskDescription : Type} (env : Env TaskDescription).
Context (I : state -> Prop) (HI : stable env I).
Context (I' : state -> Prop) (HI' : stable env I').
Context (HII' : forall st, I st -> I' st).
Context (Hadd : hoare I (add_server env) I').

Lemma upscale_stable : hoare I (upscale env) I'.
Proof.
  apply hoare_of_eq. intros st Hst.
  destruct (standby_servers (self st)) as [|s rest] eqn:Hs.
  - rewrite (upscale_provision env st Hs). cbn [snd].
    destruct (add_server env st) as [r st'] eqn:E. by eapply Hadd.
  - rewrite (upscale_recall env st s rest Hs). cbn [snd]. apply HII'.
    pose proof (stable_pools env I HI
      (available_servers (self st) ++ [s]) rest st) as H.
    eapply (stable_total env I HI
              (total_available_capacity (self st) + capacity st s)) in H.
    + destruct st as [h [] cs]. exact H.
    + apply Permutation_submseteq. rewrite Hs, <- app_assoc. done.
    + exact Hst.
Qed.

Lemma scale_stable : hoare I (scale env) I'.
Proof.
  apply hoare_of_eq. intros st Hst. rewrite scale_eq.
  destruct (scale_action st).
  - destruct (upscale env st) as [r st'] eqn:E.
    by eapply upscale_stable.
  - apply HII'. destruct (downscale st) as [r st'] eqn:E.
    by eapply downscale_stable.
  - by apply HII'.
Qed.

(** The cycle takes a stable property to a stable property, given that
    [add_server] does. *)
Lemma cycle_stable : hoare I (cycle env) I'.
Proof.
  unfold cycle.
  eapply hoare_bind; [apply (poll_and_commit_stable env I HI)|exact HII'|].
  intros ua. apply hoare_get_state. intros st0.
  eapply hoare_consequence with (P := I) (Q := I'); [by intros ? [? _]|done|].
  eapply hoare_bind; [apply (poll_standby_stable env I HI)|exact HII'|].
  intros u.
  eapply hoare_bind; [apply scale_stable|done|]. intros _.
  apply hoare_seq; [apply (evict_standby_stable env I' HI')|]. intros _.
  apply hoare_get_state. intros st1.
  eapply hoare_consequence with (P := I') (Q := I'); [by intros ? [? _]|done|].
  apply hoare_seq; [apply (sleep_stable env I' HI')|]. intros _.
  apply (recheck_all_stable env I' HI').
Qed.

End StableCycle.

(** *** Three stable properties *)

Section Instances.

Context {TaskDescription : Type} (env : Env TaskDescription).

(** At most [n] instances were requested. *)
Lemma launch_bound_stable n : stable env (fun st => (launch_count st <= n)%nat).
Proof.
  split; try done.
  intros c st Hc Hst. by rewrite launch_count_log.
Qed.

Lemma add_server_launch_bound n :
  hoare (fun st => (launch_count st <= n)%nat) (add_server env)
        (fun st => (launch_count st <= S n)%nat).
Proof.
  intros st r st' Hst E.
  destruct (add_server_spec env st) as (ok & st'' & E' & Hc & _).
  rewrite E in E'. injection E' as -> ->. lia.
Qed.

(** A cycle requests at most one instance, whatever happens in it. *)
Lemma cycle_launch_bound st r st' :
  cycle env st = (r, st') -> (launch_count st' <= S (launch_count st))%nat.
Proof.
  intros E.
  refine (cycle_stable env _ (launch_bound_stable (launch_count st))
            _ (launch_bound_stable (S (launch_count st))) _ _ st r st' _ E).
  - intros st0 H. cbn in *. lia.
  - apply add_server_launch_bound.
  - cbn. lia.
Qed.

(** No negative capacity, when the health reporter reports none. *)
Lemma nonneg_stable : reports_nonneg env -> stable env nonneg.
Proof.
  intros Henv. split; try done.
  - intros s b st Hst x. by rewrite capacity_set_ready.
  - intros s c st Hc Hst x. rewrite capacity_set_capacity.
    destruct (decide (s = x)); [|done].
    destruct Hc as [->|(url & cs & j & Hj & Hjc)]; [done|].
    by eapply Henv.
Qed.

Lemma add_server_nonneg : hoare nonneg (add_server env) nonneg.
Proof.
  intros st r st' Hst E.
  destruct (add_server_spec env st) as (ok & st'' & E' & _ & H).
  rewrite E in E'. injection E' as -> ->.
  destruct ok.
  - destruct H as (srv & Hh & _ & _ & Hcap & _).
    intros x. unfold capacity. rewrite Hh, lookup_total_insert.
    destruct (decide (fresh (dom (heap st)) = x)); [lia | apply Hst].
  - destruct H as [Hh _]. intros x. unfold capacity. rewrite Hh. apply Hst.
Qed.

Lemma cycle_nonneg st r st' :
  reports_nonneg env -> nonneg st -> cycle env st = (r, st') -> nonneg st'.
Proof.
  intros Henv Hst E.
  refine (cycle_stable env _ (nonneg_stable Henv) _ (nonneg_stable Henv)
            _ _ st r st' Hst E); [done | apply add_server_nonneg].
Qed.

(** The pools stay well formed. *)
Lemma submseteq_NoDup (l k : list loc) : l ⊆+ k -> NoDup k -> NoDup l.
Proof.
  intros Hsub Hnd. apply submseteq_Permutation in Hsub as [k' Hk].
  rewrite Hk in Hnd. by apply NoDup_app in Hnd as (? & _ & _).
Qed.

Lemma pools_wf_stable : stable env pools_wf.
Proof.
  split.
  - intros c st _ H. exact H.
  - intros s b st [Hnd Hdom]. split; [done|].
    intros x Hx. apply (dom_set_ready s b st), Hdom, Hx.
  - intros s c st _ [Hnd Hdom]. split; [done|].
    intros x Hx. apply (dom_set_capacity s c st), Hdom, Hx.
  - intros c st H. exact H.
  - intros la ls st Hsub [Hnd Hdom]. split; cbn.
    + by eapply submseteq_NoDup.
    + intros x Hx. apply Hdom. by eapply elem_of_submseteq.
Qed.

Lemma add_server_pools_wf : hoare pools_wf (add_server env) pools_wf.
Proof.
  intros st r st' [Hnd Hdom] E.
  destruct (add_server_spec env st) as (ok & st'' & E' & _ & H).
  rewrite E in E'. injection E' as -> ->.
  destruct ok.
  - destruct H as (srv & Hh & Hs & _). unfold pools_wf. rewrite Hh, Hs. cbn.
    set (r := fresh (dom (heap st))) in *.
    assert (Hfresh : r ∉ dom (heap st)) by apply is_fresh.
    split.
    + rewrite <- app_assoc. cbn.
      rewrite <- Permutation_middle. apply NoDup_cons. split; [|done].
      intros Hin. by apply Hfresh, Hdom.
    + intros x. rewrite <- app_assoc. cbn.
      rewrite elem_of_app, elem_of_cons, dom_insert.
      intros [Hx|[->|Hx]]; [| set_solver |];
        (apply elem_of_union; right; apply Hdom, elem_of_app; auto).
  - destruct H as [Hh Hs]. unfold pools_wf. by rewrite Hh, Hs.
Qed.

Lemma cycle_pools_wf st r st' :
  pools_wf st -> cycle env st = (r, st') -> pools_wf st'.
Proof.
  intros Hst E.
  refine (cycle_stable env _ pools_wf_stable _ pools_wf_stable
            _ _ st r st' Hst E); [done | apply add_server_pools_wf].
Qed.

End Instances.

Lemma get_available_server_pools_wf st r st' :
  pools_wf st -> get_available_server st = (r, st') -> pools_wf st'.
Proof.
  intros Hst. destruct (available_servers (self st)) as [|x l] eqn:Hl.
  - rewrite (get_available_server_empty st Hl). by intros [= <- <-].
  - destruct (get_available_server_index_spec st) as (s & Hs & _);
      [by rewrite Hl|].
    rewrite (get_available_server_nonempty st s Hs). intros [= <- <-].
    destruct Hst as [Hnd Hdom]. split; [done|].
    intros y Hy. apply dom_set_capacity, Hdom, Hy.
Qed.

(** *** The poll of the standby pool *)

Section PollStandby.

Context {TaskDescription : Type} (env : Env TaskDescription).

Lemma poll_standby_cons s l u st :
  poll_standby env (s :: l) u st =
  poll_standby env l
    (match reported (health_reply env st s) with
     | Some _ => u
     | None => u ++ [s]
     end)
    (snd (update_state env s st)).
Proof.
  cbn [poll_standby]. unfold bind.
  destruct (update_state_total env s st) as (ok & st1 & E). rewrite E. cbn.
  destruct ok.
  - by destruct (update_state_true env s st st1 E) as (b & c & -> & _).
  - by destruct (update_state_false env s st st1 E) as (-> & _).
Qed.

(** The loop over [self.standby_servers] never raises; it adds to the
    unresponsive list the servers whose [update_state] failed; a server that
    reported holds what it reported, a server that failed keeps its
    capacity. *)
Lemma poll_standby_spec l st0 u st :
  same_identity st0 st ->
  exists st',
    poll_standby env l u st =
      (Ok (u ++ failed l (replies env st0 l (calls st))), st') /\
    polled_frame l st st' /\
    (NoDup l ->
     forall i s rep,
       l !! i = Some s -> replies env st0 l (calls st) !! i = Some rep ->
       match reported rep with
       | Some (b, c) => capacity st' s = c /\ closable st' s = b
       | None => capacity st' s = capacity st s
       end).
Proof.
  revert u st. induction l as [|s l IH]; intros u st Hid.
  - exists st. cbn. rewrite app_nil_r.
    split; [done|]. split; [apply polled_frame_refl|].
    intros _ i s rep Hi. by rewrite lookup_nil in Hi.
  - rewrite poll_standby_cons.
    destruct (update_state env s st) as [r st1] eqn:E. cbn [snd].
    pose proof (update_state_polled_frame env s st r st1 E) as Hf1.
    pose proof (update_state_frame env s st r st1 E) as (_ & Hcalls & _).
    assert (Hurl : health_url st0 s = health_url st s).
    { symmetry. by apply same_identity_health_url. }
    cbn [replies failed]. rewrite Hurl. fold (health_reply env st s).
    destruct (IH (match reported (health_reply env st s) with
                  | Some _ => u | None => u ++ [s] end) st1)
      as (st' & Hrun & Hf & Hcap).
    { eapply same_identity_trans; [exact Hid | apply Hf1]. }
    exists st'. rewrite Hrun, Hcalls. split.
    { destruct (reported (health_reply env st s)); [done|].
      by rewrite <- app_assoc. }
    split.
    { change (s :: l) with ([s] ++ l). by eapply polled_frame_trans. }
    intros Hnd i s' rep Hi Hr. apply NoDup_cons in Hnd as [Hnotin Hnd].
    destruct i as [|i]; cbn in Hi, Hr.
    + inversion Hi; inversion Hr; subst.
      destruct Hf as (_ & _ & Hh & _).
      unfold capacity, closable.
      rewrite !(lookup_total_alt (heap st')), (Hh s' Hnotin).
      rewrite <- !lookup_total_alt.
      destruct (update_state_total env s' st) as (ok & st1' & E').
      assert (r = Ok ok /\ st1' = st1) as [-> ->].
      { rewrite E in E'. by injection E'. }
      destruct ok.
      * destruct (update_state_true env s' st st1 E)
          as (b & c & -> & _ & Hc & Hb). done.
      * destruct (update_state_false env s' st st1 E) as (-> & Hc).
        apply Hc.
    + rewrite <- Hcalls in Hr. specialize (Hcap Hnd i s' rep Hi Hr).
      destruct (reported rep) as [[b c]|]; [done|].
      rewrite Hcap. destruct Hf1 as (_ & _ & Hh1 & _).
      unfold capacity. rewrite !(lookup_total_alt (heap st1)), Hh1; [done|].
      rewrite list_elem_of_singleton. intros ->.
      apply Hnotin. by eapply list_elem_of_lookup_2.
Qed.

End PollStandby.

(** *** The claims on the scale branches *)

Section ScaleClaims.

Context {TaskDescription : Type} (env : Env TaskDescription).

(** The three outcomes of the scale decision can be told apart: the upscale
    branch requests an instance or shortens the standby pool; the downscale
    branch lengthens the standby pool or ends with an exception, and makes no
    request. *)
Lemma upscale_acts st : upscale env st <> (Ok tt, st).
Proof.
  intros H. destruct (standby_servers (self st)) as [|s rest] eqn:Hs.
  - rewrite (upscale_provision env st Hs) in H.
    destruct (add_server_spec env st) as (ok & st' & Hadd & Hc & _).
    rewrite Hadd in H. cbn [snd] in H. injection H as ->. lia.
  - rewrite (upscale_recall env st s rest Hs) in H. injection H as H.
    apply (f_equal (fun x => length (standby_servers (self x)))) in H.
    cbn in H. rewrite Hs in H. cbn in H. lia.
Qed.

Lemma downscale_acts st : downscale st <> (Ok tt, st).
Proof.
  intros H.
  destruct (available_servers (self st) !! get_available_server_index st)
    as [s|] eqn:Hs.
  - rewrite (downscale_spec st s Hs) in H. injection H as H.
    apply (f_equal (fun x => length (standby_servers (self x)))) in H.
    cbn in H. rewrite length_app in H. cbn in H. lia.
  - rewrite (downscale_out_of_range st Hs) in H. discriminate.
Qed.

Lemma upscale_not_downscale st : upscale env st <> downscale st.
Proof.
  intros H.
  assert (Hd : launch_count (snd (downscale st)) = launch_count st /\
               (fst (downscale st) = Ok tt ->
                length (standby_servers (self (snd (downscale st))))
                = S (length (standby_servers (self st))))).
  { destruct (available_servers (self st) !! get_available_server_index st)
      as [s|] eqn:Hs.
    - rewrite (downscale_spec st s Hs). cbn. rewrite length_app. cbn.
      split; [done | lia].
    - rewrite (downscale_out_of_range st Hs). cbn. split; [done|discriminate]. }
  rewrite <- H in Hd. destruct Hd as [Hc Hl].
  destruct (standby_servers (self st)) as [|s rest] eqn:Hs.
  - rewrite (upscale_provision env st Hs) in Hc.
    destruct (add_server_spec env st) as (ok & st' & Hadd & Hc' & _).
    rewrite Hadd in Hc. cbn [snd] in Hc. lia.
  - rewrite (upscale_recall env st s rest Hs) in Hl.
    specialize (Hl eq_refl). cbn in Hl. lia.
Qed.

(** C2. The upscale branch is taken exactly when the aggregate is below
    [upscale_margin].  The downscale branch is tested in the [elif]: it is
    taken exactly when the aggregate is not below [upscale_margin], is above
    [downscale_margin], and the active pool has at least 2 servers.  With
    [upscale_margin < downscale_margin] the first of these three conditions
    follows from the second: the downscale branch is taken exactly when the
    aggregate is above [downscale_margin] and the active pool has at least 2
    servers, and the conditions of the two branches never hold together.
    This is stated of the decision ([scale_action]) and of what [scale] does:
    [scale] does what the upscale branch does exactly under the first
    condition, what the downscale branch does exactly under the second, and
    nothing at all (same state, no call) exactly when neither holds. *)
Theorem scale_decision st :
  (scale_action st = Upscale <->
   total_available_capacity (self st) < upscale_margin (self st)) /\
  (scale_action st = Upscale -> scale env st = upscale env st) /\
  (scale_action st = Downscale -> scale env st = downscale st) /\
  (scale_action st = Downscale <->
   ~ total_available_capacity (self st) < upscale_margin (self st) /\
   downscale_margin (self st) < total_available_capacity (self st) /\
   (2 <= length (available_servers (self st)))%nat) /\
  (upscale_margin (self st) < downscale_margin (self st) ->
   (scale_action st = Downscale <->
    downscale_margin (self st) < total_available_capacity (self st) /\
    (2 <= length (available_servers (self st)))%nat) /\
   ~ (total_available_capacity (self st) < upscale_margin (self st) /\
      (downscale_margin (self st) < total_available_capacity (self st) /\
       (2 <= length (available_servers (self st)))%nat))) /\
  (scale_action st = NoAction -> scale env st = (Ok tt, st)) /\
  (scale env st = upscale env st <->
   total_available_capacity (self st) < upscale_margin (self st)) /\
  (scale env st = downscale st <->
   ~ total_available_capacity (self st) < upscale_margin (self st) /\
   downscale_margin (self st) < total_available_capacity (self st) /\
   (2 <= length (available_servers (self st)))%nat) /\
  (scale env st = (Ok tt, st) <->
   ~ total_available_capacity (self st) < upscale_margin (self st) /\
   ~ (downscale_margin (self st) < total_available_capacity (self st) /\
      (2 <= length (available_servers (self st)))%nat)) /\
  (upscale_margin (self st) < downscale_margin (self st) ->
   (scale env st = downscale st <->
    downscale_margin (self st) < total_available_capacity (self st) /\
    (2 <= length (available_servers (self st)))%nat)).
Proof.
  destruct (scale_action_cases st) as (Hup & Hdown & Hnone).
  assert (Hnot : upscale_test st = false <->
                 ~ total_available_capacity (self st) < upscale_margin (self st)).
  { rewrite <- upscale_test_spec. destruct (upscale_test st); split; done. }
  assert (Hnotd : downscale_test st = false <->
                  ~ (downscale_margin (self st)
                       < total_available_capacity (self st) /\
                     (2 <= length (available_servers (self st)))%nat)).
  { rewrite <- downscale_test_spec. destruct (downscale_test st); split; done. }
  assert (Hup' : scale_action st = Upscale <->
                 total_available_capacity (self st) < upscale_margin (self st))
    by (by rewrite Hup, upscale_test_spec).
  assert (Hdown' : scale_action st = Downscale <->
            ~ total_available_capacity (self st) < upscale_margin (self st) /\
            downscale_margin (self st) < total_available_capacity (self st) /\
            (2 <= length (available_servers (self st)))%nat)
    by (by rewrite Hdown, Hnot, downscale_test_spec).
  assert (Hnone' : scale_action st = NoAction <->
            ~ total_available_capacity (self st) < upscale_margin (self st) /\
            ~ (downscale_margin (self st)
                 < total_available_capacity (self st) /\
               (2 <= length (available_servers (self st)))%nat))
    by (by rewrite Hnone, Hnot, Hnotd).
  pose proof (upscale_acts st) as Hua.
  pose proof (downscale_acts st) as Hda.
  pose proof (upscale_not_downscale st) as Hud.
  assert (Hrun_up : scale env st = upscale env st <-> scale_action st = Upscale).
  { rewrite scale_eq. destruct (scale_action st); split;
      try discriminate; try reflexivity; intros H; exfalso;
      first [by apply Hud | by apply Hua | by apply Hda]. }
  assert (Hrun_down : scale env st = downscale st
                      <-> scale_action st = Downscale).
  { rewrite scale_eq. destruct (scale_action st); split;
      try discriminate; try reflexivity; intros H; exfalso;
      first [by apply Hud | by apply Hua | by apply Hda]. }
  assert (Hrun_none : scale env st = (Ok tt, st)
                      <-> scale_action st = NoAction).
  { rewrite scale_eq. destruct (scale_action st); split;
      try discriminate; try reflexivity; intros H; exfalso;
      first [by apply Hud | by apply Hua | by apply Hda]. }
  split; [exact Hup'|].
  split; [intros H; by rewrite scale_eq, H|].
  split; [intros H; by rewrite scale_eq, H|].
  split; [exact Hdown'|].
  split.
  { intros Hmargins. split; [|lia].
    rewrite Hdown'. split; [tauto|].
    intros [Hd Hlen]. split; [lia | done]. }
  split; [intros H; by rewrite scale_eq, H|].
  split; [by rewrite Hrun_up|].
  split; [by rewrite Hrun_down|].
  split; [by rewrite Hrun_none|].
  intros Hmargins. rewrite Hrun_down, Hdown'. split; [tauto|].
  intros [Hd Hlen]. split; [lia | done].
Qed.

(** C4. When the downscale branch is taken, the active server with the
    greatest [available_capacity], the first one among equals, leaves the
    active pool for the end of the standby pool, and its capacity is
    subtracted from the aggregate; nothing else changes.  With two active
    servers of capacities 8 and 9, an aggregate of 17 and
    [upscale_margin < downscale_margin = 10], the branch is taken, the server
    of capacity 9 goes to standby and the aggregate becomes 8. *)
Theorem downscale_moves_first_maximum st :
  (scale_action st = Downscale ->
   exists s st',
     available_servers (self st) !! get_available_server_index st = Some s /\
     (forall j s', available_servers (self st) !! j = Some s' ->
                   capacity st s' <= capacity st s) /\
     (forall j s', (j < get_available_server_index st)%nat ->
                   available_servers (self st) !! j = Some s' ->
                   capacity st s' < capacity st s) /\
     scale env st = (Ok tt, st') /\
     available_servers (self st') =
       delete (get_available_server_index st) (available_servers (self st)) /\
     standby_servers (self st') = standby_servers (self st) ++ [s] /\
     total_available_capacity (self st') =
       total_available_capacity (self st) - capacity st s /\
     heap st' = heap st /\ calls st' = calls st) /\
  (forall a b,
     available_servers (self st) = [a; b] ->
     capacity st a = 8 -> capacity st b = 9 ->
     total_available_capacity (self st) = 17 ->
     downscale_margin (self st) = 10 ->
     upscale_margin (self st) < downscale_margin (self st) ->
     exists st',
       scale env st = (Ok tt, st') /\
       available_servers (self st') = [a] /\
       standby_servers (self st') = standby_servers (self st) ++ [b] /\
       total_available_capacity (self st') = 8).
Proof.
  assert (Hgen : scale_action st = Downscale ->
   exists s st',
     available_servers (self st) !! get_available_server_index st = Some s /\
     (forall j s', available_servers (self st) !! j = Some s' ->
                   capacity st s' <= capacity st s) /\
     (forall j s', (j < get_available_server_index st)%nat ->
                   available_servers (self st) !! j = Some s' ->
                   capacity st s' < capacity st s) /\
     scale env st = (Ok tt, st') /\
     available_servers (self st') =
       delete (get_available_server_index st) (available_servers (self st)) /\
     standby_servers (self st') = standby_servers (self st) ++ [s] /\
     total_available_capacity (self st') =
       total_available_capacity (self st) - capacity st s /\
     heap st' = heap st /\ calls st' = calls st).
  { intros Hact.
    assert (Hne : available_servers (self st) <> []).
    { apply scale_action_cases in Hact as [_ Hd].
      apply downscale_test_spec in Hd as [_ Hlen].
      intros Hnil. rewrite Hnil in Hlen. cbn in Hlen. lia. }
    destruct (get_available_server_index_spec st Hne) as (s & Hs & Hmax & Hfst).
    exists s. eexists. split; [exact Hs|]. split; [exact Hmax|].
    split; [exact Hfst|].
    rewrite scale_eq, Hact, (downscale_spec st s Hs).
    split; [reflexivity|]. done. }
  split; [exact Hgen|].
  intros a b Hl Ha Hb Htot Hdown Hup.
  assert (Hact : scale_action st = Downscale).
  { apply scale_action_cases. split.
    - apply not_true_is_false. rewrite upscale_test_spec. lia.
    - apply downscale_test_spec. rewrite Hl. cbn. lia. }
  destruct (Hgen Hact)
    as (s & st' & Hs & Hmax & _ & Hrun & Hav & Hsb & Htot' & _).
  assert (Hidx : get_available_server_index st = 1%nat /\ s = b).
  { rewrite Hl in Hs. specialize (Hmax 1%nat b). rewrite Hl in Hmax.
    specialize (Hmax eq_refl).
    destruct (get_available_server_index st) as [|[|i]]; cbn in Hs.
    - injection Hs as <-. lia.
    - injection Hs as <-. done.
    - discriminate. }
  destruct Hidx as [Hidx ->].
  exists st'. split; [exact Hrun|].
  rewrite Hav, Hsb, Htot', Hidx, Hl, Htot, Hb. done.
Qed.

(** C5. When the upscale branch is taken and the standby pool is not empty,
    its first server moves to the end of the active pool, its capacity is
    added to the aggregate, and no call is made: no instance is requested.
    When the standby pool is empty, [add_server] runs, once: it requests one
    instance, and succeeds exactly when the request, the launch of the task
    and the construction of the object all succeed; then one new object, with
    capacity 0, is at the end of the active pool; otherwise the store and
    both pools are as before.  It never raises.  Over a whole cycle, however
    it ends, at most one instance is requested. *)
Theorem upscale_recalls_or_provisions st :
  (scale_action st = Upscale ->
   (forall s rest,
      standby_servers (self st) = s :: rest ->
      exists st',
        scale env st = (Ok tt, st') /\
        available_servers (self st') = available_servers (self st) ++ [s] /\
        standby_servers (self st') = rest /\
        total_available_capacity (self st') =
          total_available_capacity (self st) + capacity st s /\
        heap st' = heap st /\ calls st' = calls st) /\
   (standby_servers (self st) = [] ->
    exists ok st',
      add_server env st = (Ok ok, st') /\
      (ok = true <->
       exists task srv st3,
         launch_ecs_instance env (calls st) = Ok tt /\
         launch_task env (task_family (self st))
                     (LaunchEcsInstance :: calls st) = Ok task /\
         Server_init env task
           (log (LaunchTask (task_family (self st)))
                (log LaunchEcsInstance st)) = (Ok srv, st3)) /\
      scale env st = (Ok tt, st') /\
      launch_count st' = S (launch_count st) /\
      standby_servers (self st') = [] /\
      total_available_capacity (self st') =
        total_available_capacity (self st) /\
      if ok then
        exists srv,
          let r := fresh (dom (heap st)) in
          (r ∉ dom (heap st)) /\
          heap st' = <[r := srv]> (heap st) /\
          available_servers (self st') = available_servers (self st) ++ [r] /\
          status srv = "RUNNING" /\
          available_capacity srv = 0 /\ ready_to_close srv = false
      else
        heap st' = heap st /\ self st' = self st)) /\
  (forall r st',
     cycle env st = (r, st') -> (launch_count st' <= S (launch_count st))%nat).
Proof.
  split; [|apply cycle_launch_bound].
  intros Hact. split.
  - intros s rest Hs. eexists.
    rewrite scale_eq, Hact, (upscale_recall env st s rest Hs).
    split; [reflexivity|]. done.
  - intros Hs.
    destruct (add_server_spec env st) as (ok & st' & Hadd & Hc & H).
    exists ok, st'. split; [exact Hadd|].
    split.
    { rewrite <- add_server_true_iff, Hadd. cbn.
      split; [by intros -> | by intros [= ->]]. }
    rewrite scale_eq, Hact, (upscale_provision env st Hs), Hadd.
    split; [reflexivity|]. split; [exact Hc|].
    destruct ok.
    + destruct H as (srv & Hh & Hself & Hst & Hcap & Hrdy).
      rewrite Hself. cbn. split; [exact Hs|]. split; [reflexivity|].
      exists srv. split; [apply is_fresh|]. done.
    + destruct H as [Hh Hself]. rewrite Hself. done.
Qed.

End ScaleClaims.

(** *** Capacities and failed polls *)

Section CapacityClaims.

Context {TaskDescription : Type} (env : Env TaskDescription).

(** C8 (as the code has it). A new [Server] starts with capacity 0.  A
    successful poll stores the reported value.  A failed poll of an active
    server stores 0: the turn of the poll loop for a server whose
    [update_state] fails leaves it with capacity 0, in the unresponsive list;
    and, the active pool being free of repetitions, once the loop is through
    every active server holds the capacity its reply reports, or 0 if its
    poll failed.  When the health reporter reports no negative capacity, a
    cycle, however it ends, keeps every capacity of the store non-negative.
    [get_available_server] decrements without a test: on a non-empty
    active pool it keeps the capacities non-negative exactly when the
    selected server, which holds the greatest capacity, had a positive one;
    this is so whenever some active server has a positive capacity. *)
Theorem capacity_nonneg st :
  (forall arn s st',
     Server_init env arn st = (Ok s, st') -> available_capacity s = 0) /\
  (forall s st1,
     update_state env s st = (Ok true, st1) ->
     exists b c,
       reported (health_reply env st s) = Some (b, c) /\ capacity st1 s = c) /\
  (forall s acc u st1,
     update_state env s st = (Ok false, st1) ->
     exists st2,
       poll_available env [s] acc u st = (Ok (acc, u ++ [s]), st2) /\
       capacity st2 s = 0 /\
       forall x, x <> s -> capacity st2 x = capacity st1 x) /\
  (exists ua st1,
     poll_and_commit env st = (Ok ua, st1) /\
     (NoDup (available_servers (self st)) ->
      forall i s rep,
        available_servers (self st) !! i = Some s ->
        replies env st (available_servers (self st)) (calls st) !! i
          = Some rep ->
        match reported rep with
        | Some (_, c) => capacity st1 s = c
        | None => capacity st1 s = 0 /\ s ∈ ua
        end)) /\
  (reports_nonneg env -> nonneg st ->
   forall r st', cycle env st = (r, st') -> nonneg st') /\
  (nonneg st -> available_servers (self st) <> [] ->
   exists s st',
     get_available_server st = (Ok s, st') /\
     capacity st' s = capacity st s - 1 /\
     (nonneg st' <-> 0 < capacity st s) /\
     ((exists s', s' ∈ available_servers (self st) /\ 0 < capacity st s') ->
      nonneg st')).
Proof.
  split.
  { intros arn s st' E.
    destruct (Server_init_spec env arn st _ st' E) as (_ & _ & _ & H).
    by destruct (H s eq_refl) as (_ & _ & ? & _). }
  split.
  { intros s st1 E.
    destruct (update_state_true env s st st1 E) as (b & c & Hrep & _ & Hc & _).
    by exists b, c. }
  split.
  { intros s acc u st1 E.
    destruct (update_state_false env s st st1 E) as [Hrep _].
    exists (set_capacity s 0 st1).
    rewrite poll_available_cons, Hrep, E. cbn [snd poll_available].
    unfold ret. rewrite Z.add_0_r. split; [reflexivity|].
    split; intros; rewrite capacity_set_capacity.
    - by destruct (decide (s = s)).
    - by destruct (decide (s = x)). }
  split.
  { destruct (poll_and_commit_spec env st) as (st0 & _ & _ & Hcap0 & Hrun).
    eexists _, _. split; [exact Hrun|].
    intros Hnd i s rep Hi Hr.
    change (capacity (set_total_available_capacity _ st0) s)
      with (capacity st0 s).
    rewrite (Hcap0 Hnd i s rep Hi Hr). unfold contribution.
    destruct (reported rep) as [[b c]|] eqn:Hrep; [done|].
    split; [done|]. by eapply failed_elem_of. }
  split.
  { intros Henv Hst r st' E. by eapply cycle_nonneg. }
  intros Hst Hne.
  destruct (get_available_server_index_spec st Hne) as (s & Hs & Hmax & _).
  pose proof (get_available_server_nonempty st s Hs) as Hrun.
  assert (Hdec : capacity (set_capacity s (capacity st s - 1) st) s
                 = capacity st s - 1).
  { rewrite capacity_set_capacity. by destruct (decide (s = s)). }
  assert (Hpos : (exists s', s' ∈ available_servers (self st)
                             /\ 0 < capacity st s') -> 0 < capacity st s).
  { intros (s' & Hin & Hp). apply list_elem_of_lookup in Hin as [j Hj].
    specialize (Hmax j s' Hj). lia. }
  exists s. eexists. split; [exact Hrun|]. split; [exact Hdec|].
  assert (Hiff : nonneg (set_capacity s (capacity st s - 1) st)
                 <-> 0 < capacity st s).
  { split.
    - intros H. specialize (H s). rewrite Hdec in H. lia.
    - intros H x. rewrite capacity_set_capacity.
      destruct (decide (s = x)); [lia | apply Hst]. }
  split; [exact Hiff|]. intros H. apply Hiff, Hpos, H.
Qed.

(** C9 (as the code has it). The two poll loops of a cycle never raise.
    An active server whose poll fails contributes 0 to the aggregate, is
    appended to the unresponsive list of the cycle and, the pools being free
    of repetitions, holds capacity 0 after the loops.  A standby server
    whose poll fails is appended to the unresponsive list as well.  No
    attribute that identifies a server changes: [status] is what it was. *)
Theorem failed_poll_recorded st :
  let la := available_servers (self st) in
  let ls := standby_servers (self st) in
  let ra := replies env st la (calls st) in
  exists st1 st2,
    poll_and_commit env st = (Ok (failed la ra), st1) /\
    let rs := replies env st ls (calls st1) in
    poll_standby env (standby_servers (self st1)) (failed la ra) st1 =
      (Ok (failed la ra ++ failed ls rs), st2) /\
    total_available_capacity (self st2) = sum_Z (contribution <$> ra) /\
    same_identity st st2 /\
    (forall s, status (heap st2 !!! s) = status (heap st !!! s)) /\
    (forall i s rep,
       la !! i = Some s -> ra !! i = Some rep -> reported rep = None ->
       contribution rep = 0 /\
       s ∈ failed la ra ++ failed ls rs /\
       (NoDup (la ++ ls) -> capacity st2 s = 0)) /\
    (forall i s rep,
       ls !! i = Some s -> rs !! i = Some rep -> reported rep = None ->
       s ∈ failed la ra ++ failed ls rs).
Proof.
  intros la ls ra.
  destruct (poll_and_commit_spec env st) as (st0 & _ & Hf0 & Hcap0 & Hrun).
  fold la in Hf0, Hcap0, Hrun. fold ra in Hcap0, Hrun.
  set (st1 := set_total_available_capacity (sum_Z (contribution <$> ra)) st0)
    in *.
  assert (Hid1 : same_identity st st1) by apply Hf0.
  assert (Hself1 : standby_servers (self st1) = ls).
  { destruct Hf0 as (Hs & _). cbn. by rewrite Hs. }
  destruct (poll_standby_spec env ls st (failed la ra) st1 Hid1)
    as (st2 & Hrun2 & Hf2 & _).
  exists st1, st2. split; [exact Hrun|]. cbv zeta. rewrite Hself1.
  split; [exact Hrun2|].
  destruct Hf2 as (Hs2 & Hid2 & Hh2 & _).
  split; [by rewrite Hs2|].
  assert (Hid : same_identity st st2) by (by eapply same_identity_trans).
  split; [exact Hid|]. split; [intros s; apply Hid|].
  split.
  - intros i s rep Hi Hr Hrep. split; [by apply contribution_failed|].
    split.
    { apply elem_of_app. left. by eapply failed_elem_of. }
    intros Hnd. apply NoDup_app in Hnd as (Hna & Hdisj & _).
    assert (Hin : s ∈ la) by (by eapply list_elem_of_lookup_2).
    unfold capacity. rewrite lookup_total_alt, (Hh2 s (Hdisj s Hin)).
    rewrite <- lookup_total_alt.
    change (capacity st0 s = 0).
    rewrite (Hcap0 Hna i s rep Hi Hr). by apply contribution_failed.
  - intros i s rep Hi Hr Hrep.
    apply elem_of_app. right. by eapply failed_elem_of.
Qed.

End CapacityClaims.

(** *** The whole cycle *)

Lemma failed_sublist (l : list loc) (rs : list (result health_json)) :
  failed l rs `sublist_of` l.
Proof.
  revert rs. induction l as [|s l IH]; intros [|r rs]; cbn;
    try apply sublist_nil_l.
  destruct (reported r); [apply sublist_cons | apply sublist_skip]; apply IH.
Qed.

Section WholeCycle.

Context {TaskDescription : Type} (env : Env TaskDescription).

(** The scale decision never raises: the index that the downscale branch
    pops is in range. *)
Lemma scale_total st : exists st', scale env st = (Ok tt, st').
Proof.
  rewrite scale_eq. destruct (scale_action st) eqn:Hact.
  - destruct (standby_servers (self st)) as [|s rest] eqn:Hs.
    + rewrite (upscale_provision env st Hs). eauto.
    + rewrite (upscale_recall env st s rest Hs). eauto.
  - assert (Hne : available_servers (self st) <> []).
    { apply scale_action_cases in Hact as [_ Hd].
      apply downscale_test_spec in Hd as [_ Hlen].
      intros Hnil. rewrite Hnil in Hlen. cbn in Hlen. lia. }
    destruct (get_available_server_index_spec st Hne) as (s & Hs & _).
    rewrite (downscale_spec st s Hs). eauto.
  - eauto.
Qed.

(** The settings never change. *)
Lemma settings_stable st0 : stable env (fun st => settings st = settings st0).
Proof. split; done. Qed.

Lemma add_server_settings st0 :
  hoare (fun st => settings st = settings st0) (add_server env)
        (fun st => settings st = settings st0).
Proof.
  intros st r st' Hst E.
  destruct (add_server_spec env st) as (ok & st'' & E' & _ & H).
  rewrite E in E'. injection E' as -> ->.
  destruct ok.
  - destruct H as (srv & _ & Hs & _). unfold settings in *. by rewrite Hs.
  - destruct H as [_ Hs]. unfold settings in *. by rewrite Hs.
Qed.

Lemma cycle_settings st r st' :
  cycle env st = (r, st') -> settings st' = settings st.
Proof.
  intros E.
  refine (cycle_stable env _ (settings_stable st) _ (settings_stable st)
            _ _ st r st' eq_refl E); [done | apply add_server_settings].
Qed.

(** The phases of a cycle, in order.  The only exception a cycle can end
    with is one that [time.sleep] raises.  From well-formed pools, the list
    handed to the last loop has no repetition and the pools are well formed
    when the loop starts. *)
Lemma cycle_phases st :
  let la := available_servers (self st) in
  let ls := standby_servers (self st) in
  let ra := replies env st la (calls st) in
  exists st1 st2 st3 st4,
    let u := failed la ra ++ failed ls (replies env st ls (calls st1)) in
    poll_and_commit env st = (Ok (failed la ra), st1) /\
    poll_standby env ls (failed la ra) st1 = (Ok u, st2) /\
    scale env st2 = (Ok tt, st3) /\
    evict_standby env st3 = (Ok tt, st4) /\
    cycle env st =
      match time_sleep env (thread_sleep_time (self st)) (calls st4) with
      | Ok _ =>
          recheck_all env u (log (Sleep (thread_sleep_time (self st))) st4)
      | Raise e => (Raise e, log (Sleep (thread_sleep_time (self st))) st4)
      end /\
    (pools_wf st -> NoDup u /\ pools_wf st4).
Proof.
  intros la ls ra.
  destruct (poll_and_commit_spec env st) as (st0 & _ & Hf0 & _ & Hrun1).
  fold la in Hf0, Hrun1. fold ra in Hrun1.
  set (st1 := set_total_available_capacity (sum_Z (contribution <$> ra)) st0)
    in *.
  assert (Hid1 : same_identity st st1) by apply Hf0.
  assert (Hls : standby_servers (self st1) = ls).
  { destruct Hf0 as (Hs & _). cbn. by rewrite Hs. }
  destruct (poll_standby_spec env ls st (failed la ra) st1 Hid1)
    as (st2 & Hrun2 & _).
  destruct (scale_total st2) as (st3 & Hrun3).
  pose proof (evict_standby_spec env st3) as Hrun4.
  set (st4 := set_standby_servers _ _) in Hrun4.
  exists st1, st2, st3, st4. cbv zeta.
  split; [exact Hrun1|]. split; [exact Hrun2|]. split; [exact Hrun3|].
  split; [exact Hrun4|].
  assert (Hset : settings st4 = settings st).
  { pose proof (poll_and_commit_stable env _ (settings_stable st)
                  st _ st1 eq_refl Hrun1) as H1.
    pose proof (poll_standby_stable env _ (settings_stable st) ls _
                  st1 _ st2 H1 Hrun2) as H2.
    pose proof (scale_stable env _ (settings_stable st) _
                  (fun _ H => H) (add_server_settings st)
                  st2 _ st3 H2 Hrun3) as H3.
    exact (evict_standby_stable env _ (settings_stable st) st3 _ st4 H3 Hrun4). }
  split.
  - unfold cycle, bind at 1. rewrite Hrun1.
    unfold bind at 1, get_state. rewrite Hls. unfold bind at 1. rewrite Hrun2.
    unfold bind at 1. rewrite Hrun3. unfold bind at 1. rewrite Hrun4.
    unfold bind at 1, get_state.
    assert (Ht : thread_sleep_time (self st4) = thread_sleep_time (self st)).
    { unfold settings in Hset. congruence. }
    rewrite Ht. unfold bind, sleep, extern.
    by destruct (time_sleep env (thread_sleep_time (self st)) (calls st4)).
  - intros Hwf. split.
    + destruct Hwf as [Hnd _]. eapply sublist_NoDup; [exact Hnd|].
      apply sublist_app; apply failed_sublist.
    + pose proof (poll_and_commit_stable env _ (pools_wf_stable env)
                    st _ st1 Hwf Hrun1) as H1.
      pose proof (poll_standby_stable env _ (pools_wf_stable env) ls _
                    st1 _ st2 H1 Hrun2) as H2.
      pose proof (scale_stable env _ (pools_wf_stable env) _
                    (fun _ H => H) (add_server_pools_wf env)
                    st2 _ st3 H2 Hrun3) as H3.
      exact (evict_standby_stable env _ (pools_wf_stable env)
               st3 _ st4 H3 Hrun4).
Qed.

(** As long as [time.sleep] returns on the [thread_sleep_time] of the
    manager, a cycle never raises, nor does any number of cycles. *)
Lemma cycle_total st :
  (forall cs, time_sleep env (thread_sleep_time (self st)) cs = Ok tt) ->
  exists st', cycle env st = (Ok tt, st').
Proof.
  intros Ht. destruct (cycle_phases st) as (st1 & st2 & st3 & st4 & H).
  cbv zeta in H. destruct H as (_ & _ & _ & _ & -> & _).
  rewrite Ht.
  destruct (recheck_all_rechecked env
              (failed (available_servers (self st))
                 (replies env st (available_servers (self st)) (calls st))
               ++ failed (standby_servers (self st))
                    (replies env st (standby_servers (self st)) (calls st1)))
              (log (Sleep (thread_sleep_time (self st))) st4)) as (st' & -> & _).
  eauto.
Qed.

Lemma run_total n st :
  (forall cs, time_sleep env (thread_sleep_time (self st)) cs = Ok tt) ->
  exists st', run env n st = (Ok tt, st').
Proof.
  revert st. induction n as [|n IH]; intros st Ht; cbn [run]; [by eexists|].
  destruct (cycle_total st Ht) as (st1 & E). unfold bind. rewrite E.
  apply IH. apply cycle_settings in E. unfold settings in E.
  assert (Hs : thread_sleep_time (self st1) = thread_sleep_time (self st))
    by congruence.
  by rewrite Hs.
Qed.

(** Over any number of cycles the pools stay well formed and, when the
    health reporter reports no negative capacity, no capacity becomes
    negative. *)
Lemma run_pools_wf n st r st' :
  pools_wf st -> run env n st = (r, st') -> pools_wf st'.
Proof.
  revert st. induction n as [|n IH]; intros st Hst; cbn [run].
  - by intros [= <- <-].
  - unfold bind. destruct (cycle env st) as [[[]|e] st1] eqn:E.
    + apply IH. by eapply cycle_pools_wf.
    + intros [= <- <-]. by eapply cycle_pools_wf.
Qed.

Lemma run_nonneg n st r st' :
  reports_nonneg env -> nonneg st -> run env n st = (r, st') -> nonneg st'.
Proof.
  intros Henv. revert st. induction n as [|n IH]; intros st Hst; cbn [run].
  - by intros [= <- <-].
  - unfold bind. destruct (cycle env st) as [[[]|e] st1] eqn:E.
    + apply IH. by eapply cycle_nonneg.
    + intros [= <- <-]. by eapply cycle_nonneg.
Qed.

End WholeCycle.

(** *** The initial state *)

Lemma sum_capacity_total_capacity st l :
  sum_capacity st l = total_capacity st l.
Proof.
  unfold sum_capacity, total_capacity.
  assert (H : forall a, foldl (fun total s => total + capacity st s) a l
                        = a + foldr (fun s acc => capacity st s + acc) 0 l).
  { induction l as [|s l IH]; intros a; cbn; [lia|]. rewrite IH. lia. }
  apply H.
Qed.

Section Initial.

Context {TaskDescription : Type} (env : Env TaskDescription).

(** The list comprehension of [__init__]: the servers it builds are new,
    distinct objects with capacity 0; the objects there before are as they
    were. *)
Lemma construct_servers_spec arns st r st' :
  construct_servers env arns st = (r, st') ->
  self st' = self st /\
  dom (heap st) ⊆ dom (heap st') /\
  (forall x, x ∈ dom (heap st) -> heap st' !! x = heap st !! x) /\
  (nonneg st -> nonneg st') /\
  forall l, r = Ok l ->
    NoDup l /\
    forall x, x ∈ l ->
      x ∈ dom (heap st') /\ (x ∉ dom (heap st)) /\ capacity st' x = 0.
Proof.
  revert st r st'. induction arns as [|arn arns IH]; intros st r st'.
  { cbn. intros [= <- <-]. do 4 (split; [done|]). intros l [= <-].
    split; [constructor|]. intros x Hx. by apply elem_of_nil in Hx. }
  cbn [construct_servers]. unfold bind at 1.
  destruct (Server_init env arn st) as [[srv|e] st1] eqn:Hinit.
  2:{ intros [= <- <-].
      destruct (Server_init_spec env arn st _ st1 Hinit) as (Hh & Hs & _).
      split; [done|]. split; [by rewrite Hh|].
      split; [intros; by rewrite Hh|].
      split; [intros H x; unfold capacity; rewrite Hh; apply H|].
      intros l [=]. }
  destruct (Server_init_spec env arn st _ st1 Hinit) as (Hh & Hs & _ & Hsrv).
  destruct (Hsrv srv eq_refl) as (_ & _ & Hcap & _).
  unfold bind at 1, alloc. rewrite Hh.
  set (x0 := fresh (dom (heap st))).
  assert (Hfresh : x0 ∉ dom (heap st)) by apply is_fresh.
  set (st2 := set_heap (<[x0:=srv]> (heap st)) st1).
  unfold bind at 1.
  destruct (construct_servers env arns st2) as [r2 st3] eqn:Hrest.
  destruct (IH st2 r2 st3 Hrest) as (Hs3 & Hd3 & Hk3 & Hn3 & Hl3).
  assert (Hd2 : dom (heap st) ⊆ dom (heap st2)).
  { cbn. rewrite dom_insert. apply union_subseteq_r. }
  assert (Hx0 : x0 ∈ dom (heap st2)).
  { cbn. rewrite dom_insert. apply elem_of_union. left.
    by apply elem_of_singleton. }
  assert (Hcommon :
    self st3 = self st /\
    dom (heap st) ⊆ dom (heap st3) /\
    (forall x, x ∈ dom (heap st) -> heap st3 !! x = heap st !! x) /\
    (nonneg st -> nonneg st3)).
  { split; [by rewrite Hs3|]. split; [by etrans|]. split.
    - intros x Hx. rewrite (Hk3 x (Hd2 x Hx)). cbn.
      apply lookup_insert_ne. intros ->. done.
    - intros Hnn. apply Hn3. intros x. unfold capacity. cbn.
      rewrite lookup_total_insert.
      destruct (decide (x0 = x)); [lia | apply Hnn]. }
  destruct Hcommon as (Hc1 & Hc2 & Hc3 & Hc4).
  destruct r2 as [rest|e]; intros [= <- <-];
    (split; [exact Hc1|]); (split; [exact Hc2|]); (split; [exact Hc3|]);
    (split; [exact Hc4|]); intros l [= <-].
  destruct (Hl3 rest eq_refl) as (Hnd & Hrest').
  split.
  - apply NoDup_cons. split; [|exact Hnd].
    intros Hin. by destruct (Hrest' x0 Hin) as (_ & Hnot & _).
  - intros x Hx. apply elem_of_cons in Hx as [->|Hx].
    + split; [by apply Hd3|]. split; [exact Hfresh|].
      unfold capacity. rewrite lookup_total_alt, (Hk3 x0 Hx0). cbn.
      by rewrite lookup_insert_eq.
    + destruct (Hrest' x Hx) as (H1 & H2 & H3).
      split; [exact H1|]. split; [|exact H3].
      intros Hin. apply H2, Hd2, Hin.
Qed.

(** [__init__] leaves well-formed pools: the servers of the running tasks
    in the active pool, or none if a request failed, nothing in standby, an
    aggregate of 0, no negative capacity, and the settings as given. *)
Lemma ServerManagerThread_init_spec family up down t :
  let st := ServerManagerThread_init env family up down t in
  pools_wf st /\ nonneg st /\
  standby_servers (self st) = [] /\
  total_available_capacity (self st) = 0 /\
  total_available_capacity (self st)
    = total_capacity st (available_servers (self st)) /\
  settings st = (family, up, down, t).
Proof.
  cbv zeta. unfold ServerManagerThread_init.
  set (st0 := mkState ∅ (mkManager family [] [] 0 up down t) []).
  assert (Hnn0 : nonneg (log (GetTasks family) st0)).
  { intros x. unfold capacity. cbn. by rewrite lookup_total_empty. }
  assert (Hshape :
    exists l st2,
      try_except
        (task_arns <- extern (GetTasks family) (get_tasks env family) ;;
         construct_servers env task_arns)%exc
        (fun _ => ret []) st0 = (Ok l, st2) /\
      self st2 = self st0 /\ NoDup l /\ nonneg st2 /\
      forall x, x ∈ l -> x ∈ dom (heap st2) /\ capacity st2 x = 0).
  { unfold try_except, bind, extern.
    destruct (get_tasks env family (calls st0)) as [arns|e].
    2:{ exists [], (log (GetTasks family) st0).
        split; [done|]. split; [done|]. split; [constructor|].
        split; [exact Hnn0|]. intros x Hx. by apply elem_of_nil in Hx. }
    destruct (construct_servers env arns (log (GetTasks family) st0))
      as [r st1] eqn:E.
    destruct (construct_servers_spec arns _ r st1 E)
      as (Hs & _ & _ & Hnn & Hl).
    destruct r as [l|e].
    - exists l, st1. destruct (Hl l eq_refl) as (Hnd & Hx).
      split; [done|]. split; [done|]. split; [done|]. split; [auto|].
      intros x Hin. by destruct (Hx x Hin) as (? & _ & ?).
    - exists [], st1.
      split; [done|]. split; [done|]. split; [constructor|]. split; [auto|].
      intros x Hx. by apply elem_of_nil in Hx. }
  destruct Hshape as (l & st2 & -> & Hs2 & Hnd & Hnn & Hx).
  assert (Hzero : total_capacity st2 l = 0).
  { assert (H : forall x, x ∈ l -> capacity st2 x = 0).
    { intros x Hin. by apply Hx. }
    clear -H. induction l as [|x l IH]; [done|].
    rewrite total_capacity_cons, (H x), IH; [done| |apply list_elem_of_here].
    intros y Hy. apply H. by apply list_elem_of_further. }
  rewrite sum_capacity_total_capacity, Hzero.
  split.
  { split; cbn; rewrite Hs2; cbn; rewrite app_nil_r; [done|].
    intros x Hin. by apply Hx. }
  split; [exact Hnn|].
  split; [cbn; by rewrite Hs2|]. split; [done|].
  split; [|unfold settings; cbn; by rewrite Hs2].
  cbn. symmetry. exact Hzero.
Qed.

End Initial.

(** ** The claims on the scenarios *)

Lemma nonneg_of_heap st :
  map_Forall (fun _ s => 0 <= available_capacity s) (heap st) -> nonneg st.
Proof.
  intros H s. unfold capacity. rewrite lookup_total_alt.
  destruct (heap st !! s) as [srv|] eqn:E; cbn; [|done].
  by apply (H s srv).
Qed.

Lemma environment_reports_nonneg table cloud_up :
  Forall (fun p => forall c, json_available_capacity p.2 = Some c -> 0 <= c)
         table ->
  reports_nonneg (Scenario.environment table cloud_up).
Proof.
  intros HF u cs j c Hj Hc. cbn in Hj.
  destruct (list_to_map table !! u) as [j'|] eqn:E; [|discriminate].
  injection Hj as ->.
  apply elem_of_list_to_map_2 in E. rewrite Forall_forall in HF.
  by apply (HF _ E c).
Qed.

Module Witness.

Import Scenario.

Lemma two_idle_pool_NoDup :
  NoDup (available_servers (self two_idle)).
Proof. apply (bool_decide_unpack _). vm_compute. exact I. Defined.

(** C1 on two active servers that report 8 and 9: the aggregate is 17, the
    sum of the capacities the store then holds. *)
Lemma poll_and_commit_aggregate_witness :
  NoDup (available_servers (self two_idle)) /\
  exists st',
    poll_and_commit env_8_9 two_idle = (Ok [], st') /\
    total_available_capacity (self st') = 17 /\
    total_available_capacity (self st') =
      total_capacity st' (available_servers (self two_idle)).
Proof.
  split; [exact two_idle_pool_NoDup|].
  destruct (poll_and_commit_aggregate env_8_9 two_idle)
    as (st' & Hrun & _ & _ & Htot & Hnd).
  exists st'. split; [exact Hrun|]. split.
  - rewrite Htot. vm_compute. reflexivity.
  - apply (Hnd two_idle_pool_NoDup).
Defined.

(** C2 on the margins 2 and 10: with an aggregate of 17 on two active
    servers the downscale branch is taken and the upscale branch is not; with
    an aggregate of 4 [scale] does nothing. *)
Lemma scale_decision_witness :
  upscale_margin (self two_polled) < downscale_margin (self two_polled) /\
  scale_action two_polled = Downscale /\
  scale env_8_9 two_polled = downscale two_polled /\
  scale env_8_9 two_polled <> upscale env_8_9 two_polled /\
  scale env_8_9 Cases.with_ready_standby = (Ok tt, Cases.with_ready_standby).
Proof.
  assert (Hm : upscale_margin (self two_polled)
               < downscale_margin (self two_polled)) by (vm_compute; reflexivity).
  split; [exact Hm|].
  destruct (scale_decision env_8_9 two_polled)
    as (_ & _ & Hrun & _ & H & _ & Hup & _).
  destruct (H Hm) as [Hd _].
  assert (Hact : scale_action two_polled = Downscale).
  { apply Hd. split; [vm_compute; reflexivity | vm_compute; lia]. }
  split; [exact Hact|]. split; [exact (Hrun Hact)|]. split.
  - intros E. apply Hup in E. vm_compute in E. discriminate.
  - destruct (scale_decision env_8_9 Cases.with_ready_standby)
      as (_ & _ & _ & _ & _ & _ & _ & _ & Hnone & _).
    apply Hnone. split.
    + vm_compute. discriminate.
    + intros [Hgt _]. vm_compute in Hgt. discriminate.
Defined.

Lemma two_polled_nonempty : available_servers (self two_polled) <> [].
Proof. vm_compute. discriminate. Defined.

(** C3 on capacities 8 and 9: the second server is returned and is left
    with 8; its capacity was positive. *)
Lemma get_available_server_first_maximum_witness :
  available_servers (self two_polled) <> [] /\
  exists s,
    get_available_server two_polled =
      (Ok s, set_capacity s (capacity two_polled s - 1) two_polled) /\
    s = 1%nat /\
    capacity (snd (get_available_server two_polled)) s = 8 /\
    0 < capacity two_polled s.
Proof.
  split; [exact two_polled_nonempty|].
  destruct (get_available_server_first_maximum two_polled two_polled_nonempty)
    as (s & Hs & _ & _ & Hrun & Hdec & Hpos).
  exists s. split; [exact Hrun|].
  assert (Heq : s = 1%nat).
  { vm_compute in Hs. congruence. }
  split; [exact Heq|]. split.
  - rewrite Hdec, Heq. vm_compute. reflexivity.
  - apply Hpos. exists 0%nat. split.
    + apply (bool_decide_unpack _). vm_compute. exact I.
    + vm_compute. reflexivity.
Defined.

(** C10 on capacities 8 and 9: the manager object and the calls are as
    before. *)
Lemma get_available_server_frame_witness :
  available_servers (self two_polled) <> [] /\
  exists s st',
    get_available_server two_polled = (Ok s, st') /\
    self st' = self two_polled /\ calls st' = calls two_polled /\
    heap st' !! 0%nat = heap two_polled !! 0%nat.
Proof.
  split; [exact two_polled_nonempty|].
  destruct (get_available_server_frame two_polled two_polled_nonempty)
    as (s & st' & Hrun & Hs & _ & _ & _ & Hself & Hcalls & Hother & _).
  exists s, st'. split; [exact Hrun|]. split; [exact Hself|].
  split; [exact Hcalls|].
  apply Hother. vm_compute in Hs. intros <-. discriminate.
Defined.

(** C7 on the empty pool. *)
Lemma get_available_server_empty_pool_witness :
  available_servers (self empty_pool) = [] /\
  get_available_server empty_pool = (Raise "IndexError", empty_pool).
Proof.
  split; [reflexivity|].
  apply (get_available_server_empty_pool empty_pool). reflexivity.
Defined.

(** C7 as stated fails: the exception is [IndexError]. *)
Lemma get_available_server_empty_pool_counterexample :
  available_servers (self empty_pool) = [] /\
  fst (get_available_server empty_pool) = Raise "IndexError" /\
  fst (get_available_server empty_pool) <> Raise "NoCapacityAvailable".
Proof.
  split; [reflexivity|]. split; [reflexivity|].
  vm_compute. discriminate.
Qed.

(** C4 on capacities 8 and 9 and the margins 2 and 10: the server of
    capacity 9 goes to standby and the aggregate becomes 8. *)
Lemma downscale_moves_first_maximum_witness :
  upscale_margin (self two_polled) < downscale_margin (self two_polled) /\
  exists st',
    scale env_8_9 two_polled = (Ok tt, st') /\
    available_servers (self st') = [0%nat] /\
    standby_servers (self st') = [1%nat] /\
    total_available_capacity (self st') = 8.
Proof.
  assert (Hm : upscale_margin (self two_polled)
               < downscale_margin (self two_polled)) by (vm_compute; reflexivity).
  split; [exact Hm|].
  destruct (downscale_moves_first_maximum env_8_9 two_polled) as [_ H].
  apply (H 0%nat 1%nat); solve [reflexivity | exact Hm].
Defined.

(** C5 with a server in standby: it is recalled and no call is made.
    With an active server of capacity 1 and nothing in standby, under the
    margins 2 and 10: one instance is requested and the active pool has 2
    servers. *)
Lemma upscale_recalls_or_provisions_witness :
  (scale_action low_with_standby = Upscale /\
   standby_servers (self low_with_standby) = [1%nat] /\
   exists st',
     scale env_1 low_with_standby = (Ok tt, st') /\
     available_servers (self st') = [0%nat; 1%nat] /\
     standby_servers (self st') = [] /\
     total_available_capacity (self st') = 4 /\
     calls st' = []) /\
  (scale_action low_alone = Upscale /\
   standby_servers (self low_alone) = [] /\
   exists st',
     scale env_1 low_alone = (Ok tt, st') /\
     length (available_servers (self st')) = 2%nat /\
     launch_count st' = 1%nat).
Proof.
  split.
  - split; [reflexivity|]. split; [reflexivity|].
    destruct (upscale_recalls_or_provisions env_1 low_with_standby) as [H _].
    destruct (H eq_refl) as [Hrecall _].
    destruct (Hrecall 1%nat [] eq_refl)
      as (st' & Hrun & Hav & Hsb & Htot & _ & Hcalls).
    exists st'. split; [exact Hrun|]. split; [exact Hav|]. split; [exact Hsb|].
    split; [|exact Hcalls].
    rewrite Htot. vm_compute. reflexivity.
  - split; [reflexivity|]. split; [reflexivity|].
    destruct (upscale_recalls_or_provisions env_1 low_alone) as [H _].
    destruct (H eq_refl) as [_ Hprov].
    destruct (Hprov eq_refl)
      as (ok & st' & _ & Hiff & Hrun & Hcount & _ & _ & Hok).
    exists st'. split; [exact Hrun|]. split; [|exact Hcount].
    assert (Htrue : ok = true).
    { apply Hiff. eexists _, _, _.
      split; [reflexivity|]. split; [reflexivity|]. reflexivity. }
    rewrite Htrue in Hok. destruct Hok as (srv & _ & _ & Hav & _).
    rewrite Hav. reflexivity.
Defined.

Lemma two_idle_pools_NoDup :
  NoDup (available_servers (self two_idle) ++ standby_servers (self two_idle)).
Proof. apply (bool_decide_unpack _). vm_compute. exact I. Defined.

Lemma low_with_standby_pools_NoDup :
  NoDup (available_servers (self low_with_standby)
         ++ standby_servers (self low_with_standby)).
Proof. apply (bool_decide_unpack _). vm_compute. exact I. Defined.

Lemma unresponsive_first_NoDup : NoDup ([] ++ 0%nat :: [1%nat]).
Proof. apply (bool_decide_unpack _). vm_compute. exact I. Defined.

Lemma unresponsive_second_NoDup : NoDup ([0%nat] ++ 1%nat :: []).
Proof. apply (bool_decide_unpack _). vm_compute. exact I. Defined.

(** C6 on an unresponsive list of two servers.  The active server answers
    its second poll: it stays in the active pool with the capacity 1 it
    reports.  The standby server does not: it leaves the standby pool and the
    termination of its instance is requested.  The aggregate stays at 1. *)
Lemma recheck_all_unresponsive_witness :
  NoDup ([] ++ 0%nat :: [1%nat]) /\
  NoDup ([0%nat] ++ 1%nat :: []) /\
  NoDup (available_servers (self low_with_standby)
         ++ standby_servers (self low_with_standby)) /\
  (exists st',
     recheck_all env_1 [0%nat; 1%nat] low_with_standby = (Ok tt, st') /\
     (0%nat ∈ available_servers (self st')) /\
     capacity st' 0%nat = 1 /\
     total_available_capacity (self st') = 1) /\
  (exists st',
     recheck_all env_1 [0%nat; 1%nat] low_with_standby = (Ok tt, st') /\
     (1%nat ∉ available_servers (self st')) /\
     (1%nat ∉ standby_servers (self st')) /\
     TerminateEc2 "i-b" ∈ calls st').
Proof.
  split; [exact unresponsive_first_NoDup|].
  split; [exact unresponsive_second_NoDup|].
  split; [exact low_with_standby_pools_NoDup|].
  split.
  - destruct (recheck_all_unresponsive env_1 [] 0%nat [1%nat] low_with_standby
                unresponsive_first_NoDup low_with_standby_pools_NoDup)
      as (st1 & ok & st2 & st3 & st' & E1 & E2 & _ & _ & E & _ & Htot & _
          & _ & Hok).
    exists st'. split; [exact E|].
    assert (Hst1 : st1 = low_with_standby).
    { change ((Ok tt, low_with_standby) = (Ok tt, st1)) in E1. congruence. }
    subst st1.
    assert (Htrue : ok = true).
    { vm_compute in E2. congruence. }
    destruct (Hok Htrue) as (_ & _ & _ & _ & Hin & _ & b & c & Hrep & Hc & _).
    split.
    { apply Hin. apply (bool_decide_unpack _). vm_compute. exact I. }
    split.
    { rewrite Hc. vm_compute in Hrep. congruence. }
    rewrite Htot. vm_compute. reflexivity.
  - destruct (recheck_all_unresponsive env_1 [0%nat] 1%nat [] low_with_standby
                unresponsive_second_NoDup low_with_standby_pools_NoDup)
      as (st1 & ok & st2 & st3 & st' & E1 & E2 & _ & _ & E & _ & _ & _
          & Hfail & _).
    exists st'. split; [exact E|].
    assert (Hfalse : ok = false).
    { vm_compute in E1. injection E1 as <-. vm_compute in E2. congruence. }
    destruct (Hfail Hfalse) as (Ha & Hs & _ & cs1 & cs2 & Hc).
    split; [exact Ha|]. split; [exact Hs|].
    rewrite Hc. apply elem_of_app. right.
    change (ec2_id (heap low_with_standby !!! 1%nat)) with "i-b".
    apply list_elem_of_here.
Defined.

Lemma env_8_9_reports_nonneg : reports_nonneg env_8_9.
Proof.
  apply environment_reports_nonneg.
  repeat constructor; cbn; intros c [= <-]; lia.
Defined.

Lemma two_polled_nonneg : nonneg two_polled.
Proof.
  apply nonneg_of_heap. apply (bool_decide_unpack _). vm_compute. exact I.
Defined.

Lemma two_polled_pool_NoDup : NoDup (available_servers (self two_polled)).
Proof. apply (bool_decide_unpack _). vm_compute. exact I. Defined.

(** C8 (as the code has it) on capacities 8 and 9: a cycle and an
    allocation keep the capacities non-negative; when only the first server
    answers, the second, which held 9, holds 0 after the poll loop and is in
    the unresponsive list. *)
Lemma capacity_nonneg_witness :
  reports_nonneg env_8_9 /\ nonneg two_polled /\
  available_servers (self two_polled) <> [] /\
  NoDup (available_servers (self two_polled)) /\
  nonneg (snd (cycle env_8_9 two_polled)) /\
  nonneg (snd (get_available_server two_polled)) /\
  exists ua st1,
    poll_and_commit env_1 two_polled = (Ok ua, st1) /\
    capacity st1 1%nat = 0 /\ (1%nat ∈ ua).
Proof.
  split; [exact env_8_9_reports_nonneg|]. split; [exact two_polled_nonneg|].
  split; [exact two_polled_nonempty|]. split; [exact two_polled_pool_NoDup|].
  destruct (capacity_nonneg env_8_9 two_polled)
    as (_ & _ & _ & _ & Hcycle & Halloc).
  split; [|split].
  - destruct (cycle env_8_9 two_polled) as [r st'] eqn:E.
    exact (Hcycle env_8_9_reports_nonneg two_polled_nonneg r st' eq_refl).
  - destruct (Halloc two_polled_nonneg two_polled_nonempty)
      as (s & st' & Hrun & _ & _ & Hpos).
    rewrite Hrun. apply Hpos. exists 1%nat. split.
    + apply (bool_decide_unpack _). vm_compute. exact I.
    + vm_compute. reflexivity.
  - destruct (capacity_nonneg env_1 two_polled)
      as (_ & _ & _ & (ua & st1 & Hrun & Hpoll) & _).
    exists ua, st1. split; [exact Hrun|].
    exact (Hpoll two_polled_pool_NoDup 1%nat 1%nat
             (Raise "ConnectionError") eq_refl eq_refl).
Defined.

(** C8 as stated fails: the allocation on a server with no capacity left
    takes its capacity to -1. *)
Lemma capacity_nonneg_counterexample :
  nonneg exhausted /\
  fst (get_available_server exhausted) = Ok 0%nat /\
  capacity (snd (get_available_server exhausted)) 0%nat = -1 /\
  ~ nonneg (snd (get_available_server exhausted)).
Proof.
  split.
  { apply nonneg_of_heap. apply (bool_decide_unpack _). vm_compute. exact I. }
  split; [vm_compute; reflexivity|]. split; [vm_compute; reflexivity|].
  intros H. specialize (H 0%nat). vm_compute in H. by apply H.
Qed.

(** C9 (as the code has it) on two active servers of which the second does
    not answer: it is in the unresponsive list with capacity 0, and its
    [status] is still ['RUNNING']. *)
Lemma failed_poll_recorded_witness :
  NoDup (available_servers (self two_idle) ++ standby_servers (self two_idle)) /\
  exists st1 st2 u,
    poll_and_commit env_1 two_idle = (Ok [1%nat], st1) /\
    poll_standby env_1 (standby_servers (self st1)) [1%nat] st1 = (Ok u, st2) /\
    1%nat ∈ u /\
    capacity st2 1%nat = 0 /\
    total_available_capacity (self st2) = 1 /\
    status (heap st2 !!! 1%nat) = "RUNNING".
Proof.
  split; [exact two_idle_pools_NoDup|].
  destruct (failed_poll_recorded env_1 two_idle)
    as (st1 & st2 & Hrun1 & Hrun2 & Htot & _ & Hstatus & Hact & _).
  assert (Hf : failed (available_servers (self two_idle))
                 (replies env_1 two_idle (available_servers (self two_idle))
                          (calls two_idle)) = [1%nat])
    by (vm_compute; reflexivity).
  rewrite Hf in Hrun1, Hrun2, Hact.
  destruct (Hact 1%nat 1%nat (Raise "ConnectionError"))
    as (_ & Hin & Hzero); try (vm_compute; reflexivity).
  exists st1, st2. eexists. split; [exact Hrun1|]. split; [exact Hrun2|].
  split; [exact Hin|]. split; [exact (Hzero two_idle_pools_NoDup)|].
  split.
  - rewrite Htot. vm_compute. reflexivity.
  - rewrite Hstatus. vm_compute. reflexivity.
Defined.

(** C9 as stated fails: after a failed poll the server is in the
    unresponsive list and its [status] is ['RUNNING'], as before. *)
Lemma failed_poll_recorded_counterexample :
  poll_and_commit env_down exhausted =
    (Ok [0%nat], snd (poll_and_commit env_down exhausted)) /\
  status (heap exhausted !!! 0%nat) = "RUNNING" /\
  status (heap (snd (poll_and_commit env_down exhausted)) !!! 0%nat)
    = "RUNNING" /\
  status (heap (snd (poll_and_commit env_down exhausted)) !!! 0%nat)
    <> "Unresponsive".
Proof.
  split; [vm_compute; reflexivity|]. split; [vm_compute; reflexivity|].
  split; [vm_compute; reflexivity|]. vm_compute. discriminate.
Qed.

(** Whole cycles, computed.  Two active servers report 8 and 9 under the
    margins 2 and 10: the server of capacity 9 goes to standby. *)
Example cycle_two_servers :
  fst (cycle env_8_9 two_idle) = Ok tt /\
  available_servers (self (snd (cycle env_8_9 two_idle))) = [0%nat] /\
  standby_servers (self (snd (cycle env_8_9 two_idle))) = [1%nat] /\
  total_available_capacity (self (snd (cycle env_8_9 two_idle))) = 8.
Proof. vm_compute. repeat split; reflexivity. Qed.

(** One active server reports 1: a new server is provisioned. *)
Example cycle_low_alone :
  fst (cycle env_1 low_alone) = Ok tt /\
  available_servers (self (snd (cycle env_1 low_alone))) = [0%nat; 1%nat] /\
  launch_count (snd (cycle env_1 low_alone)) = 1%nat.
Proof. vm_compute. repeat split; reflexivity. Qed.

(** Nothing answers: the only server fails both polls, leaves the active
    pool, and its termination is requested. *)
Example cycle_unreachable :
  fst (cycle env_down exhausted) = Ok tt /\
  available_servers (self (snd (cycle env_down exhausted))) = [] /\
  calls (snd (cycle env_down exhausted)) =
    [TerminateEc2 "i-a"; RequestsGet (url "a"); Sleep 5; LaunchEcsInstance;
     RequestsGet (url "a")].
Proof. vm_compute. repeat split; reflexivity. Qed.

End Witness.

(** ** Further properties of the two classes *)

(** *** [Server.update_state] and [Server.__init__] *)

Section ServerClass.

Context {TaskDescription : Type} (env : Env TaskDescription).

(** X1. How [update_state] fails.  When the request raises, or the reply has
    no [ready_to_close] (even if it has an [available_capacity]), nothing is
    stored: the store is as before.  When the reply has [ready_to_close] but
    no [available_capacity], the close flag is stored before the lookup of
    the capacity raises: the server holds the new flag and its old
    capacity.  In each case [update_state] returns [False] and raises
    nothing. *)
Theorem update_state_failure_modes s st :
  (forall e, health_reply env st s = Raise e ->
     exists st', update_state env s st = (Ok false, st') /\
                 heap st' = heap st) /\
  (forall j, health_reply env st s = Ok j -> json_ready_to_close j = None ->
     exists st', update_state env s st = (Ok false, st') /\
                 heap st' = heap st) /\
  (forall j b, health_reply env st s = Ok j ->
     json_ready_to_close j = Some b -> json_available_capacity j = None ->
     exists st', update_state env s st = (Ok false, st') /\
                 closable st' s = b /\ capacity st' s = capacity st s /\
                 forall x, x <> s -> heap st' !! x = heap st !! x).
Proof.
  split; [|split].
  - intros e He. rewrite update_state_spec, He. by eexists.
  - intros [r c] He Hr. cbn in Hr. subst r.
    rewrite update_state_spec, He. by eexists.
  - intros [r c] b He Hr Hc. cbn in Hr, Hc. subst r c.
    rewrite update_state_spec, He. cbn. eexists. split; [reflexivity|].
    rewrite closable_set_ready, capacity_set_ready.
    split; [by destruct (decide (s = s))|]. split; [done|].
    intros x Hx. by rewrite lookup_set_ready_ne.
Qed.

(** X2. What [update_state] touches.  Whatever the reply, it raises nothing,
    makes exactly one request, to [http://<address>/health/], leaves the
    manager object and every other server as they are, and changes no
    attribute of the polled server other than [available_capacity] and
    [ready_to_close]. *)
Theorem update_state_effect s st :
  exists ok st',
    update_state env s st = (Ok ok, st') /\
    self st' = self st /\
    calls st' =
      RequestsGet ("http://" +:+ address (heap st !!! s) +:+ "/health/")
      :: calls st /\
    (forall x, x <> s -> heap st' !! x = heap st !! x) /\
    task_arn (heap st' !!! s) = task_arn (heap st !!! s) /\
    status (heap st' !!! s) = status (heap st !!! s) /\
    ec2_id (heap st' !!! s) = ec2_id (heap st !!! s) /\
    address (heap st' !!! s) = address (heap st !!! s).
Proof.
  destruct (update_state_total env s st) as (ok & st' & E).
  destruct (update_state_frame env s st _ st' E) as (Hs & Hc & Hh & Hid & _).
  exists ok, st'. split; [exact E|]. split; [exact Hs|]. split; [exact Hc|].
  split; [exact Hh|]. destruct (Hid s) as (? & ? & ? & ?). done.
Qed.

(** The calls of [Server.__init__], whatever its outcome. *)
Lemma Server_init_calls arn st r st' :
  Server_init env arn st = (r, st') ->
  exists cs, calls st' = cs ++ calls st /\ Forall init_call cs.
Proof.
  unfold Server_init, bind, extern, ret.
  repeat match goal with
  | |- context [match ?x with Ok _ => _ | Raise _ => _ end] => destruct x
  end;
  cbn; intros H; inversion H; subst; cbn [calls log];
  match goal with
  | |- exists cs, ?l = cs ++ calls st /\ _ =>
      let rec go l :=
        lazymatch l with
        | calls st => constr:(@nil call)
        | ?c :: ?l' => let r := go l' in constr:(c :: r)
        end in
      let cs := go l in exists cs
  end;
  (split; [reflexivity | repeat constructor]).
Qed.

(** X3. [Server.__init__] succeeds exactly when its five requests succeed, in
    this order: the wait for the running task, the description of the task,
    the identifier of the instance, the exposed port, the address of the
    instance.  The object then has the given task, the instance the cloud
    named, the address [ip:port], no capacity, and is not ready to close.
    If the wait raises, the constructor raises the same exception and makes
    no other request.  It never writes the store or the manager object. *)
Theorem Server_init_requests arn st :
  exists r st',
    Server_init env arn st = (r, st') /\
    heap st' = heap st /\ self st' = self st /\
    (forall s, r = Ok s <->
       exists td ec2 port ip,
         running_task_waiter env arn (calls st) = Ok tt /\
         get_task_description env arn (RunningTaskWaiter arn :: calls st)
           = Ok td /\
         get_ec2_id env td
           (GetTaskDescription arn :: RunningTaskWaiter arn :: calls st)
           = Ok ec2 /\
         get_exposed_port env td
           (GetEc2Id :: GetTaskDescription arn :: RunningTaskWaiter arn
            :: calls st) = Ok port /\
         get_ip env ec2
           (GetExposedPort :: GetEc2Id :: GetTaskDescription arn
            :: RunningTaskWaiter arn :: calls st) = Ok ip /\
         s = mkServer arn "RUNNING" ec2 (ip +:+ ":" +:+ port) 0 false) /\
    (forall s, r = Ok s ->
       calls st' =
         GetIp (ec2_id s) :: GetExposedPort :: GetEc2Id
         :: GetTaskDescription arn :: RunningTaskWaiter arn :: calls st) /\
    (forall e, running_task_waiter env arn (calls st) = Raise e ->
       r = Raise e /\ calls st' = RunningTaskWaiter arn :: calls st).
Proof.
  destruct (Server_init env arn st) as [r st'] eqn:E.
  exists r, st'. split; [reflexivity|].
  destruct (Server_init_spec env arn st r st' E) as (Hh & Hs & _).
  split; [exact Hh|]. split; [exact Hs|].
  revert E. unfold Server_init, bind, extern, ret. cbn [calls log].
  destruct (running_task_waiter env arn (calls st)) as [[]|e1] eqn:E1.
  2:{ intros [= <- <-]. split; [|split].
      - intros s. split; [discriminate|]. by intros (? & ? & ? & ? & ? & _).
      - discriminate.
      - by intros e [= <-]. }
  destruct (get_task_description env arn _) as [td|e2] eqn:E2.
  2:{ intros [= <- <-]. split; [|split].
      - intros s. split; [discriminate|].
        by intros (? & ? & ? & ? & _ & ? & _).
      - discriminate.
      - discriminate. }
  destruct (get_ec2_id env td _) as [ec2|e3] eqn:E3.
  2:{ intros [= <- <-]. split; [|split].
      - intros s. split; [discriminate|].
        intros (? & ? & ? & ? & _ & [= <-] & ? & _). congruence.
      - discriminate.
      - discriminate. }
  destruct (get_exposed_port env td _) as [port|e4] eqn:E4.
  2:{ intros [= <- <-]. split; [|split].
      - intros s. split; [discriminate|].
        intros (? & ? & ? & ? & _ & [= <-] & _ & ? & _). congruence.
      - discriminate.
      - discriminate. }
  destruct (get_ip env ec2 _) as [ip|e5] eqn:E5.
  2:{ intros [= <- <-]. split; [|split].
      - intros s. split; [discriminate|].
        intros (? & ? & ? & ? & _ & [= <-] & H3 & _ & H5 & _).
        rewrite E3 in H3. injection H3 as <-. congruence.
      - discriminate.
      - discriminate. }
  intros [= <- <-]. split; [|split].
  - intros s. split.
    + intros [= <-]. by exists td, ec2, port, ip.
    + intros (? & ? & ? & ? & _ & [= <-] & H3 & H4 & H5 & ->).
      rewrite E3 in H3. injection H3 as <-.
      rewrite E4 in H4. injection H4 as <-.
      rewrite E5 in H5. injection H5 as <-. done.
  - by intros s [= <-].
  - discriminate.
Qed.

End ServerClass.

(** *** [remove_server] and [add_server] *)

Section Provisioner.

Context {TaskDescription : Type} (env : Env TaskDescription).

Lemma Server_init_ok_calls arn st s st' :
  Server_init env arn st = (Ok s, st') ->
  task_arn s = arn /\
  calls st' =
    GetIp (ec2_id s) :: GetExposedPort :: GetEc2Id
    :: GetTaskDescription arn :: RunningTaskWaiter arn :: calls st.
Proof.
  unfold Server_init, bind, extern, ret. cbn [calls log].
  repeat match goal with
  | |- context [match ?x with Ok _ => _ | Raise _ => _ end] => destruct x
  end; intros H; inversion H; subst. done.
Qed.

(** X4. [remove_server] only asks the cloud to terminate the instance of the
    server: it makes that one request, raises nothing, returns [True]
    exactly when the request succeeds, and removes the server neither from
    the pools nor from the store. *)
Theorem remove_server_only_requests s st :
  exists ok st',
    remove_server env s st = (Ok ok, st') /\
    heap st' = heap st /\ self st' = self st /\
    calls st' = TerminateEc2 (ec2_id (heap st !!! s)) :: calls st /\
    (ok = true <->
     terminate_ec2 env (ec2_id (heap st !!! s)) (calls st) = Ok tt).
Proof.
  unfold remove_server, bind, get_state, try_except, extern, ret.
  destruct (terminate_ec2 env _ _) as [[]|e].
  - exists true. eexists. split; [reflexivity|]. done.
  - exists false. eexists. split; [reflexivity|].
    do 3 (split; [done|]). split; discriminate.
Qed.

(** The requests of [add_server], and what a success registers. *)
Lemma add_server_requests st :
  exists ok st',
    add_server env st = (Ok ok, st') /\
    (exists cs, calls st' = cs ++ [LaunchEcsInstance] ++ calls st /\
                forall ec2, TerminateEc2 ec2 ∉ cs) /\
    (forall e, launch_ecs_instance env (calls st) = Raise e ->
       ok = false /\ calls st' = LaunchEcsInstance :: calls st) /\
    (ok = true ->
     exists task srv,
       launch_task env (task_family (self st)) (LaunchEcsInstance :: calls st)
         = Ok task /\
       task_arn srv = task /\
       heap st' = <[fresh (dom (heap st)) := srv]> (heap st) /\
       (forall x, x ∈ dom (heap st) -> heap st' !! x = heap st !! x) /\
       available_servers (self st') =
         available_servers (self st) ++ [fresh (dom (heap st))] /\
       standby_servers (self st') = standby_servers (self st) /\
       total_available_capacity (self st') =
         total_available_capacity (self st) /\
       calls st' =
         GetIp (ec2_id srv) :: GetExposedPort :: GetEc2Id
         :: GetTaskDescription task :: RunningTaskWaiter task
         :: LaunchTask (task_family (self st)) :: LaunchEcsInstance
         :: calls st).
Proof.
  assert (Hinit : forall cs, Forall init_call cs ->
                             forall ec2, TerminateEc2 ec2 ∉ cs).
  { intros cs Hcs ec2 Hin. rewrite Forall_forall in Hcs.
    exact (Hcs _ Hin). }
  unfold add_server, try_except, bind at 1, extern at 1.
  destruct (launch_ecs_instance env (calls st)) as [[]|e] eqn:E0; cbn -[log].
  2:{ exists false. eexists. split; [reflexivity|]. split.
      - exists []. split; [done|]. intros ec2. apply not_elem_of_nil.
      - split; [|discriminate]. by intros e' _. }
  set (st1 := log LaunchEcsInstance st).
  destruct (launch_task env (task_family (self st1)) (calls st1))
    as [task|e] eqn:E1.
  2:{ exists false. eexists. split; [reflexivity|]. split.
      - exists [LaunchTask (task_family (self st1))]. split; [done|].
        intros ec2 Hin. apply list_elem_of_singleton in Hin. discriminate.
      - split; [discriminate|discriminate]. }
  set (st2 := log (LaunchTask (task_family (self st1))) st1).
  unfold bind at 1.
  destruct (Server_init env task st2) as [r st3] eqn:Hinit3.
  destruct (Server_init_spec env task st2 r st3 Hinit3) as (Hh & Hs & _).
  destruct (Server_init_calls env task st2 r st3 Hinit3) as (cs & Hcs & Hall).
  assert (Hcalls : exists cs', calls st3 = cs' ++ [LaunchEcsInstance] ++ calls st
                               /\ forall ec2, TerminateEc2 ec2 ∉ cs').
  { exists (cs ++ [LaunchTask (task_family (self st1))]). split.
    - rewrite Hcs, <- app_assoc. done.
    - intros ec2 Hin. apply elem_of_app in Hin as [Hin|Hin].
      + by apply (Hinit cs Hall ec2).
      + apply list_elem_of_singleton in Hin. discriminate. }
  destruct r as [srv|e].
  2:{ exists false. eexists. split; [reflexivity|]. split; [exact Hcalls|].
      split; [discriminate|discriminate]. }
  destruct (Server_init_ok_calls task st2 srv st3 Hinit3) as (Harn & Hc3).
  exists true. eexists. unfold bind, alloc, modify, ret; cbn -[log].
  split; [reflexivity|]. cbn [calls set_available_servers set_self set_heap].
  split; [exact Hcalls|]. split; [discriminate|]. intros _.
  exists task, srv. split; [exact E1|]. split; [exact Harn|].
  rewrite Hh, Hs. cbn. split; [done|]. split.
  { intros x Hx. apply lookup_insert_ne. intros <-.
    by apply (is_fresh (dom (heap st))). }
  rewrite !Hs. do 3 (split; [done|]). exact Hc3.
Qed.

(** X5. [add_server] raises nothing and never asks for a termination.  When
    it returns [False], the store and the manager object are as before: if
    the instance was requested and a later step failed, the instance is left
    running, its server in no pool and not in the store.  If the request for
    the instance raises, nothing else is asked.  When [add_server] returns
    [True], the new object is the server of the task that [launch_task] named
    for the task family of the manager, it is the last of the active pool,
    the seven requests were made in order, standby pool and aggregate are as
    before, and no older object changed. *)
Theorem add_server_registers_launched_task st :
  exists ok st',
    add_server env st = (Ok ok, st') /\
    (exists cs, calls st' = cs ++ [LaunchEcsInstance] ++ calls st /\
                forall ec2, TerminateEc2 ec2 ∉ cs) /\
    (ok = false -> heap st' = heap st /\ self st' = self st) /\
    (forall e, launch_ecs_instance env (calls st) = Raise e ->
       ok = false /\ calls st' = LaunchEcsInstance :: calls st) /\
    (ok = true ->
     exists task srv,
       launch_task env (task_family (self st)) (LaunchEcsInstance :: calls st)
         = Ok task /\
       task_arn srv = task /\
       heap st' = <[fresh (dom (heap st)) := srv]> (heap st) /\
       (forall x, x ∈ dom (heap st) -> heap st' !! x = heap st !! x) /\
       available_servers (self st') =
         available_servers (self st) ++ [fresh (dom (heap st))] /\
       standby_servers (self st') = standby_servers (self st) /\
       total_available_capacity (self st') =
         total_available_capacity (self st) /\
       calls st' =
         GetIp (ec2_id srv) :: GetExposedPort :: GetEc2Id
         :: GetTaskDescription task :: RunningTaskWaiter task
         :: LaunchTask (task_family (self st)) :: LaunchEcsInstance
         :: calls st).
Proof.
  destruct (add_server_requests st) as (ok & st' & E & Hcalls & Hraise & Htrue).
  exists ok, st'. split; [exact E|]. split; [exact Hcalls|].
  split; [|split; [exact Hraise | exact Htrue]].
  intros ->.
  destruct (add_server_spec env st) as (ok' & st'' & E' & _ & H).
  rewrite E in E'. injection E' as <- <-. exact H.
Qed.

End Provisioner.

(** *** The phases of [run] *)

Lemma elem_of_evict_calls st l c :
  c ∈ evict_calls st l <->
  exists s, s ∈ l /\ closable st s = true /\
            c = TerminateEc2 (ec2_id (heap st !!! s)).
Proof.
  induction l as [|x l IH]; cbn.
  - rewrite elem_of_nil. split; [done|]. intros (s & Hs & _).
    by apply elem_of_nil in Hs.
  - rewrite elem_of_app, IH. split.
    + intros [(s & Hs & Hc & ->)|Hin].
      * exists s. split; [by apply list_elem_of_further | done].
      * destruct (closable st x) eqn:Hx; [|by apply elem_of_nil in Hin].
        apply list_elem_of_singleton in Hin as ->.
        exists x. split; [apply list_elem_of_here | done].
    + intros (s & Hs & Hc & ->). apply elem_of_cons in Hs as [->|Hs].
      * right. rewrite Hc. apply list_elem_of_here.
      * left. by exists s.
Qed.

Section Phases.

Context {TaskDescription : Type} (env : Env TaskDescription).

(** X6. The poll of the standby pool, on a pool free of repetitions: it
    raises nothing, appends to the unresponsive list the servers whose poll
    failed, and leaves the manager object (pools and aggregate) and every
    server outside the pool as they are.  A standby server that answered
    holds the reported capacity and close flag; one whose poll failed keeps
    the capacity it had: unlike in the active pool, it is not set to 0. *)
Theorem poll_standby_keeps_capacity l u st :
  NoDup l ->
  exists st',
    poll_standby env l u st =
      (Ok (u ++ failed l (replies env st l (calls st))), st') /\
    self st' = self st /\
    (forall x, x ∉ l -> heap st' !! x = heap st !! x) /\
    forall i s rep,
      l !! i = Some s -> replies env st l (calls st) !! i = Some rep ->
      match reported rep with
      | Some (b, c) => capacity st' s = c /\ closable st' s = b
      | None => capacity st' s = capacity st s
      end.
Proof.
  intros Hnd.
  destruct (poll_standby_spec env l st u st (same_identity_refl st))
    as (st' & Hrun & (Hs & _ & Hh & _) & Hcap).
  exists st'. split; [exact Hrun|]. split; [exact Hs|]. split; [exact Hh|].
  exact (Hcap Hnd).
Qed.

(** X7. The eviction of the standby pool raises nothing.  The standby
    servers that are ready to close leave the pool and their termination is
    requested; the others stay, in order; no other request is made.  The
    active pool, the aggregate and the store are as before.  The answer of
    the cloud does not matter: a server whose termination fails has left the
    pool all the same. *)
Theorem evict_standby_drops_ready st :
  exists st',
    evict_standby env st = (Ok tt, st') /\
    standby_servers (self st') =
      filter (fun s => closable st s = false) (standby_servers (self st)) /\
    available_servers (self st') = available_servers (self st) /\
    total_available_capacity (self st') = total_available_capacity (self st) /\
    heap st' = heap st /\
    (forall s, s ∈ standby_servers (self st) -> closable st s = true ->
       (s ∉ standby_servers (self st')) /\
       TerminateEc2 (ec2_id (heap st !!! s)) ∈ calls st') /\
    (forall s, s ∈ standby_servers (self st) -> closable st s = false ->
       s ∈ standby_servers (self st')) /\
    (forall c, c ∈ calls st' ->
       c ∈ calls st \/
       exists s, s ∈ standby_servers (self st) /\ closable st s = true /\
                 c = TerminateEc2 (ec2_id (heap st !!! s))) /\
    (forall env' : Env TaskDescription,
       evict_standby env' st = (Ok tt, st')).
Proof.
  eexists. split; [apply evict_standby_spec|].
  cbn [self standby_servers available_servers total_available_capacity heap
       calls set_standby_servers set_self].
  do 4 (split; [reflexivity|]).
  split.
  { intros s Hin Hc. split.
    - rewrite list_elem_of_filter. intros [Hf _]. congruence.
    - apply elem_of_app. left. apply elem_of_evict_calls. by exists s. }
  split.
  { intros s Hin Hc. by apply list_elem_of_filter. }
  split.
  { intros c Hc. apply elem_of_app in Hc as [Hc|Hc]; [right|by left].
    by apply elem_of_evict_calls. }
  intros env'. apply evict_standby_spec.
Qed.

(** X8. The scale decision raises nothing and moves at most one server.  It
    never empties an active pool that has a server: the downscale branch
    takes exactly one server out of an active pool of at least two.  No
    server leaves the two pools, and at most one enters them: the servers of
    the two pools afterwards are, up to their order, the servers before and
    at most one more, which is a new object of the store; each pool keeps
    the order of the servers that stay in it. *)
Theorem scale_keeps_one_active st :
  exists st',
    scale env st = (Ok tt, st') /\
    (available_servers (self st) <> [] -> available_servers (self st') <> []) /\
    (scale_action st = Downscale ->
     S (length (available_servers (self st')))
       = length (available_servers (self st)) /\
     (1 <= length (available_servers (self st')))%nat /\
     length (standby_servers (self st'))
       = S (length (standby_servers (self st)))) /\
    (length (available_servers (self st'))
       <= S (length (available_servers (self st))))%nat /\
    (length (available_servers (self st))
       <= S (length (available_servers (self st'))))%nat /\
    (length (available_servers (self st) ++ standby_servers (self st))
       <= length (available_servers (self st') ++ standby_servers (self st')))%nat /\
    (length (available_servers (self st') ++ standby_servers (self st'))
       <= S (length (available_servers (self st) ++ standby_servers (self st))))%nat /\
    exists new,
      moved new st st' /\
      (length new <= 1)%nat /\
      (forall x, x ∈ new -> (x ∉ dom (heap st)) /\ x ∈ dom (heap st')).
Proof.
  rewrite scale_eq. destruct (scale_action st) eqn:Hact.
  - destruct (standby_servers (self st)) as [|s rest] eqn:Hs.
    + rewrite (upscale_provision env st Hs).
      destruct (add_server_spec env st) as (ok & st' & Hadd & _ & H).
      rewrite Hadd. cbn [snd]. exists st'. split; [reflexivity|].
      destruct ok.
      * destruct H as (srv & Hh & Hself & _). unfold moved.
        rewrite Hself. cbn. rewrite Hs.
        rewrite !app_nil_r, !length_app. cbn.
        split; [by destruct (available_servers (self st))|].
        split; [discriminate|]. do 4 (split; [lia|]).
        exists [fresh (dom (heap st))]. split; [split|split].
        -- reflexivity.
        -- right. split; [by apply sublist_inserts_r | done].
        -- cbn. lia.
        -- intros x Hx. apply list_elem_of_singleton in Hx as ->.
           split; [apply is_fresh|]. rewrite Hh, dom_insert.
           apply elem_of_union. left. by apply elem_of_singleton.
      * destruct H as [_ Hself]. unfold moved. rewrite Hself, Hs.
        split; [done|]. split; [discriminate|]. do 4 (split; [lia|]).
        exists []. split; [split|split].
        -- by rewrite !app_nil_r.
        -- by left.
        -- cbn. lia.
        -- intros x Hx. by apply elem_of_nil in Hx.
    + rewrite (upscale_recall env st s rest Hs). eexists.
      split; [reflexivity|]. unfold moved. cbn. rewrite Hs.
      rewrite !length_app. cbn.
      split; [by destruct (available_servers (self st))|].
      split; [discriminate|]. do 4 (split; [lia|]).
      exists []. split; [split|split].
      * by rewrite app_nil_r, <- app_assoc.
      * right. split; [by apply sublist_inserts_r | by apply sublist_cons].
      * cbn. lia.
      * intros x Hx. by apply elem_of_nil in Hx.
  - assert (Hlen : (2 <= length (available_servers (self st)))%nat).
    { apply scale_action_cases in Hact as [_ Hd].
      by apply downscale_test_spec in Hd as [_ Hlen]. }
    assert (Hne : available_servers (self st) <> []).
    { intros Hnil. rewrite Hnil in Hlen. cbn in Hlen. lia. }
    destruct (get_available_server_index_spec st Hne) as (s & Hs & _).
    rewrite (downscale_spec st s Hs). eexists. split; [reflexivity|].
    pose proof (lookup_lt_Some _ _ _ Hs) as Hi.
    pose proof (length_delete (available_servers (self st))
                  (get_available_server_index st) (mk_is_Some _ _ Hs)) as Hdel.
    unfold moved. cbn. rewrite !length_app, Hdel. cbn.
    assert (Hdl : (1 <= length (delete (get_available_server_index st)
                                       (available_servers (self st))))%nat)
      by (rewrite Hdel; lia).
    split.
    { intros _ Hnil. rewrite Hnil in Hdl. cbn in Hdl. lia. }
    rewrite Hdel in Hdl.
    split; [intros _; repeat split; lia|]. do 4 (split; [lia|]).
    exists []. split; [split|split].
    + rewrite app_nil_r. by apply pop_append_Permutation.
    + left. split; [apply sublist_delete | by apply sublist_inserts_r].
    + cbn. lia.
    + intros x Hx. by apply elem_of_nil in Hx.
  - exists st. split; [reflexivity|]. split; [done|].
    split; [discriminate|]. do 4 (split; [lia|]).
    exists []. split; [split|split].
    + by rewrite app_nil_r.
    + by left.
    + cbn. lia.
    + intros x Hx. by apply elem_of_nil in Hx.
Qed.

(** X9. A server that fails its second poll: the termination of its
    instance is requested in every case, also when the server is in neither
    pool any more; it leaves the active pool if it is there (the standby
    pool is then untouched), else the standby pool.  Its object stays in the
    store, and the aggregate is not adjusted for the capacity that left. *)
Theorem recheck_failed_effect s st st1 :
  update_state env s st = (Ok false, st1) ->
  exists st',
    recheck env s st = (Ok tt, st') /\
    calls st' =
      TerminateEc2 (ec2_id (heap st !!! s))
      :: RequestsGet (health_url st s) :: calls st /\
    heap st' = heap st1 /\
    total_available_capacity (self st') = total_available_capacity (self st) /\
    (s ∈ available_servers (self st) ->
     standby_servers (self st') = standby_servers (self st) /\
     exists l1 l2,
       available_servers (self st) = l1 ++ s :: l2 /\ (s ∉ l1) /\
       available_servers (self st') = l1 ++ l2) /\
    (s ∉ available_servers (self st) ->
     available_servers (self st') = available_servers (self st)) /\
    (s ∉ available_servers (self st) -> s ∈ standby_servers (self st) ->
     exists l1 l2,
       standby_servers (self st) = l1 ++ s :: l2 /\ (s ∉ l1) /\
       standby_servers (self st') = l1 ++ l2) /\
    (s ∉ available_servers (self st) -> s ∉ standby_servers (self st) ->
     self st' = self st).
Proof.
  intros E.
  destruct (update_state_frame env s st _ st1 E) as (Hself & Hcalls & _ & Hid & _).
  eexists. split; [by apply recheck_failed|].
  cbn [calls log heap self].
  assert (Hec2 : ec2_id (heap st1 !!! s) = ec2_id (heap st !!! s)).
  { by destruct (Hid s) as (_ & _ & ? & _). }
  assert (Hcd : calls (drop_server s st1) = calls st1).
  { unfold drop_server. by repeat destruct (list_remove_first _ _). }
  assert (Hhd : heap (drop_server s st1) = heap st1).
  { unfold drop_server. by repeat destruct (list_remove_first _ _). }
  split; [by rewrite Hec2, Hcd, Hcalls|]. split; [exact Hhd|].
  unfold drop_server. rewrite Hself.
  pose proof (list_remove_first_spec s (available_servers (self st))) as Ha.
  pose proof (list_remove_first_spec s (standby_servers (self st))) as Hs.
  destruct (list_remove_first s (available_servers (self st))) as [la|].
  { destruct Ha as (l1 & l2 & Hl & Hl1 & ->). cbn. rewrite Hself.
    split; [done|]. split.
    { intros _. split; [done|]. by exists l1, l2. }
    assert (Hin : s ∈ available_servers (self st)).
    { rewrite Hl, elem_of_app, elem_of_cons. auto. }
    split; [|split]; intros Hnot; by destruct Hnot. }
  destruct (list_remove_first s (standby_servers (self st))) as [ls|].
  { destruct Hs as (l1 & l2 & Hl & Hl1 & ->). cbn. rewrite Hself.
    split; [done|]. split; [by intros Hin|]. split; [done|].
    split; [intros _ _; by exists l1, l2|].
    intros _ Hnot. destruct Hnot. rewrite Hl, elem_of_app, elem_of_cons. auto. }
  rewrite Hself. split; [done|]. split; [by intros Hin|]. split; [done|].
  split; [by intros _ Hin|done].
Qed.

End Phases.

(** *** Runs, from [__init__] on *)

Lemma total_capacity_ext st st' (l : list loc) :
  (forall x, x ∈ l -> capacity st' x = capacity st x) ->
  total_capacity st' l = total_capacity st l.
Proof.
  induction l as [|x l IH]; intros H; [done|].
  rewrite !total_capacity_cons, (H x) by apply list_elem_of_here.
  rewrite IH; [done|]. intros y Hy. apply H. by apply list_elem_of_further.
Qed.

Lemma total_capacity_app st (l k : list loc) :
  total_capacity st (l ++ k) = total_capacity st l + total_capacity st k.
Proof.
  induction l as [|x l IH]; cbn [app]; [unfold total_capacity; cbn; lia|].
  rewrite !total_capacity_cons, IH. lia.
Qed.

Lemma total_capacity_set_capacity st s c (l : list loc) :
  NoDup l -> s ∈ l ->
  total_capacity (set_capacity s c st) l
  = total_capacity st l - capacity st s + c.
Proof.
  induction l as [|x l IH]; intros Hnd Hin; [by apply elem_of_nil in Hin|].
  apply NoDup_cons in Hnd as [Hx Hnd]. rewrite !total_capacity_cons.
  rewrite capacity_set_capacity.
  apply elem_of_cons in Hin as [->|Hin].
  - destruct (decide (x = x)); [|done].
    rewrite (total_capacity_ext st (set_capacity x c st) l); [lia|].
    intros y Hy. rewrite capacity_set_capacity.
    destruct (decide (x = y)) as [->|]; [done|done].
  - destruct (decide (s = x)) as [->|]; [done|]. rewrite IH by done. lia.
Qed.

Section Runs.

Context {TaskDescription : Type} (env : Env TaskDescription).

Lemma run_settings n st r st' :
  run env n st = (r, st') -> settings st' = settings st.
Proof.
  revert st. induction n as [|n IH]; intros st; cbn [run].
  - by intros [= <- <-].
  - unfold bind. destruct (cycle env st) as [[[]|e] st1] eqn:E.
    + intros H. rewrite (IH st1 H). by eapply cycle_settings.
    + intros [= <- <-]. by eapply cycle_settings.
Qed.

(** X10. The only call of a cycle that can raise is [time.sleep].  The
    polls, the scale decision and the eviction always complete, and [sleep]
    is then called on [thread_sleep_time].  If it returns, the second poll
    of the unresponsive servers runs and the cycle ends without raising.  If
    it raises (a [ValueError] on a negative length, an [OverflowError] on a
    length the clock cannot hold), the cycle ends with that exception right
    after the call: the second poll of the unresponsive servers never runs,
    and [run] ends there with the same exception.  As long as [time.sleep]
    returns on the [thread_sleep_time] of the manager, no number of cycles
    raises anything (no pop, removal or subscript of the loop is out of
    range) and the settings stay as they are. *)
Theorem run_sleep_time st :
  let t := thread_sleep_time (self st) in
  exists ua st1 u st2 st3 st4,
    poll_and_commit env st = (Ok ua, st1) /\
    poll_standby env (standby_servers (self st)) ua st1 = (Ok u, st2) /\
    scale env st2 = (Ok tt, st3) /\
    evict_standby env st3 = (Ok tt, st4) /\
    (time_sleep env t (calls st4) = Ok tt ->
     exists st',
       recheck_all env u (log (Sleep t) st4) = (Ok tt, st') /\
       cycle env st = (Ok tt, st')) /\
    (forall e, time_sleep env t (calls st4) = Raise e ->
       cycle env st = (Raise e, log (Sleep t) st4) /\
       forall n, run env (S n) st = (Raise e, log (Sleep t) st4)) /\
    ((forall cs, time_sleep env t cs = Ok tt) ->
     forall n, exists st',
       run env n st = (Ok tt, st') /\ settings st' = settings st).
Proof.
  intros t.
  destruct (cycle_phases env st) as (st1 & st2 & st3 & st4 & H).
  cbv zeta in H. destruct H as (H1 & H2 & H3 & H4 & Hc & _). fold t in Hc.
  eexists _, st1, _, st2, st3, st4.
  split; [exact H1|]. split; [exact H2|]. split; [exact H3|].
  split; [exact H4|]. split; [|split].
  - intros Ht. rewrite Ht in Hc.
    destruct (recheck_all_rechecked env
                (failed (available_servers (self st))
                   (replies env st (available_servers (self st)) (calls st))
                 ++ failed (standby_servers (self st))
                      (replies env st (standby_servers (self st)) (calls st1)))
                (log (Sleep t) st4)) as (st' & E & _).
    exists st'. split; [exact E|]. by rewrite Hc.
  - intros e Ht. rewrite Ht in Hc. split; [exact Hc|].
    intros n. cbn [run]. unfold bind. by rewrite Hc.
  - intros Ht n. destruct (run_total env n st Ht) as (st' & E).
    exists st'. split; [exact E|]. by eapply run_settings.
Qed.

(** X11. In every state the program reaches from [__init__] by cycles of
    [run] and calls to [get_available_server], however they end: no server
    is in both pools or twice in one, every server of a pool is an object
    of the store, and the settings are the ones the manager started
    with. *)
Theorem reachable_pools_wf family up down t st :
  reachable env family up down t st ->
  pools_wf st /\ settings st = (family, up, down, t).
Proof.
  induction 1 as [|st r st' _ [IHwf IHs] E|st r st' _ [IHwf IHs] E].
  - destruct (ServerManagerThread_init_spec env family up down t)
      as (Hwf & _ & _ & _ & _ & Hs). done.
  - split; [by eapply cycle_pools_wf|].
    rewrite <- IHs. by eapply cycle_settings.
  - split; [by eapply get_available_server_pools_wf|].
    rewrite <- IHs.
    destruct (available_servers (self st)) as [|x l] eqn:Hl.
    + rewrite (get_available_server_empty st Hl) in E. by injection E as _ <-.
    + destruct (get_available_server_index_spec st) as (s & Hs & _);
        [by rewrite Hl|].
      rewrite (get_available_server_nonempty st s Hs) in E.
      by injection E as _ <-.
Qed.

Lemma construct_servers_arns arns st l st' :
  construct_servers env arns st = (Ok l, st') ->
  (fun x => task_arn (heap st' !!! x)) <$> l = arns.
Proof.
  revert st l st'. induction arns as [|arn arns IH]; intros st l st'.
  { cbn. by intros [= <- <-]. }
  cbn [construct_servers]. unfold bind at 1.
  destruct (Server_init env arn st) as [[srv|e] st1] eqn:Hinit; [|done].
  destruct (Server_init_spec env arn st _ st1 Hinit) as (Hh & _ & _ & Hsrv).
  destruct (Hsrv srv eq_refl) as (Harn & _).
  unfold bind at 1, alloc. rewrite Hh.
  set (x0 := fresh (dom (heap st))).
  set (st2 := set_heap (<[x0:=srv]> (heap st)) st1).
  unfold bind at 1.
  destruct (construct_servers env arns st2) as [[rest|e] st3] eqn:Hrest;
    [|done].
  intros [= <- <-]. cbn [fmap list_fmap]. f_equal.
  - destruct (construct_servers_spec env arns st2 _ st3 Hrest)
      as (_ & _ & Hk & _).
    assert (Hx0 : x0 ∈ dom (heap st2)).
    { cbn. rewrite dom_insert. apply elem_of_union. left.
      by apply elem_of_singleton. }
    rewrite lookup_total_alt, (Hk x0 Hx0). cbn.
    by rewrite lookup_insert_eq.
  - by apply (IH st2).
Qed.

(** X12. [__init__] keeps all the running tasks or none.  If the listing of
    the tasks raises, or the construction of the server of any task raises,
    the active pool is empty, whatever servers were built before the
    failure.  Otherwise the active pool holds one server per listed task, in
    the order of the listing.  In every case the standby pool is empty, the
    aggregate is 0 and every server of the active pool has capacity 0. *)
Theorem init_all_or_nothing family up down t :
  let st0 := mkState ∅ (mkManager family [] [] 0 up down t) [] in
  let st := ServerManagerThread_init env family up down t in
  standby_servers (self st) = [] /\
  total_available_capacity (self st) = 0 /\
  (forall x, x ∈ available_servers (self st) -> capacity st x = 0) /\
  (forall e, get_tasks env family [] = Raise e ->
     available_servers (self st) = [] /\ calls st = [GetTasks family]) /\
  (forall arns e st1,
     get_tasks env family [] = Ok arns ->
     construct_servers env arns (log (GetTasks family) st0) = (Raise e, st1) ->
     available_servers (self st) = [] /\ heap st = heap st1) /\
  (forall arns l st1,
     get_tasks env family [] = Ok arns ->
     construct_servers env arns (log (GetTasks family) st0) = (Ok l, st1) ->
     available_servers (self st) = l /\
     (fun x => task_arn (heap st !!! x)) <$> l = arns).
Proof.
  intros st0 st.
  destruct (ServerManagerThread_init_spec env family up down t)
    as (_ & _ & Hsb & Htot & Hsum & _).
  fold st in Hsb, Htot, Hsum.
  split; [exact Hsb|]. split; [exact Htot|].
  assert (Hrun : forall arns r st1,
    get_tasks env family [] = Ok arns ->
    construct_servers env arns (log (GetTasks family) st0) = (r, st1) ->
    available_servers (self st) = match r with Ok l => l | Raise _ => [] end /\
    heap st = heap st1).
  { intros arns r st1 Ht Hc. unfold st, ServerManagerThread_init.
    fold st0. unfold try_except, bind, extern. cbn [calls st0].
    rewrite Ht. fold st0. rewrite Hc. by destruct r. }
  split.
  { unfold st, ServerManagerThread_init. fold st0.
    unfold try_except, bind, extern. cbn [calls st0].
    destruct (get_tasks env family []) as [arns|e] eqn:Ht.
    - destruct (construct_servers env arns (log (GetTasks family) st0))
        as [r st1] eqn:Hc.
      destruct (construct_servers_spec env arns _ r st1 Hc)
        as (_ & _ & _ & _ & Hl).
      assert (Hz : forall x, x ∈ (match r with Ok l => l | Raise _ => [] end)
                             -> capacity st1 x = 0).
      { destruct r as [l|e]; [|intros x Hx; by apply elem_of_nil in Hx].
        intros x Hx. destruct (Hl l eq_refl) as (_ & H).
        by destruct (H x Hx) as (_ & _ & ?). }
      destruct r; exact Hz.
    - cbn. intros x Hx. by apply elem_of_nil in Hx. }
  split.
  { intros e Ht. unfold st, ServerManagerThread_init. fold st0.
    unfold try_except, bind, extern. cbn [calls st0]. rewrite Ht. done. }
  split.
  { intros arns e st1 Ht Hc. exact (Hrun arns _ st1 Ht Hc). }
  intros arns l st1 Ht Hc. destruct (Hrun arns _ st1 Ht Hc) as [Ha Hh].
  split; [exact Ha|]. rewrite Hh. by eapply construct_servers_arns.
Qed.

End Runs.

(** *** Allocations *)

(** X13. On a non-empty active pool free of repetitions, an allocation
    returns a server of the pool, leaves the pool as it is, and lowers the sum
    of the capacities of the pool by exactly 1.  The aggregate is not
    lowered: it overstates the sum by one more after each allocation. *)
Theorem allocation_lowers_sum st :
  NoDup (get_available_servers st) ->
  get_available_servers st <> [] ->
  exists s st',
    get_available_server st = (Ok s, st') /\
    s ∈ get_available_servers st /\
    get_available_servers st' = get_available_servers st /\
    total_capacity st' (get_available_servers st')
      = total_capacity st (get_available_servers st) - 1 /\
    total_available_capacity (self st')
      - total_capacity st' (get_available_servers st')
    = total_available_capacity (self st)
      - total_capacity st (get_available_servers st) + 1.
Proof.
  unfold get_available_servers. intros Hnd Hne.
  destruct (get_available_server_index_spec st Hne) as (s & Hs & _).
  exists s. eexists. split; [by apply get_available_server_nonempty|].
  assert (Hin : s ∈ available_servers (self st))
    by (by eapply list_elem_of_lookup_2).
  split; [exact Hin|]. split; [reflexivity|].
  cbn [self set_capacity set_heap total_available_capacity available_servers].
  change (mkState _ (self st) (calls st))
    with (set_capacity s (capacity st s - 1) st).
  rewrite (total_capacity_set_capacity st s _ _ Hnd Hin). lia.
Qed.

(** X14. Allocations spread over the servers that hold the greatest
    capacity: if the pool has another server with the same capacity as the
    one an allocation returned, the next allocation returns a different
    server, which held that same capacity. *)
Theorem allocations_spread st s1 st1 :
  get_available_server st = (Ok s1, st1) ->
  (exists s2, s2 ∈ get_available_servers st /\ s2 <> s1 /\
              capacity st s2 = capacity st s1) ->
  exists s2 st2,
    get_available_server st1 = (Ok s2, st2) /\
    s2 <> s1 /\ s2 ∈ get_available_servers st /\
    capacity st s2 = capacity st s1.
Proof.
  unfold get_available_servers. intros E (s2 & Hin2 & Hne2 & Hcap2).
  assert (Hne : available_servers (self st) <> []).
  { intros Hnil. rewrite Hnil in Hin2. by apply elem_of_nil in Hin2. }
  destruct (get_available_server_index_spec st Hne) as (s & Hs & Hmax & _).
  rewrite (get_available_server_nonempty st s Hs) in E.
  injection E as <- <-.
  set (st1 := set_capacity s (capacity st s - 1) st).
  assert (Hne1 : available_servers (self st1) <> []) by exact Hne.
  destruct (get_available_server_index_spec st1 Hne1) as (s' & Hs' & Hmax' & _).
  exists s'. eexists. split; [by apply get_available_server_nonempty|].
  change (available_servers (self st1)) with (available_servers (self st))
    in Hs', Hmax'.
  apply list_elem_of_lookup in Hin2 as [j Hj].
  pose proof (Hmax' j s2 Hj) as Hle. unfold st1 in Hle.
  rewrite !capacity_set_capacity in Hle.
  destruct (decide (s = s2)) as [->|_]; [done|].
  assert (Hs's : s' <> s).
  { intros ->. destruct (decide (s = s)); [lia|done]. }
  split; [exact Hs's|]. split; [by eapply list_elem_of_lookup_2|].
  destruct (decide (s = s')) as [->|_]; [done|].
  pose proof (Hmax _ s' Hs'). lia.
Qed.

(** *** The aggregate through a cycle *)

Lemma total_capacity_delete st (l : list loc) i s :
  l !! i = Some s ->
  total_capacity st (delete i l) = total_capacity st l - capacity st s.
Proof.
  revert i. induction l as [|x l IH]; intros [|i] Hi; cbn in Hi;
    try discriminate.
  - injection Hi as ->. cbn [delete list_delete].
    rewrite total_capacity_cons. lia.
  - change (delete (S i) (x :: l)) with (x :: delete i l).
    rewrite !total_capacity_cons, (IH i Hi). lia.
Qed.

Section AggregateCycle.

Context {TaskDescription : Type} (env : Env TaskDescription).

(** The scale decision keeps the aggregate equal to the sum of the
    capacities of the active pool. *)
Lemma scale_aggregate st r st' :
  pools_wf st ->
  total_available_capacity (self st)
    = total_capacity st (available_servers (self st)) ->
  scale env st = (r, st') ->
  total_available_capacity (self st')
    = total_capacity st' (available_servers (self st')).
Proof.
  intros [_ Hdom] Htot. rewrite scale_eq.
  destruct (scale_action st) eqn:Hact.
  - destruct (standby_servers (self st)) as [|s rest] eqn:Hs.
    + rewrite (upscale_provision env st Hs).
      destruct (add_server_spec env st) as (ok & st1 & Hadd & _ & H).
      rewrite Hadd. cbn [snd]. intros [= _ <-].
      destruct ok.
      * destruct H as (srv & Hh & Hself & _ & Hcap & _). rewrite Hself.
        cbn [self set_available_servers set_self available_servers
             total_available_capacity].
        rewrite total_capacity_app, Htot.
        assert (Hfresh : fresh (dom (heap st)) ∉ dom (heap st))
          by apply is_fresh.
        rewrite (total_capacity_ext st st1).
        -- rewrite total_capacity_cons. unfold total_capacity, capacity. cbn.
           rewrite Hh, lookup_total_insert_eq. lia.
        -- intros x Hx. unfold capacity. rewrite Hh.
           rewrite lookup_total_insert_ne; [done|].
           intros <-. apply Hfresh, Hdom, elem_of_app. by left.
      * destruct H as [Hh Hself]. rewrite Hself, Htot.
        symmetry. apply total_capacity_ext. intros x _.
        unfold capacity. by rewrite Hh.
    + rewrite (upscale_recall env st s rest Hs). intros [= _ <-].
      set (st' := set_available_servers _ _).
      change (total_available_capacity (self st'))
        with (total_available_capacity (self st) + capacity st s).
      change (available_servers (self st'))
        with (available_servers (self st) ++ [s]).
      rewrite total_capacity_app, total_capacity_cons.
      rewrite (total_capacity_ext st st' (available_servers (self st)))
        by done.
      change (capacity st' s) with (capacity st s).
      change (total_capacity st' []) with 0. lia.
  - destruct (available_servers (self st) !! get_available_server_index st)
      as [s|] eqn:Hs.
    + rewrite (downscale_spec st s Hs). intros [= _ <-].
      set (st' := set_standby_servers _ _).
      change (total_available_capacity (self st'))
        with (total_available_capacity (self st) - capacity st s).
      change (available_servers (self st'))
        with (delete (get_available_server_index st)
                     (available_servers (self st))).
      rewrite (total_capacity_ext st st' (delete _ _)) by done.
      rewrite (total_capacity_delete st _ _ s Hs), Htot. done.
    + rewrite (downscale_out_of_range st Hs). by intros [= _ <-].
  - by intros [= _ <-].
Qed.

Lemma poll_available_calls l st0 acc u st :
  same_identity st0 st ->
  calls (snd (poll_available env l acc u st)) = poll_calls st0 l (calls st).
Proof.
  revert acc u st. induction l as [|s l IH]; intros acc u st Hid; [done|].
  rewrite poll_available_cons. cbv zeta. cbn [poll_calls].
  destruct (update_state env s st) as [r st1] eqn:E. cbn [snd].
  destruct (update_state_frame env s st r st1 E) as (_ & Hc & _ & Hid1 & _).
  rewrite <- (same_identity_health_url st0 st s Hid), <- Hc.
  assert (Hid' : same_identity st0 st1) by (by eapply same_identity_trans).
  destruct (reported (health_reply env st s)) as [[b c]|].
  - by apply IH.
  - rewrite IH; [done|].
    eapply same_identity_trans; [exact Hid'|apply same_identity_set_capacity].
Qed.

(** X15. From well-formed pools, when a cycle reaches its sleep (after the
    polls, the scale decision and the eviction), the aggregate is exactly the
    sum of the capacities of the active pool: moving a server in or out of
    the active pool moves its capacity in or out of the aggregate, and a new
    server counts for 0. *)
Theorem aggregate_at_sleep st :
  pools_wf st ->
  exists ua st1 u st2 st3 st4,
    poll_and_commit env st = (Ok ua, st1) /\
    poll_standby env (standby_servers (self st)) ua st1 = (Ok u, st2) /\
    scale env st2 = (Ok tt, st3) /\
    evict_standby env st3 = (Ok tt, st4) /\
    total_available_capacity (self st2)
      = total_capacity st2 (available_servers (self st2)) /\
    total_available_capacity (self st3)
      = total_capacity st3 (available_servers (self st3)) /\
    total_available_capacity (self st4)
      = total_capacity st4 (available_servers (self st4)).
Proof.
  intros Hwf. pose proof Hwf as [Hnd _].
  apply NoDup_app in Hnd as (Hna & Hdisj & Hns).
  destruct (poll_and_commit_spec env st) as (st0 & _ & Hf0 & Hcap0 & Hrun1).
  set (la := available_servers (self st)) in *.
  set (ls := standby_servers (self st)) in *.
  set (ra := replies env st la (calls st)) in *.
  set (st1 := set_total_available_capacity (sum_Z (contribution <$> ra)) st0)
    in *.
  assert (Hid1 : same_identity st st1) by apply Hf0.
  destruct (poll_standby_spec env ls st (failed la ra) st1 Hid1)
    as (st2 & Hrun2 & Hf2 & _).
  destruct (scale_total env st2) as (st3 & Hrun3).
  pose proof (evict_standby_spec env st3) as Hrun4.
  eexists _, st1, _, st2, st3, _.
  split; [exact Hrun1|]. split; [exact Hrun2|]. split; [exact Hrun3|].
  split; [exact Hrun4|].
  assert (Hself0 : self st0 = self st) by apply Hf0.
  assert (H1 : total_available_capacity (self st1)
               = total_capacity st1 (available_servers (self st1))).
  { cbn. rewrite Hself0. fold la.
    rewrite (sum_contribution_total_capacity st0 la ra).
    - by apply total_capacity_ext.
    - apply replies_length.
    - exact (Hcap0 Hna). }
  assert (Hwf1 : pools_wf st1).
  { exact (poll_and_commit_stable env _ (pools_wf_stable env)
             st _ st1 Hwf Hrun1). }
  assert (Hwf2 : pools_wf st2).
  { exact (poll_standby_stable env _ (pools_wf_stable env) ls _
             st1 _ st2 Hwf1 Hrun2). }
  assert (H2 : total_available_capacity (self st2)
               = total_capacity st2 (available_servers (self st2))).
  { destruct Hf2 as (Hs2 & _ & Hh2 & _). rewrite Hs2, H1.
    symmetry. apply total_capacity_ext. intros x Hx.
    unfold capacity. rewrite !lookup_total_alt, Hh2; [done|].
    apply Hdisj. cbn in Hx. by rewrite Hself0 in Hx. }
  pose proof (scale_aggregate st2 _ st3 Hwf2 H2 Hrun3) as H3.
  split; [exact H2|]. split; [exact H3|].
  cbn. rewrite H3. by apply total_capacity_ext.
Qed.

(** X16. A standby server whose poll fails is recalled with the capacity it
    last held.  From well-formed pools, if the aggregate that the poll of
    the active pool commits is below [upscale_margin] and the first standby
    server does not answer its poll, that server enters the unresponsive
    list, then moves to the end of the active pool, and the capacity it had
    before the cycle is added to the aggregate. *)
Theorem upscale_recalls_unanswered_standby st s rest :
  pools_wf st ->
  standby_servers (self st) = s :: rest ->
  reported (requests_get_json env (health_url st s)
              (poll_calls st (available_servers (self st)) (calls st)))
    = None ->
  sum_Z (contribution <$>
           replies env st (available_servers (self st)) (calls st))
    < upscale_margin (self st) ->
  exists ua st1 u st2 st3,
    poll_and_commit env st = (Ok ua, st1) /\
    poll_standby env (standby_servers (self st)) ua st1 = (Ok u, st2) /\
    scale env st2 = (Ok tt, st3) /\
    s ∈ u /\
    available_servers (self st3) = available_servers (self st) ++ [s] /\
    standby_servers (self st3) = rest /\
    total_available_capacity (self st3) =
      sum_Z (contribution <$>
               replies env st (available_servers (self st)) (calls st))
      + capacity st s.
Proof.
  intros [Hnd _] Hsb Hrep Hlow.
  apply NoDup_app in Hnd as (Hna & Hdisj & Hns).
  destruct (poll_and_commit_spec env st) as (st0 & Hpoll & Hf0 & _ & Hrun1).
  set (la := available_servers (self st)) in *.
  set (ra := replies env st la (calls st)) in *.
  set (st1 := set_total_available_capacity (sum_Z (contribution <$> ra)) st0)
    in *.
  assert (Hid1 : same_identity st st1) by apply Hf0.
  assert (Hcalls1 : calls st1 = poll_calls st la (calls st)).
  { pose proof (poll_available_calls la st 0 [] st (same_identity_refl st))
      as H. rewrite Hpoll in H. exact H. }
  destruct (poll_standby_spec env (standby_servers (self st)) st
              (failed la ra) st1 Hid1) as (st2 & Hrun2 & Hf2 & Hcap2).
  destruct Hf0 as (Hself0 & _ & Hh0 & _).
  destruct Hf2 as (Hself2 & _ & _).
  assert (Hnotin : s ∉ la).
  { intros Hin. apply (Hdisj s Hin). rewrite Hsb. apply list_elem_of_here. }
  assert (Hcap : capacity st2 s = capacity st s).
  { specialize (Hcap2 Hns 0%nat s
      (requests_get_json env (health_url st s) (calls st1))).
    rewrite Hsb in Hcap2. specialize (Hcap2 eq_refl eq_refl).
    rewrite Hcalls1, Hrep in Hcap2. rewrite Hcap2.
    unfold capacity. cbn. by rewrite !lookup_total_alt, (Hh0 s Hnotin). }
  assert (Hact : scale_action st2 = Upscale).
  { apply scale_action_cases, upscale_test_spec.
    rewrite Hself2. cbn. by rewrite Hself0. }
  assert (Hsb2 : standby_servers (self st2) = s :: rest).
  { rewrite Hself2. cbn. by rewrite Hself0. }
  eexists _, st1, _, st2, _.
  split; [exact Hrun1|]. split; [exact Hrun2|].
  split.
  { rewrite scale_eq, Hact. apply (upscale_recall env st2 s rest Hsb2). }
  split.
  { apply elem_of_app. right. rewrite Hsb. cbn [replies failed].
    rewrite Hcalls1, Hrep. apply list_elem_of_here. }
  cbn. rewrite Hself2. cbn. rewrite Hself0, Hcap. done.
Qed.

End AggregateCycle.

(** *** The singleton *)

Section SingletonProperties.

Context {TaskDescription : Type} (env : Env TaskDescription).

(** X17. [get_instance] raises nothing and always returns the manager that
    [__shared_instance] then holds: the one that exists, untouched, if there
    is one; the one [__init__] builds, if there is none.  Once there is a
    manager, a further [get_instance] returns the same manager, whatever the
    settings have become, and a direct construction raises [Exception] and
    leaves the manager as it is. *)
Theorem get_instance_singleton family up down t shared_instance :
  exists m,
    get_instance env family up down t shared_instance = (Ok (Some m), Some m) /\
    (forall m0, shared_instance = Some m0 -> m = m0) /\
    (shared_instance = None ->
     m = ServerManagerThread_init env family up down t /\
     ServerManagerThread_new env family up down t shared_instance
       = (Ok tt, Some m)) /\
    (forall family' up' down' t',
       get_instance env family' up' down' t' (Some m) = (Ok (Some m), Some m) /\
       ServerManagerThread_new env family' up' down' t' (Some m)
         = (Raise "Exception", Some m)).
Proof.
  destruct shared_instance as [m0|].
  - exists m0. split; [done|]. split; [by intros ? [= <-]|].
    split; [discriminate|done].
  - exists (ServerManagerThread_init env family up down t).
    split; [done|]. split; [discriminate|]. done.
Qed.

End SingletonProperties.

(** ** The further properties on the scenarios *)

Lemma pools_wf_of_decide st :
  NoDup (available_servers (self st) ++ standby_servers (self st)) ->
  Forall (fun s => s ∈ dom (heap st))
         (available_servers (self st) ++ standby_servers (self st)) ->
  pools_wf st.
Proof. intros Hnd HF. split; [exact Hnd|]. by apply Forall_forall. Qed.

Module FurtherWitness.

Import Scenario Cases.

(** X1 on a reply that has the close flag only, and on no reply at all. *)
Lemma update_state_failure_modes_witness :
  (exists st',
     update_state env_partial 0%nat one_each = (Ok false, st') /\
     closable st' 0%nat = true /\ capacity st' 0%nat = 0) /\
  (exists st',
     update_state env_down 0%nat one_each = (Ok false, st') /\
     heap st' = heap one_each).
Proof.
  split.
  - destruct (update_state_failure_modes env_partial 0%nat one_each)
      as (_ & _ & H).
    destruct (H (mkHealth (Some true) None) true) as (st' & E & Hc & Hk & _);
      try (vm_compute; reflexivity).
    exists st'. split; [exact E|]. split; [exact Hc|].
    rewrite Hk. vm_compute. reflexivity.
  - destruct (update_state_failure_modes env_down 0%nat one_each)
      as (H & _).
    apply (H "ConnectionError"). vm_compute. reflexivity.
Defined.

(** X2 on the first of two servers: the second is untouched. *)
Lemma update_state_effect_witness :
  exists ok st',
    update_state env_8_9 0%nat two_idle = (Ok ok, st') /\
    calls st' = [RequestsGet "http://a:80/health/"] /\
    heap st' !! 1%nat = heap two_idle !! 1%nat.
Proof.
  destruct (update_state_effect env_8_9 0%nat two_idle)
    as (ok & st' & E & _ & Hc & Hh & _).
  exists ok, st'. split; [exact E|]. split.
  - rewrite Hc. vm_compute. reflexivity.
  - apply Hh. discriminate.
Defined.

(** X3 with the cloud up, and with the cloud down. *)
Lemma Server_init_requests_witness :
  (exists st',
     Server_init env_1 "arn:x" empty_pool =
       (Ok (mkServer "arn:x" "RUNNING" "i-new" "new:80" 0 false), st') /\
     calls st' =
       [GetIp "i-new"; GetExposedPort; GetEc2Id; GetTaskDescription "arn:x";
        RunningTaskWaiter "arn:x"]) /\
  (exists st',
     Server_init env_down "arn:x" empty_pool = (Raise "ClientError", st') /\
     calls st' = [RunningTaskWaiter "arn:x"]).
Proof.
  split.
  - destruct (Server_init_requests env_1 "arn:x" empty_pool)
      as (r & st' & E & _ & _ & Hiff & Hcalls & _).
    assert (Hr : r = Ok (mkServer "arn:x" "RUNNING" "i-new" "new:80" 0 false)).
    { apply Hiff. exists tt, "i-new", "80", "new".
      repeat split; vm_compute; reflexivity. }
    pose proof (Hcalls _ Hr) as Hc. subst r.
    exists st'. split; [exact E | exact Hc].
  - destruct (Server_init_requests env_down "arn:x" empty_pool)
      as (r & st' & E & _ & _ & _ & _ & Hfail).
    destruct (Hfail "ClientError") as [Hr Hc]; [vm_compute; reflexivity|].
    subst r. exists st'. split; [exact E | exact Hc].
Defined.

(** X4 with the cloud down: the request is made, the answer is [False]. *)
Lemma remove_server_only_requests_witness :
  exists st',
    remove_server env_down 0%nat exhausted = (Ok false, st') /\
    self st' = self exhausted /\ heap st' = heap exhausted /\
    calls st' = [TerminateEc2 "i-a"].
Proof.
  destruct (remove_server_only_requests env_down 0%nat exhausted)
    as (ok & st' & E & Hh & Hs & Hc & Hiff).
  assert (Hok : ok = false).
  { destruct ok; [|reflexivity].
    destruct Hiff as [H _]. specialize (H eq_refl).
    vm_compute in H. discriminate. }
  subst ok. exists st'. split; [exact E|]. split; [exact Hs|].
  split; [exact Hh|]. rewrite Hc. vm_compute. reflexivity.
Defined.

(** X5 with the cloud up: the server of the launched task is registered;
    with the cloud down: one request, store and manager as before. *)
Lemma add_server_registers_launched_task_witness :
  (exists st' srv,
     add_server env_1 low_alone = (Ok true, st') /\
     task_arn srv = "arn:new" /\
     heap st' = <[1%nat := srv]> (heap low_alone) /\
     available_servers (self st') = [0%nat; 1%nat]) /\
  (exists st',
     add_server env_cloud_down low_alone = (Ok false, st') /\
     calls st' = [LaunchEcsInstance] /\
     heap st' = heap low_alone /\ self st' = self low_alone).
Proof.
  split.
  - destruct (add_server_registers_launched_task env_1 low_alone)
      as (ok & st' & E & _ & _ & _ & Hok).
    assert (Htrue : ok = true).
    { pose proof E as E'. vm_compute in E'. congruence. }
    destruct (Hok Htrue) as (task & srv & Ht & Harn & Hh & _ & Hav & _).
    subst ok. exists st', srv. split; [exact E|].
    split.
    { rewrite Harn. vm_compute in Ht. congruence. }
    split; [exact Hh | exact Hav].
  - destruct (add_server_registers_launched_task env_cloud_down low_alone)
      as (ok & st' & E & _ & Hframe & Hfail & _).
    destruct (Hfail "ClientError") as [Hok Hc]; [vm_compute; reflexivity|].
    subst ok. exists st'. split; [exact E|]. split; [exact Hc|].
    exact (Hframe eq_refl).
Defined.

(** X6 on two standby servers: the first answers, the second does not and
    keeps its capacity. *)
Lemma poll_standby_keeps_capacity_witness :
  NoDup (standby_servers (self with_ready_standby)) /\
  exists st',
    poll_standby env_partial (standby_servers (self with_ready_standby)) []
      with_ready_standby = (Ok [2%nat], st') /\
    self st' = self with_ready_standby /\
    capacity st' 1%nat = 3 /\ capacity st' 2%nat = 2.
Proof.
  assert (Hnd : NoDup (standby_servers (self with_ready_standby))).
  { apply (bool_decide_unpack _). vm_compute. exact I. }
  split; [exact Hnd|].
  destruct (poll_standby_keeps_capacity env_partial
              (standby_servers (self with_ready_standby)) []
              with_ready_standby Hnd) as (st' & E & Hs & _ & Hcap).
  exists st'. split; [exact E|]. split; [exact Hs|]. split.
  - pose proof (Hcap 0%nat 1%nat (Ok (report true 3)) eq_refl) as H.
    apply H. vm_compute. reflexivity.
  - pose proof (Hcap 1%nat 2%nat (Raise "ConnectionError") eq_refl) as H.
    cbn [reported] in H. rewrite H; vm_compute; reflexivity.
Defined.

(** X7 on two standby servers of which the first is ready to close, with
    the cloud down. *)
Lemma evict_standby_drops_ready_witness :
  exists st',
    evict_standby env_down with_ready_standby = (Ok tt, st') /\
    standby_servers (self st') = [2%nat] /\
    (1%nat ∉ standby_servers (self st')) /\
    TerminateEc2 "i-b" ∈ calls st'.
Proof.
  destruct (evict_standby_drops_ready env_down with_ready_standby)
    as (st' & E & Hsb & _ & _ & _ & Hready & _).
  exists st'. split; [exact E|]. split.
  - rewrite Hsb. vm_compute. reflexivity.
  - apply (Hready 1%nat).
    + apply (bool_decide_unpack _). vm_compute. exact I.
    + vm_compute. reflexivity.
Defined.

(** X8 on capacities 8 and 9: one server stays active. *)
Lemma scale_keeps_one_active_witness :
  scale_action two_polled = Downscale /\
  exists st',
    scale env_8_9 two_polled = (Ok tt, st') /\
    length (available_servers (self st')) = 1%nat /\
    available_servers (self st') <> [].
Proof.
  split; [reflexivity|].
  destruct (scale_keeps_one_active env_8_9 two_polled)
    as (st' & E & Hne & Hdown & _).
  exists st'. split; [exact E|].
  destruct (Hdown eq_refl) as (Hlen & _ & _).
  split; [cbn in Hlen; congruence|].
  apply Hne. vm_compute. discriminate.
Defined.

(** X9 on a server that is in no pool and does not answer. *)
Lemma recheck_failed_effect_witness :
  update_state env_1 7%nat stray =
    (Ok false, snd (update_state env_1 7%nat stray)) /\
  exists st',
    recheck env_1 7%nat stray = (Ok tt, st') /\
    self st' = self stray /\
    calls st' = [TerminateEc2 "i-z"; RequestsGet "http://z:80/health/"].
Proof.
  assert (E : update_state env_1 7%nat stray =
              (Ok false, snd (update_state env_1 7%nat stray)))
    by (vm_compute; reflexivity).
  split; [exact E|].
  destruct (recheck_failed_effect env_1 7%nat stray _ E)
    as (st' & Hrun & Hc & _ & _ & _ & _ & _ & Hnone).
  exists st'. split; [exact Hrun|]. split.
  - apply Hnone; apply (bool_decide_unpack _); vm_compute; exact I.
  - rewrite Hc. vm_compute. reflexivity.
Defined.

(** X10 on a sleep time of 5, of -1 and of 10000000000. *)
Lemma run_sleep_time_witness :
  (exists st', run env_1 2 low_alone = (Ok tt, st')) /\
  (exists st', run env_down 3 negative_sleep = (Raise "ValueError", st')) /\
  (exists st', run env_down 3 long_sleep = (Raise "OverflowError", st')).
Proof.
  split; [|split].
  - destruct (run_sleep_time env_1 low_alone)
      as (ua & st1 & u & st2 & st3 & st4 & _ & _ & _ & _ & _ & _ & H).
    destruct (H (fun cs => eq_refl) 2%nat) as (st' & E & _). by exists st'.
  - destruct (run_sleep_time env_down negative_sleep)
      as (ua & st1 & u & st2 & st3 & st4 & _ & _ & _ & _ & _ & H & _).
    destruct (H "ValueError" eq_refl) as [_ Hrun].
    eexists. apply (Hrun 2%nat).
  - destruct (run_sleep_time env_down long_sleep)
      as (ua & st1 & u & st2 & st3 & st4 & _ & _ & _ & _ & _ & H & _).
    destruct (H "OverflowError" eq_refl) as [_ Hrun].
    eexists. apply (Hrun 2%nat).
Defined.

(** X11 after [__init__] on two running tasks, a cycle and an
    allocation. *)
Lemma reachable_pools_wf_witness :
  let st0 := ServerManagerThread_init env_two_tasks "gameserver" 2 10 5 in
  let st := snd (get_available_server (snd (cycle env_two_tasks st0))) in
  reachable env_two_tasks "gameserver" 2 10 5 st /\
  pools_wf st /\ settings st = ("gameserver", 2, 10, 5).
Proof.
  intros st0 st.
  assert (Hr : reachable env_two_tasks "gameserver" 2 10 5 st).
  { eapply reachable_allocation; [|apply surjective_pairing].
    eapply reachable_cycle; [|apply surjective_pairing].
    apply reachable_init. }
  split; [exact Hr|].
  exact (reachable_pools_wf env_two_tasks "gameserver" 2 10 5 st Hr).
Defined.

(** X12 on two running tasks: both are kept; when the second never gets
    running, none is. *)
Lemma init_all_or_nothing_witness :
  (available_servers
     (self (ServerManagerThread_init env_two_tasks "gameserver" 2 10 5))
     = [0%nat; 1%nat] /\
   (fun x => task_arn
      (heap (ServerManagerThread_init env_two_tasks "gameserver" 2 10 5) !!! x))
     <$> [0%nat; 1%nat] = ["arn:1"; "arn:2"]) /\
  available_servers
    (self (ServerManagerThread_init env_second_fails "gameserver" 2 10 5)) = [].
Proof.
  set (st0 := log (GetTasks "gameserver")
                (mkState ∅ (mkManager "gameserver" [] [] 0 2 10 5) [])).
  split.
  - destruct (init_all_or_nothing env_two_tasks "gameserver" 2 10 5)
      as (_ & _ & _ & _ & _ & H).
    apply (H ["arn:1"; "arn:2"] [0%nat; 1%nat]
             (snd (construct_servers env_two_tasks ["arn:1"; "arn:2"] st0)));
      vm_compute; reflexivity.
  - destruct (init_all_or_nothing env_second_fails "gameserver" 2 10 5)
      as (_ & _ & _ & _ & H & _).
    apply (H ["arn:1"; "arn:2"] "WaiterError"
             (snd (construct_servers env_second_fails ["arn:1"; "arn:2"] st0)));
      vm_compute; reflexivity.
Defined.

(** X13 on capacities 8 and 9: the sum goes from 17 to 16, the aggregate
    stays at 17. *)
Lemma allocation_lowers_sum_witness :
  NoDup (get_available_servers two_polled) /\
  get_available_servers two_polled <> [] /\
  exists s st',
    get_available_server two_polled = (Ok s, st') /\
    total_capacity st' (get_available_servers st') = 16 /\
    total_available_capacity (self st')
      - total_capacity st' (get_available_servers st') = 1.
Proof.
  assert (Hnd : NoDup (get_available_servers two_polled)).
  { apply (bool_decide_unpack _). vm_compute. exact I. }
  assert (Hne : get_available_servers two_polled <> [])
    by (vm_compute; discriminate).
  split; [exact Hnd|]. split; [exact Hne|].
  destruct (allocation_lowers_sum two_polled Hnd Hne)
    as (s & st' & E & _ & _ & Hsum & Hgap).
  exists s, st'. split; [exact E|]. split.
  - rewrite Hsum. vm_compute. reflexivity.
  - rewrite Hgap. vm_compute. reflexivity.
Defined.

(** X14 on two servers that both hold 5: the first allocation returns the
    first, the second allocation the second. *)
Lemma allocations_spread_witness :
  get_available_server two_equal =
    (Ok 0%nat, snd (get_available_server two_equal)) /\
  exists st2,
    get_available_server (snd (get_available_server two_equal))
      = (Ok 1%nat, st2).
Proof.
  assert (E : get_available_server two_equal =
              (Ok 0%nat, snd (get_available_server two_equal)))
    by (vm_compute; reflexivity).
  split; [exact E|].
  destruct (allocations_spread two_equal 0%nat _ E)
    as (s2 & st2 & E2 & Hne & Hin & _).
  { exists 1%nat. split; [|split].
    - apply (bool_decide_unpack _). vm_compute. exact I.
    - discriminate.
    - vm_compute. reflexivity. }
  exists st2. rewrite E2. f_equal. f_equal.
  vm_compute in Hin. apply elem_of_cons in Hin as [->|Hin]; [done|].
  apply list_elem_of_singleton in Hin. exact Hin.
Defined.

(** X15 on two active servers that report 8 and 9: the cycle moves one of
    them to standby, and the aggregate follows. *)
Lemma aggregate_at_sleep_witness :
  pools_wf two_idle /\
  exists ua st1 u st2 st3 st4,
    poll_and_commit env_8_9 two_idle = (Ok ua, st1) /\
    poll_standby env_8_9 (standby_servers (self two_idle)) ua st1
      = (Ok u, st2) /\
    scale env_8_9 st2 = (Ok tt, st3) /\
    evict_standby env_8_9 st3 = (Ok tt, st4) /\
    total_available_capacity (self st4)
      = total_capacity st4 (available_servers (self st4)).
Proof.
  assert (Hwf : pools_wf two_idle).
  { apply pools_wf_of_decide; apply (bool_decide_unpack _); vm_compute;
      exact I. }
  split; [exact Hwf|].
  destruct (aggregate_at_sleep env_8_9 two_idle Hwf)
    as (ua & st1 & u & st2 & st3 & st4 & E1 & E2 & E3 & E4 & _ & _ & H4).
  exists ua, st1, u, st2, st3, st4. tauto.
Defined.

(** X16 on an active server that reports 1 and a standby server of capacity
    3 that does not answer: the standby server is recalled and the aggregate
    becomes 4. *)
Lemma upscale_recalls_unanswered_standby_witness :
  pools_wf low_with_standby /\
  exists ua st1 u st2 st3,
    poll_and_commit env_1 low_with_standby = (Ok ua, st1) /\
    poll_standby env_1 (standby_servers (self low_with_standby)) ua st1
      = (Ok u, st2) /\
    scale env_1 st2 = (Ok tt, st3) /\
    (1%nat ∈ u) /\
    available_servers (self st3) = [0%nat; 1%nat] /\
    standby_servers (self st3) = [] /\
    total_available_capacity (self st3) = 4.
Proof.
  assert (Hwf : pools_wf low_with_standby).
  { apply pools_wf_of_decide; apply (bool_decide_unpack _); vm_compute;
      exact I. }
  split; [exact Hwf|].
  destruct (upscale_recalls_unanswered_standby env_1 low_with_standby
              1%nat [] Hwf)
    as (ua & st1 & u & st2 & st3 & E1 & E2 & E3 & Hu & Ha & Hs & Ht).
  - reflexivity.
  - vm_compute. reflexivity.
  - vm_compute. reflexivity.
  - exists ua, st1, u, st2, st3.
    split; [exact E1|]. split; [exact E2|]. split; [exact E3|].
    split; [exact Hu|]. split; [exact Ha|]. split; [exact Hs|].
    rewrite Ht. vm_compute. reflexivity.
Defined.

(** X17 with no manager yet and two running tasks: [get_instance] builds
    the manager, and a direct construction afterwards raises. *)
Lemma get_instance_singleton_witness :
  exists m,
    get_instance env_two_tasks "gameserver" 2 10 5 None
      = (Ok (Some m), Some m) /\
    m = ServerManagerThread_init env_two_tasks "gameserver" 2 10 5 /\
    ServerManagerThread_new env_two_tasks "gameserver" 3 11 6 (Some m)
      = (Raise "Exception", Some m).
Proof.
  destruct (get_instance_singleton env_two_tasks "gameserver" 2 10 5 None)
    as (m & E & _ & Hnone & Hagain).
  exists m. split; [exact E|]. split.
  - apply (Hnone eq_refl).
  - apply (Hagain "gameserver" 3 11 6).
Defined.

End FurtherWitness.
